(** * yajl_sparkling: the YAJL bindings for Sparkling, embedded in Rocq

    The C file [yajl_sparkling.c] glues two external libraries together:
    YAJL (a streaming JSON lexer/parser and a streaming JSON writer) and the
    Sparkling runtime (its dynamically typed values, arrays, hash maps and
    error context).  The code of the file itself is

    - a stack machine that turns YAJL's parser callbacks into a Sparkling
      value ([state_push], [state_pop], [set_value], the [cb_*] callbacks),
    - the driver [json_parse],
    - the recursive emitter [generate_recursive] and its driver
      [json_generate],
    - the option translators [config_parser] and [config_gen].

    Those are translated below function by function.  What belongs to the two
    libraries is either modelled from the specification (the Sparkling value
    model) or kept abstract behind the interface [Yajl]. *)

From Stdlib Require Import ZArith List String Ascii Bool Lia Floats DecimalString.
Import ListNotations.
Local Open Scope string_scope.
Local Open Scope Z_scope.

Set Implicit Arguments.

(* ===================================================================== *)
(** ** The Sparkling value model *)
(* ===================================================================== *)

(** Addresses carried by user-info values.  The only address the file ever
    names is the one of its own static [null_value]. *)
Inductive pointer : Type :=
| AddrOfNullValue
| AddrOther (a : N).

Definition pointer_eqb (p q : pointer) : bool :=
  match p, q with
  | AddrOfNullValue, AddrOfNullValue => true
  | AddrOther a, AddrOther b => N.eqb a b
  | _, _ => false
  end.

(** [SpnValue]: the tagged union of the host.  Arrays and hash maps are kept
    as the ordered sequences the specification describes; a hash map pairs
    arbitrary values (the emitter reads both [key] and [val] as [SpnValue]). *)
#[local] Unset Elimination Schemes.
Inductive SpnValue : Type :=
| SpnNil
| SpnBool (b : bool)
| SpnInt (i : Z)
| SpnFloat (f : float)
| SpnString (s : string)
| SpnArray (elems : list SpnValue)
| SpnHashMap (pairs : list (SpnValue * SpnValue))
| SpnFunc (name : string)
| SpnWeakUserInfo (p : pointer)
| SpnStrongUserInfo (p : pointer).
#[local] Set Elimination Schemes.

(** The type tags [spn_valtype] switches on. *)
Inductive SpnTypeTag : Type :=
| SPN_TTAG_NIL
| SPN_TTAG_BOOL
| SPN_TTAG_NUMBER
| SPN_TTAG_STRING
| SPN_TTAG_ARRAY
| SPN_TTAG_HASHMAP
| SPN_TTAG_FUNC
| SPN_TTAG_USERINFO.

Definition spn_valtype (v : SpnValue) : SpnTypeTag :=
  match v with
  | SpnNil => SPN_TTAG_NIL
  | SpnBool _ => SPN_TTAG_BOOL
  | SpnInt _ | SpnFloat _ => SPN_TTAG_NUMBER
  | SpnString _ => SPN_TTAG_STRING
  | SpnArray _ => SPN_TTAG_ARRAY
  | SpnHashMap _ => SPN_TTAG_HASHMAP
  | SpnFunc _ => SPN_TTAG_FUNC
  | SpnWeakUserInfo _ | SpnStrongUserInfo _ => SPN_TTAG_USERINFO
  end.

Definition spn_isnil (v : SpnValue) : bool :=
  match v with SpnNil => true | _ => false end.
Definition spn_isbool (v : SpnValue) : bool :=
  match v with SpnBool _ => true | _ => false end.
Definition spn_isint (v : SpnValue) : bool :=
  match v with SpnInt _ => true | _ => false end.
Definition spn_isstring (v : SpnValue) : bool :=
  match v with SpnString _ => true | _ => false end.
Definition spn_isarray (v : SpnValue) : bool :=
  match v with SpnArray _ => true | _ => false end.
Definition spn_ishashmap (v : SpnValue) : bool :=
  match v with SpnHashMap _ => true | _ => false end.

(** [spn_stringvalue]: the bytes of a string value. *)
Definition spn_stringvalue (v : SpnValue) : string :=
  match v with SpnString s => s | _ => EmptyString end.

Definition spn_nilval : SpnValue := SpnNil.
Definition spn_makebool (b : bool) : SpnValue := SpnBool b.
Definition spn_makeint (i : Z) : SpnValue := SpnInt i.
Definition spn_makefloat (f : float) : SpnValue := SpnFloat f.
Definition spn_makestring_len (s : string) : SpnValue := SpnString s.
Definition spn_makearray : SpnValue := SpnArray [].
Definition spn_makehashmap : SpnValue := SpnHashMap [].

(** [static const SpnValue null_value]: a weak user-info whose pointer is its
    own address. *)
Definition null_value : SpnValue := SpnWeakUserInfo AddrOfNullValue.

(** Modelled from the spec: the host's value equality [spn_value_equal], which
    is not part of this repository.  The variants are never confused with each
    other; scalars compare by content, user-infos by the address they carry,
    containers element by element in order. *)
Fixpoint spn_value_equal (lhs rhs : SpnValue) {struct lhs} : bool :=
  match lhs, rhs with
  | SpnNil, SpnNil => true
  | SpnBool a, SpnBool b => Bool.eqb a b
  | SpnInt a, SpnInt b => Z.eqb a b
  | SpnFloat a, SpnFloat b => PrimFloat.eqb a b
  | SpnString a, SpnString b => String.eqb a b
  | SpnArray xs, SpnArray ys =>
      (fix elems_equal (xs ys : list SpnValue) {struct xs} : bool :=
         match xs, ys with
         | [], [] => true
         | x :: xs', y :: ys' => spn_value_equal x y && elems_equal xs' ys'
         | _, _ => false
         end) xs ys
  | SpnHashMap ps, SpnHashMap qs =>
      (fix pairs_equal (ps qs : list (SpnValue * SpnValue)) {struct ps} : bool :=
         match ps, qs with
         | [], [] => true
         | (k, v) :: ps', (k', v') :: qs' =>
             spn_value_equal k k' && spn_value_equal v v' && pairs_equal ps' qs'
         | _, _ => false
         end) ps qs
  | SpnFunc a, SpnFunc b => String.eqb a b
  | SpnWeakUserInfo p, SpnWeakUserInfo q => pointer_eqb p q
  | SpnStrongUserInfo p, SpnStrongUserInfo q => pointer_eqb p q
  | _, _ => false
  end.

(** Modelled from the spec: [spn_array_push] of the host's array, appending
    at the end of the ordered sequence. *)
Definition spn_array_push (arr : list SpnValue) (v : SpnValue) : list SpnValue :=
  (arr ++ [v])%list.

(** Modelled from the spec: the write of a value that is not nil into the
    host's map, "keys unique within one map, last write wins, insertion order
    preserved": the pair under an existing key is overwritten in place, a new
    key goes to the end. *)
Fixpoint spn_hashmap_put (hm : list (SpnValue * SpnValue)) (k v : SpnValue)
  : list (SpnValue * SpnValue) :=
  match hm with
  | [] => [(k, v)]
  | (k', v') :: rest =>
      if spn_value_equal k' k then (k', v) :: rest
      else (k', v') :: spn_hashmap_put rest k v
  end.

(** Modelled from the spec: the removal of a key from the host's map; the
    other pairs stay in their order. *)
Definition spn_hashmap_delete (hm : list (SpnValue * SpnValue)) (k : SpnValue)
  : list (SpnValue * SpnValue) :=
  filter (fun kv => negb (spn_value_equal (fst kv) k)) hm.

(** Modelled from the spec: [spn_hashmap_set] of the host's map.  "Inserting
    Absent under a key is semantically a deletion": a nil value removes the
    key, so that a map never holds a pair whose value is nil and the key
    reads nil afterwards, as a key that was never written does.  Any other
    value is written with [spn_hashmap_put]. *)
Definition spn_hashmap_set (hm : list (SpnValue * SpnValue)) (k v : SpnValue)
  : list (SpnValue * SpnValue) :=
  if spn_isnil v then spn_hashmap_delete hm k else spn_hashmap_put hm k v.

(** Modelled from the spec: [spn_hashmap_get_strkey], the lookup of a string
    key; [spn_nilval] when the key has no pair. *)
Fixpoint spn_hashmap_get_strkey (hm : list (SpnValue * SpnValue)) (name : string)
  : SpnValue :=
  match hm with
  | [] => spn_nilval
  | (k', v') :: rest =>
      if spn_value_equal k' (SpnString name) then v'
      else spn_hashmap_get_strkey rest name
  end.

(* ===================================================================== *)
(** ** Parser state: the builder stack *)
(* ===================================================================== *)

(** [struct StackNode]; the [next] pointer is the tail of the list that holds
    the node. *)
Record StackNode : Type := mkStackNode {
  key : SpnValue;     (* for maps only *)
  value : SpnValue
}.

Record ParserState : Type := mkParserState {
  root : SpnValue;
  stack : list StackNode;
  explicit_null : bool
}.

Definition state_init : ParserState :=
  {| root := spn_nilval; stack := []; explicit_null := false |}.

(** [state_free]: walks the list and releases the key and the value of every
    node.  The result is the sequence of [spn_value_release] calls. *)
Fixpoint state_free_nodes (head : list StackNode) : list SpnValue :=
  match head with
  | [] => []
  | node :: next => key node :: value node :: state_free_nodes next
  end.

Definition state_free (state : ParserState) : list SpnValue :=
  state_free_nodes (stack state).

(** A failed [assert] aborts the process: the functions that assert return
    [None] there. *)
Definition assert (b : bool) : option unit := if b then Some tt else None.

Definition obind {A B : Type} (m : option A) (f : A -> option B) : option B :=
  match m with Some a => f a | None => None end.

Notation "x <- m ;; k" := (obind m (fun x => k))
  (at level 61, m at next level, right associativity).
Notation "m ;;; k" := (obind m (fun _ => k))
  (at level 61, right associativity).

Definition state_push (state : ParserState) (collection : SpnValue)
  : option ParserState :=
  assert (spn_isarray collection || spn_ishashmap collection) ;;;
  Some {| root := root state;
          stack := {| key := spn_nilval; value := collection |} :: stack state;
          explicit_null := explicit_null state |}.

Definition state_pop (state : ParserState) : option (SpnValue * ParserState) :=
  match stack state with
  | [] => None                              (* assert(state->stack) *)
  | head :: next =>
      assert (spn_isnil (key head)) ;;;
      Some (value head,
            {| root := root state; stack := next;
               explicit_null := explicit_null state |})
  end.

(** [set_value].  The container retains the value it is given and
    [set_value] releases its own reference: ownership moves into the
    container, which is what the sequence model records. *)
Definition set_value (state : ParserState) (v : SpnValue) : option ParserState :=
  match stack state with
  | [] =>
      Some {| root := v; stack := []; explicit_null := explicit_null state |}
  | top :: next =>
      match value top with
      | SpnArray array =>
          Some {| root := root state;
                  stack := {| key := key top;
                              value := SpnArray (spn_array_push array v) |} :: next;
                  explicit_null := explicit_null state |}
      | SpnHashMap hashmap =>
          assert (spn_isstring (key top)) ;;;
          Some {| root := root state;
                  stack := {| key := spn_nilval;
                              value := SpnHashMap (spn_hashmap_set hashmap (key top) v) |}
                           :: next;
                  explicit_null := explicit_null state |}
      | _ => None          (* assert("cannot add value to non-collection object" == NULL) *)
      end
  end.

(* ===================================================================== *)
(** ** Parser callbacks *)
(* ===================================================================== *)

(** Every callback returns the new state and the [int] it hands back to YAJL
    (non-zero: go on, zero: cancel the parse). *)
Definition cb_result : Type := option (ParserState * Z).

Definition cb_null (state : ParserState) : cb_result :=
  let nullrepr := if explicit_null state then null_value else spn_nilval in
  s <- set_value state nullrepr ;; Some (s, 1).

Definition cb_boolean (state : ParserState) (boolval : bool) : cb_result :=
  s <- set_value state (spn_makebool boolval) ;; Some (s, 1).

Definition cb_integer (state : ParserState) (intval : Z) : cb_result :=
  s <- set_value state (spn_makeint intval) ;; Some (s, 1).

Definition cb_double (state : ParserState) (doubleval : float) : cb_result :=
  s <- set_value state (spn_makefloat doubleval) ;; Some (s, 1).

Definition cb_string (state : ParserState) (strval : string) : cb_result :=
  s <- set_value state (spn_makestring_len strval) ;; Some (s, 1).

Definition cb_start_map (state : ParserState) : cb_result :=
  s <- state_push state spn_makehashmap ;; Some (s, 1).

Definition cb_map_key (state : ParserState) (k : string) : cb_result :=
  match stack state with
  | [] => None                              (* assert(state->stack) *)
  | top :: next =>
      assert (spn_isnil (key top)) ;;;
      Some ({| root := root state;
               stack := {| key := spn_makestring_len k; value := value top |} :: next;
               explicit_null := explicit_null state |}, 1)
  end.

Definition cb_end_map (state : ParserState) : cb_result :=
  p <- state_pop state ;;
  s <- set_value (snd p) (fst p) ;; Some (s, 1).

Definition cb_start_array (state : ParserState) : cb_result :=
  s <- state_push state spn_makearray ;; Some (s, 1).

Definition cb_end_array (state : ParserState) : cb_result :=
  p <- state_pop state ;;
  s <- set_value (snd p) (fst p) ;; Some (s, 1).

(** The events YAJL's parser reports, one per slot of [yajl_callbacks].
    [yajl_number] is [NULL] in [parser_callbacks], so numbers arrive through
    [yajl_integer] and [yajl_double]. *)
Inductive Event : Type :=
| EvNull
| EvBoolean (boolval : bool)
| EvInteger (intval : Z)
| EvDouble (doubleval : float)
| EvString (strval : string)
| EvStartMap
| EvMapKey (k : string)
| EvEndMap
| EvStartArray
| EvEndArray.

(** [parser_callbacks]: the table that routes each event to its callback. *)
Definition parser_callbacks (e : Event) (state : ParserState) : cb_result :=
  match e with
  | EvNull => cb_null state
  | EvBoolean b => cb_boolean state b
  | EvInteger i => cb_integer state i
  | EvDouble d => cb_double state d
  | EvString s => cb_string state s
  | EvStartMap => cb_start_map state
  | EvMapKey k => cb_map_key state k
  | EvEndMap => cb_end_map state
  | EvStartArray => cb_start_array state
  | EvEndArray => cb_end_array state
  end.

(* ===================================================================== *)
(** ** The YAJL interface *)
(* ===================================================================== *)

Inductive yajl_status : Type :=
| yajl_status_ok
| yajl_status_client_canceled
| yajl_status_error.

Definition yajl_status_is_ok (s : yajl_status) : bool :=
  match s with yajl_status_ok => true | _ => false end.

Inductive yajl_option : Type :=
| yajl_allow_comments
| yajl_dont_validate_strings
| yajl_allow_trailing_garbage
| yajl_allow_multiple_values
| yajl_allow_partial_values.

Definition yajl_option_eqb (a b : yajl_option) : bool :=
  match a, b with
  | yajl_allow_comments, yajl_allow_comments
  | yajl_dont_validate_strings, yajl_dont_validate_strings
  | yajl_allow_trailing_garbage, yajl_allow_trailing_garbage
  | yajl_allow_multiple_values, yajl_allow_multiple_values
  | yajl_allow_partial_values, yajl_allow_partial_values => true
  | _, _ => false
  end.

(** A parser handle, as far as this file touches it: the option flags.
    [yajl_alloc] starts with every flag clear. *)
Definition yajl_handle : Type := yajl_option -> bool.

Definition yajl_alloc : yajl_handle := fun _ => false.

Definition yajl_config (hndl : yajl_handle) (opt : yajl_option) (on : bool)
  : yajl_handle :=
  fun o => if yajl_option_eqb o opt then on else hndl o.

(** What YAJL's scanner makes of one input: the events it reports while the
    text is fed ([yajl_parse]) and while the parse is completed
    ([yajl_complete_parse]), whether each of the two calls ends without an
    error of the scanner's own ([yajl_status_ok] rather than
    [yajl_status_error], provided no callback cancels), and the text
    [yajl_get_error] renders for the scanner's error. *)
Record yajl_run : Type := mkRun {
  feed_events : list Event;
  feed_ok : bool;
  finish_events : list Event;
  finish_ok : bool;
  error_text : string
}.

Definition scan_status (ok : bool) : yajl_status :=
  if ok then yajl_status_ok else yajl_status_error.

Inductive yajl_gen_status : Type :=
| yajl_gen_status_ok
| yajl_gen_keys_must_be_strings
| yajl_max_depth_exceeded
| yajl_gen_in_error_state
| yajl_gen_generation_complete
| yajl_gen_invalid_number
| yajl_gen_no_buf
| yajl_gen_invalid_string.

Definition yajl_gen_status_is_ok (s : yajl_gen_status) : bool :=
  match s with yajl_gen_status_ok => true | _ => false end.

Inductive yajl_gen_option : Type :=
| yajl_gen_beautify
| yajl_gen_indent_string
| yajl_gen_print_callback
| yajl_gen_validate_utf8
| yajl_gen_escape_solidus.

(** The argument [yajl_gen_config] takes after the option (a C vararg). *)
Inductive yajl_gen_optval : Type :=
| OptBool (b : bool)
| OptString (s : string).

(** One token-emitting call of the writer. *)
Inductive GenCall : Type :=
| GenNull
| GenBool (b : bool)
| GenInteger (i : Z)
| GenDouble (d : float)
| GenString (s : string)
| GenArrayOpen
| GenArrayClose
| GenMapOpen
| GenMapClose.

(** The two halves of the YAJL library: its scanner, as a function from the
    handle's flags and the input text to a [yajl_run], and its writer, as a
    state machine. *)
Class Yajl : Type := {
  yajl_scan : yajl_handle -> string -> yajl_run;
  yajl_gen : Type;
  yajl_gen_alloc : yajl_gen;
  yajl_gen_config : yajl_gen -> yajl_gen_option -> yajl_gen_optval -> yajl_gen;
  yajl_gen_emit : yajl_gen -> GenCall -> yajl_gen_status * yajl_gen;
  yajl_gen_get_buf : yajl_gen -> yajl_gen_status * string
}.

(** The error context of the host: the messages reported so far, oldest
    first. *)
Definition SpnContext : Type := list string.

Definition spn_ctx_runtime_error (ctx : SpnContext) (msg : string) : SpnContext :=
  (ctx ++ [msg])%list.

Section Bindings.

Context {Y : Yajl}.

Definition yajl_gen_null (g : yajl_gen) := yajl_gen_emit g GenNull.
Definition yajl_gen_bool (g : yajl_gen) (b : bool) := yajl_gen_emit g (GenBool b).
Definition yajl_gen_integer (g : yajl_gen) (i : Z) := yajl_gen_emit g (GenInteger i).
Definition yajl_gen_double (g : yajl_gen) (d : float) := yajl_gen_emit g (GenDouble d).
Definition yajl_gen_string (g : yajl_gen) (s : string) := yajl_gen_emit g (GenString s).
Definition yajl_gen_array_open (g : yajl_gen) := yajl_gen_emit g GenArrayOpen.
Definition yajl_gen_array_close (g : yajl_gen) := yajl_gen_emit g GenArrayClose.
Definition yajl_gen_map_open (g : yajl_gen) := yajl_gen_emit g GenMapOpen.
Definition yajl_gen_map_close (g : yajl_gen) := yajl_gen_emit g GenMapClose.

(* ===================================================================== *)
(** ** The parse driver *)
(* ===================================================================== *)

(** YAJL calls the callback of each event in turn and stops at the first one
    that returns zero.  The boolean tells whether every callback asked to go
    on. *)
Fixpoint yajl_deliver (evs : list Event) (state : ParserState)
  : option (ParserState * bool) :=
  match evs with
  | [] => Some (state, true)
  | e :: evs' =>
      r <- parser_callbacks e state ;;
      if snd r =? 0 then Some (fst r, false) else yajl_deliver evs' (fst r)
  end.

(** [yajl_parse]: the events of the feed phase go through the callbacks; a
    callback that cancels turns the status into [yajl_status_client_canceled]. *)
Definition yajl_parse (run : yajl_run) (state : ParserState)
  : option (ParserState * yajl_status) :=
  r <- yajl_deliver (feed_events run) state ;;
  Some (fst r, if snd r then scan_status (feed_ok run) else yajl_status_client_canceled).

(** [yajl_complete_parse]: after a feed that failed the handle is in its
    error state and reports it without calling back. *)
Definition yajl_complete_parse (run : yajl_run) (fed : yajl_status)
  (state : ParserState) : option (ParserState * yajl_status) :=
  if yajl_status_is_ok fed then
    r <- yajl_deliver (finish_events run) state ;;
    Some (fst r, if snd r then scan_status (finish_ok run)
                 else yajl_status_client_canceled)
  else Some (state, yajl_status_error).

Definition client_canceled_text : string :=
  "parse error: client cancelled parse via callback return value".

Definition yajl_get_error (run : yajl_run) (fed done : yajl_status) : string :=
  match fed, done with
  | yajl_status_client_canceled, _ | _, yajl_status_client_canceled =>
      client_canceled_text
  | _, _ => error_text run
  end.

(** [error_message_to_spn_context] *)
Definition error_message_to_spn_context (errmsg : string) (ctx : SpnContext)
  : SpnContext :=
  spn_ctx_runtime_error ctx ("error parsing JSON: " ++ errmsg).

Definition parser_set_bool_option (parser : yajl_handle) (opt : yajl_option)
  (config : list (SpnValue * SpnValue)) (name : string) : yajl_handle :=
  match spn_hashmap_get_strkey config name with
  | SpnBool b => yajl_config parser opt b
  | _ => parser
  end.

Definition state_set_bool_option (opt : bool)
  (config : list (SpnValue * SpnValue)) (name : string) : bool :=
  match spn_hashmap_get_strkey config name with
  | SpnBool b => b
  | _ => opt
  end.

Definition config_parser (parser : yajl_handle) (state : ParserState)
  (config_obj : SpnValue) : option (yajl_handle * ParserState) :=
  match config_obj with
  | SpnHashMap config =>
      (* Allow C-style comments in JSON *)
      let parser := parser_set_bool_option parser yajl_allow_comments config "comment" in
      (* parse 'null' to the special yajl.null value instead of nil *)
      let en := state_set_bool_option (explicit_null state) config "parse_null" in
      Some (parser, {| root := root state; stack := stack state; explicit_null := en |})
  | _ => None                               (* assert(spn_ishashmap(&config_obj)) *)
  end.

(** What a native function of the module leaves behind: the [int] it
    returns, the value written through [ret] (if any), the error context, and
    the values it released on its way out. *)
Record Outcome : Type := mkOutcome {
  rv : Z;
  ret : option SpnValue;
  ctx_after : SpnContext;
  released : list SpnValue
}.

Definition json_parse (argv : list SpnValue) (ctx : SpnContext) : option Outcome :=
  let argc := Z.of_nat (List.length argv) in
  if (argc <? 1) || (argc >? 2) then
    Some (mkOutcome (-1) None
            (spn_ctx_runtime_error ctx "expecting 1 or 2 arguments") [])
  else if negb (spn_isstring (nth 0 argv spn_nilval)) then
    Some (mkOutcome (-2) None
            (spn_ctx_runtime_error ctx "1st argument must be a string") [])
  else if (argc >=? 2) && negb (spn_ishashmap (nth 1 argv spn_nilval)) then
    Some (mkOutcome (-3) None
            (spn_ctx_runtime_error ctx "2nd argument must be a config object") [])
  else
    let str := spn_stringvalue (nth 0 argv spn_nilval) in
    let state := state_init in
    let yajl_hndl := yajl_alloc in
    cfg <- (if argc >=? 2 then config_parser yajl_hndl state (nth 1 argv spn_nilval)
            else Some (yajl_hndl, state)) ;;
    let run := yajl_scan (fst cfg) str in
    fed <- yajl_parse run (snd cfg) ;;
    let rv1 := if yajl_status_is_ok (snd fed) then 0 else -4 in
    done <- yajl_complete_parse run (snd fed) (fst fed) ;;
    let rv2 := if (rv1 =? 0) && negb (yajl_status_is_ok (snd done)) then -5 else rv1 in
    let state := fst done in
    if rv2 =? 0 then
      Some (mkOutcome rv2 (Some (root state)) ctx (state_free state))
    else
      Some (mkOutcome rv2 None
              (error_message_to_spn_context
                 (yajl_get_error run (snd fed) (snd done)) ctx)
              (root state :: state_free state)).

(* ===================================================================== *)
(** ** JSON generator (serializer) *)
(* ===================================================================== *)

(** The writer after the walk, the error context, and the [int] returned. *)
Definition GenResult : Type := (yajl_gen * SpnContext * Z)%type.

(** The macro [RETURN_IF_FAIL(call)]: [call_text] is the stringified call
    ([#call]) that ends up in the error message. *)
Definition RETURN_IF_FAIL (call_text : string)
  (call : yajl_gen_status * yajl_gen) (ctx : SpnContext)
  (rest : yajl_gen -> GenResult) : GenResult :=
  if yajl_gen_status_is_ok (fst call) then rest (snd call)
  else (snd call, spn_ctx_runtime_error ctx ("YAJL error: " ++ call_text), -1).

Fixpoint generate_recursive (gen : yajl_gen) (node : SpnValue) (ctx : SpnContext)
  {struct node} : GenResult :=
  match node with
  | SpnNil =>                               (* SPN_TTAG_NIL *)
      RETURN_IF_FAIL "yajl_gen_null(gen)" (yajl_gen_null gen) ctx
        (fun gen => (gen, ctx, 0))
  | SpnBool b =>                            (* SPN_TTAG_BOOL *)
      RETURN_IF_FAIL "yajl_gen_bool(gen, spn_boolvalue(&node))"
        (yajl_gen_bool gen b) ctx (fun gen => (gen, ctx, 0))
  | SpnInt i =>                             (* SPN_TTAG_NUMBER, spn_isint *)
      RETURN_IF_FAIL "yajl_gen_integer(gen, spn_intvalue(&node))"
        (yajl_gen_integer gen i) ctx (fun gen => (gen, ctx, 0))
  | SpnFloat f =>                           (* SPN_TTAG_NUMBER, otherwise *)
      RETURN_IF_FAIL "yajl_gen_double(gen, spn_floatvalue(&node))"
        (yajl_gen_double gen f) ctx (fun gen => (gen, ctx, 0))
  | SpnString str =>                        (* SPN_TTAG_STRING *)
      RETURN_IF_FAIL "yajl_gen_string(gen, str, length)"
        (yajl_gen_string gen str) ctx (fun gen => (gen, ctx, 0))
  | SpnArray array =>                       (* SPN_TTAG_ARRAY *)
      RETURN_IF_FAIL "yajl_gen_array_open(gen)" (yajl_gen_array_open gen) ctx
        (fun gen =>
           let '(gen, ctx, error) :=
             (fix for_elems (elems : list SpnValue) (gen : yajl_gen)
                  (ctx : SpnContext) {struct elems} : GenResult :=
                match elems with
                | [] => (gen, ctx, 0)
                | elem :: elems' =>
                    let '(gen, ctx, error) := generate_recursive gen elem ctx in
                    if error =? 0 then for_elems elems' gen ctx
                    else (gen, ctx, -1)
                end) array gen ctx in
           if error =? 0 then
             RETURN_IF_FAIL "yajl_gen_array_close(gen)"
               (yajl_gen_array_close gen) ctx (fun gen => (gen, ctx, 0))
           else (gen, ctx, -1))
  | SpnHashMap hm =>                        (* SPN_TTAG_HASHMAP *)
      RETURN_IF_FAIL "yajl_gen_map_open(gen)" (yajl_gen_map_open gen) ctx
        (fun gen =>
           let '(gen, ctx, error) :=
             (fix while_next (pairs : list (SpnValue * SpnValue)) (gen : yajl_gen)
                  (ctx : SpnContext) {struct pairs} : GenResult :=
                match pairs with
                | [] => (gen, ctx, 0)
                | (k, val) :: pairs' =>
                    let '(gen, ctx, error) := generate_recursive gen k ctx in
                    if error =? 0 then
                      let '(gen, ctx, error) := generate_recursive gen val ctx in
                      if error =? 0 then while_next pairs' gen ctx
                      else (gen, ctx, -1)
                    else (gen, ctx, -1)
                end) hm gen ctx in
           if error =? 0 then
             RETURN_IF_FAIL "yajl_gen_map_close(gen)"
               (yajl_gen_map_close gen) ctx (fun gen => (gen, ctx, 0))
           else (gen, ctx, -1))
  | SpnWeakUserInfo _ | SpnStrongUserInfo _ =>   (* SPN_TTAG_USERINFO *)
      if spn_value_equal node null_value then
        RETURN_IF_FAIL "yajl_gen_null(gen)" (yajl_gen_null gen) ctx
          (fun gen => (gen, ctx, 0))
      else
        (gen, spn_ctx_runtime_error ctx "found non-serializable value", -1)
  | SpnFunc _ =>                            (* default *)
      (gen, spn_ctx_runtime_error ctx "found value of unknown type", -1)
  end.

(** [str->cstr] read as a C string: the bytes before the first NUL. *)
Fixpoint cstr (s : string) : string :=
  match s with
  | EmptyString => EmptyString
  | String c s' =>
      if Ascii.eqb c Ascii.zero then EmptyString else String c (cstr s')
  end.

Definition gen_set_bool_option (gen : yajl_gen) (opt : yajl_gen_option)
  (config : list (SpnValue * SpnValue)) (name : string) : yajl_gen :=
  match spn_hashmap_get_strkey config name with
  | SpnBool b => yajl_gen_config gen opt (OptBool b)
  | _ => gen
  end.

Definition gen_set_string_option (gen : yajl_gen) (opt : yajl_gen_option)
  (config : list (SpnValue * SpnValue)) (name : string) : yajl_gen :=
  match spn_hashmap_get_strkey config name with
  | SpnString str => yajl_gen_config gen opt (OptString (cstr str))
  | _ => gen
  end.

Definition config_gen (gen : yajl_gen) (config_obj : SpnValue) : option yajl_gen :=
  match config_obj with
  | SpnHashMap config =>
      (* Generate indented ('beautified') output *)
      let gen := gen_set_bool_option gen yajl_gen_beautify config "beautify" in
      (* When beautifying, use this string to indent. *)
      let gen := gen_set_string_option gen yajl_gen_indent_string config "indent" in
      (* Escape slash ('/') [for use with HTML] *)
      Some (gen_set_bool_option gen yajl_gen_escape_solidus config "escape_slash")
  | _ => None                               (* assert(spn_ishashmap(&config_obj)) *)
  end.

Definition json_generate (argv : list SpnValue) (ctx : SpnContext) : option Outcome :=
  let argc := Z.of_nat (List.length argv) in
  if (argc <? 1) || (argc >? 2) then
    Some (mkOutcome (-1) None
            (spn_ctx_runtime_error ctx "expecting 1 or 2 arguments") [])
  else if (argc >=? 2) && negb (spn_ishashmap (nth 1 argv spn_nilval)) then
    Some (mkOutcome (-2) None
            (spn_ctx_runtime_error ctx "2nd argument must be a config object") [])
  else
    gen <- (if argc >=? 2 then config_gen yajl_gen_alloc (nth 1 argv spn_nilval)
            else Some yajl_gen_alloc) ;;
    let '(gen, ctx, error) := generate_recursive gen (nth 0 argv spn_nilval) ctx in
    if error =? 0 then
      let buf := yajl_gen_get_buf gen in
      if yajl_gen_status_is_ok (fst buf) then
        Some (mkOutcome error (Some (spn_makestring_len (snd buf))) ctx [])
      else
        Some (mkOutcome (-3) None
                (spn_ctx_runtime_error ctx "error generating JSON string") [])
    else
      Some (mkOutcome error None ctx []).

End Bindings.

(* ===================================================================== *)
(** ** The order of YAJL's events *)
(* ===================================================================== *)

(** Where an open container stands: inside an array, inside a map that
    expects a key next, or inside a map whose key has been read and whose
    value is still to come. *)
Inductive Slot : Type :=
| InArray
| MapNeedKey
| MapNeedVal.

(** The open containers, innermost first, and whether the top-level value is
    complete. *)
Definition Grammar : Type := (list Slot * bool)%type.

Definition grammar_start : Grammar := ([], false).

(** A value has just been completed inside [open]. *)
Definition value_done (open : list Slot) : option Grammar :=
  match open with
  | [] => Some ([], true)
  | InArray :: below => Some (InArray :: below, false)
  | MapNeedVal :: below => Some (MapNeedKey :: below, false)
  | MapNeedKey :: _ => None
  end.

(** Modelled from the spec: the Lexer's guarantee that its events are
    "ordered and well-nested by construction".  [lexer_step] accepts exactly
    the events that may come next: a value where a value is expected, a key
    only in a map that expects one, an end event only for the innermost open
    container (a map only between pairs), and nothing after the top-level
    value. *)
Definition lexer_step (g : Grammar) (e : Event) : option Grammar :=
  let (open, complete) := g in
  if complete then None else
  match e with
  | EvNull | EvBoolean _ | EvInteger _ | EvDouble _ | EvString _ =>
      value_done open
  | EvStartArray =>
      match open with
      | MapNeedKey :: _ => None
      | _ => Some (InArray :: open, false)
      end
  | EvStartMap =>
      match open with
      | MapNeedKey :: _ => None
      | _ => Some (MapNeedKey :: open, false)
      end
  | EvMapKey _ =>
      match open with
      | MapNeedKey :: below => Some (MapNeedVal :: below, false)
      | _ => None
      end
  | EvEndArray =>
      match open with
      | InArray :: below => value_done below
      | _ => None
      end
  | EvEndMap =>
      match open with
      | MapNeedKey :: below => value_done below
      | _ => None
      end
  end.

Fixpoint lexer_run (g : Grammar) (evs : list Event) : option Grammar :=
  match evs with
  | [] => Some g
  | e :: evs' => g' <- lexer_step g e ;; lexer_run g' evs'
  end.

(** The slot a stack node is in, read off the node alone: its container and
    whether its pending key is nil or a string. *)
Definition slot_of_node (node : StackNode) : option Slot :=
  match value node, key node with
  | SpnArray _, SpnNil => Some InArray
  | SpnHashMap _, SpnNil => Some MapNeedKey
  | SpnHashMap _, SpnString _ => Some MapNeedVal
  | _, _ => None
  end.

(** The stack is in step with the grammar: node by node, the slots read off
    the stack are the open containers of the grammar. *)
Definition slots_match (g : Grammar) (state : ParserState) : Prop :=
  List.map slot_of_node (stack state) = List.map Some (fst g).

Definition is_start_event (e : Event) : bool :=
  match e with EvStartArray | EvStartMap => true | _ => false end.
Definition is_end_event (e : Event) : bool :=
  match e with EvEndArray | EvEndMap => true | _ => false end.
Definition is_key_event (e : Event) : bool :=
  match e with EvMapKey _ => true | _ => false end.

(** The pending key of the innermost frame ([None] on an empty stack). *)
Definition top_key (state : ParserState) : option SpnValue :=
  match stack state with
  | [] => None
  | top :: _ => Some (key top)
  end.

Definition with_explicit_null (state : ParserState) (en : bool) : ParserState :=
  {| root := root state; stack := stack state; explicit_null := en |}.

(* ===================================================================== *)
(** ** The calls of the emitter *)
(* ===================================================================== *)

(** A writer that accepts every call and keeps the calls it was given, in
    order.  It has no buffer to hand over, and its scanner reads nothing. *)
Definition recorder : Yajl := {|
  yajl_scan := fun _ _ => mkRun [] false [] false "no scanner";
  yajl_gen := list GenCall;
  yajl_gen_alloc := [];
  yajl_gen_config := fun gen _ _ => gen;
  yajl_gen_emit := fun gen c => (yajl_gen_status_ok, (gen ++ [c])%list);
  yajl_gen_get_buf := fun _ => (yajl_gen_no_buf, EmptyString)
|}.

(** The calls [generate_recursive] makes for a value when every call is
    accepted: what the recorder has kept at the end of the walk. *)
Definition emitted_calls (node : SpnValue) : list GenCall :=
  fst (fst (generate_recursive (Y:=recorder) [] node [])).

(* ===================================================================== *)
(** ** The walk of the emitter, step by step *)
(* ===================================================================== *)

(** One step of [generate_recursive]: a call into the writer (with the text
    [RETURN_IF_FAIL] would report for it), or the refusal of a value. *)
Inductive Step : Type :=
| Emit (call_text : string) (c : GenCall)
| Refuse (msg : string).

(** The steps of the full depth-first walk of a value, in order. *)
Fixpoint walk (node : SpnValue) : list Step :=
  match node with
  | SpnNil => [Emit "yajl_gen_null(gen)" GenNull]
  | SpnBool b => [Emit "yajl_gen_bool(gen, spn_boolvalue(&node))" (GenBool b)]
  | SpnInt i => [Emit "yajl_gen_integer(gen, spn_intvalue(&node))" (GenInteger i)]
  | SpnFloat f => [Emit "yajl_gen_double(gen, spn_floatvalue(&node))" (GenDouble f)]
  | SpnString s => [Emit "yajl_gen_string(gen, str, length)" (GenString s)]
  | SpnArray array =>
      (Emit "yajl_gen_array_open(gen)" GenArrayOpen
        :: flat_map walk array
        ++ [Emit "yajl_gen_array_close(gen)" GenArrayClose])%list
  | SpnHashMap hm =>
      (Emit "yajl_gen_map_open(gen)" GenMapOpen
        :: flat_map (fun kv => let '(k, val) := kv in walk k ++ walk val) hm
        ++ [Emit "yajl_gen_map_close(gen)" GenMapClose])%list
  | SpnWeakUserInfo _ | SpnStrongUserInfo _ =>
      if spn_value_equal node null_value
      then [Emit "yajl_gen_null(gen)" GenNull]
      else [Refuse "found non-serializable value"]
  | SpnFunc _ => [Refuse "found value of unknown type"]
  end.

Definition walk_pairs (pairs : list (SpnValue * SpnValue)) : list Step :=
  flat_map (fun kv => let '(k, val) := kv in walk k ++ walk val)%list pairs.

(** The writer calls among some steps. *)
Fixpoint calls_of (steps : list Step) : list GenCall :=
  match steps with
  | [] => []
  | Emit _ c :: rest => c :: calls_of rest
  | Refuse _ :: rest => calls_of rest
  end.

Section Steps.

Context {Y : Yajl}.

(** Taking steps one after the other, stopping at the first that fails: a
    call the writer does not answer with [yajl_gen_status_ok], or a refusal. *)
Fixpoint run_steps (steps : list Step) (gen : yajl_gen) (ctx : SpnContext)
  : GenResult :=
  match steps with
  | [] => (gen, ctx, 0)
  | Emit call_text c :: rest =>
      let r := yajl_gen_emit gen c in
      if yajl_gen_status_is_ok (fst r) then run_steps rest (snd r) ctx
      else (snd r, spn_ctx_runtime_error ctx ("YAJL error: " ++ call_text), -1)
  | Refuse msg :: _ => (gen, spn_ctx_runtime_error ctx msg, -1)
  end.

(** The writer after one step, and whether the step failed there. *)
Definition step_fails (s : Step) (gen : yajl_gen) : bool :=
  match s with
  | Emit _ c => negb (yajl_gen_status_is_ok (fst (yajl_gen_emit gen c)))
  | Refuse _ => true
  end.

Definition step_writer (s : Step) (gen : yajl_gen) : yajl_gen :=
  match s with
  | Emit _ c => snd (yajl_gen_emit gen c)
  | Refuse _ => gen
  end.

Definition step_message (s : Step) : string :=
  match s with
  | Emit call_text _ => "YAJL error: " ++ call_text
  | Refuse msg => msg
  end.

End Steps.

(* ===================================================================== *)
(** ** Reading back what was written *)
(* ===================================================================== *)

Definition after_value (open : list Slot) : list Slot :=
  match open with
  | MapNeedVal :: below => MapNeedKey :: below
  | _ => open
  end.

(** The events YAJL's parser reports for the text its writer produced from a
    sequence of calls: one event per call, a string written where a map
    expects a key coming back as a map key. *)
Fixpoint read_back (open : list Slot) (calls : list GenCall) : list Event :=
  match calls with
  | [] => []
  | GenNull :: rest => EvNull :: read_back (after_value open) rest
  | GenBool b :: rest => EvBoolean b :: read_back (after_value open) rest
  | GenInteger i :: rest => EvInteger i :: read_back (after_value open) rest
  | GenDouble d :: rest => EvDouble d :: read_back (after_value open) rest
  | GenString s :: rest =>
      match open with
      | MapNeedKey :: below => EvMapKey s :: read_back (MapNeedVal :: below) rest
      | _ => EvString s :: read_back (after_value open) rest
      end
  | GenArrayOpen :: rest => EvStartArray :: read_back (InArray :: open) rest
  | GenMapOpen :: rest => EvStartMap :: read_back (MapNeedKey :: open) rest
  | GenArrayClose :: rest => EvEndArray :: read_back (after_value (tl open)) rest
  | GenMapClose :: rest => EvEndMap :: read_back (after_value (tl open)) rest
  end.

(** The events of the JSON text of a serializable value, read off the value
    itself. *)
Fixpoint value_events (v : SpnValue) : list Event :=
  match v with
  | SpnNil => [EvNull]
  | SpnBool b => [EvBoolean b]
  | SpnInt i => [EvInteger i]
  | SpnFloat f => [EvDouble f]
  | SpnString s => [EvString s]
  | SpnArray elems =>
      (EvStartArray :: flat_map value_events elems ++ [EvEndArray])%list
  | SpnHashMap pairs =>
      (EvStartMap
        :: flat_map (fun kv => let '(k, val) := kv in
                               EvMapKey (spn_stringvalue k) :: value_events val) pairs
        ++ [EvEndMap])%list
  | SpnWeakUserInfo _ | SpnStrongUserInfo _ =>
      if spn_value_equal v null_value then [EvNull] else []
  | SpnFunc _ => []
  end.

(** A value with its nulls as the [parse_null] option makes them: with
    [parse_null] on every nil becomes [null_value], with [parse_null] off
    every [null_value] becomes nil. *)
Fixpoint null_collapse (parse_null : bool) (v : SpnValue) : SpnValue :=
  match v with
  | SpnNil => if parse_null then null_value else spn_nilval
  | SpnWeakUserInfo _ | SpnStrongUserInfo _ =>
      if spn_value_equal v null_value
      then (if parse_null then null_value else spn_nilval)
      else v
  | SpnArray elems => SpnArray (List.map (null_collapse parse_null) elems)
  | SpnHashMap pairs =>
      SpnHashMap
        (List.map (fun kv => let '(k, val) := kv in (k, null_collapse parse_null val))
                  pairs)
  | _ => v
  end.

(** The values [null_collapse] leaves alone: those without a nil (with
    [parse_null] on), or without a [null_value] (with [parse_null] off). *)
Fixpoint keeps_nulls (parse_null : bool) (v : SpnValue) : bool :=
  match v with
  | SpnNil => negb parse_null
  | SpnWeakUserInfo _ | SpnStrongUserInfo _ =>
      if spn_value_equal v null_value then parse_null else true
  | SpnArray elems => forallb (keeps_nulls parse_null) elems
  | SpnHashMap pairs =>
      forallb (fun kv => let '(k, val) := kv in keeps_nulls parse_null val) pairs
  | _ => true
  end.

(** The value [json_parse] builds from the JSON text of a value: the nulls
    are the ones the parser makes ([null_value] with [parse_null] on, nil
    with [parse_null] off), and a map has no pair for a key whose value is
    nil, the builder's write of a nil taking the key out. *)
Fixpoint reparsed (parse_null : bool) (v : SpnValue) : SpnValue :=
  match v with
  | SpnNil => if parse_null then null_value else spn_nilval
  | SpnWeakUserInfo _ | SpnStrongUserInfo _ =>
      if spn_value_equal v null_value
      then (if parse_null then null_value else spn_nilval)
      else v
  | SpnArray elems => SpnArray (List.map (reparsed parse_null) elems)
  | SpnHashMap pairs =>
      SpnHashMap
        (filter (fun kv => negb (spn_isnil (snd kv)))
           (List.map (fun kv => let '(k, val) := kv in (k, reparsed parse_null val))
                     pairs))
  | _ => v
  end.

(** The values that come back as they are: those without a nil (with
    [parse_null] on), or without a [null_value] and without a nil under a
    key of a map (with [parse_null] off). *)
Fixpoint survives (parse_null : bool) (v : SpnValue) : bool :=
  match v with
  | SpnNil => negb parse_null
  | SpnWeakUserInfo _ | SpnStrongUserInfo _ =>
      if spn_value_equal v null_value then parse_null else true
  | SpnArray elems => forallb (survives parse_null) elems
  | SpnHashMap pairs =>
      forallb (fun kv => let '(k, val) := kv in
                         negb (spn_isnil val) && survives parse_null val) pairs
  | _ => true
  end.

(** No key of [keys] equals a later one. *)
Fixpoint distinct_keys (keys : list SpnValue) : bool :=
  match keys with
  | [] => true
  | k :: rest => negb (existsb (fun k' => spn_value_equal k' k) rest) && distinct_keys rest
  end.

(** The values the emitter can serialize and the parser can build: the
    serializable variants, with every map keyed by distinct strings. *)
Fixpoint serializable (v : SpnValue) : bool :=
  match v with
  | SpnNil | SpnBool _ | SpnInt _ | SpnFloat _ | SpnString _ => true
  | SpnArray elems => forallb serializable elems
  | SpnHashMap pairs =>
      forallb (fun kv => let '(k, val) := kv in spn_isstring k && serializable val) pairs
      && distinct_keys (List.map fst pairs)
  | SpnWeakUserInfo _ | SpnStrongUserInfo _ => spn_value_equal v null_value
  | SpnFunc _ => false
  end.

(** A scanner run that reports [evs] and no error. *)
Definition clean_run (run : yajl_run) (evs : list Event) : Prop :=
  (feed_events run ++ finish_events run)%list = evs
  /\ feed_ok run = true
  /\ finish_ok run = true.

(* ===================================================================== *)
(** ** A small YAJL *)
(* ===================================================================== *)

(** An instance of [Yajl] on which the bindings can be run: a scanner and a
    compact writer for the fragment of JSON made of [null], [true], [false],
    integers, strings whose only escapes are those of the quote and of the
    backslash, arrays and maps.  Fractions, exponents, other escapes, comments
    and beautified output are outside the fragment (the scanner reports a
    lexical error, the writer refuses the call). *)
Module MiniYajl.

Inductive Tok : Type :=
| TLBracket | TRBracket | TLBrace | TRBrace | TComma | TColon
| TNull
| TBool (b : bool)
| TInt (z : Z)
| TStr (s : string).

Definition quote : ascii := "034"%char.
Definition backslash : ascii := "092"%char.

Definition is_space (c : ascii) : bool :=
  Ascii.eqb c " " || Ascii.eqb c "009" || Ascii.eqb c "010" || Ascii.eqb c "013".

Definition digit_of (c : ascii) : option Z :=
  let n := Z.of_nat (nat_of_ascii c) in
  if (48 <=? n) && (n <=? 57) then Some (n - 48) else None.

Fixpoint lex_digits (s : string) (acc : Z) : Z * string :=
  match s with
  | EmptyString => (acc, s)
  | String c s' =>
      match digit_of c with
      | Some d => lex_digits s' (10 * acc + d)
      | None => (acc, s)
      end
  end.

(** After the opening quote: the content and what follows the closing
    quote. *)
Fixpoint lex_string_body (s : string) : option (string * string) :=
  match s with
  | EmptyString => None
  | String c s' =>
      if Ascii.eqb c quote then Some (EmptyString, s')
      else if Ascii.eqb c backslash then
        match s' with
        | String e s'' =>
            if Ascii.eqb e quote || Ascii.eqb e backslash then
              match lex_string_body s'' with
              | Some (body, rest) => Some (String e body, rest)
              | None => None
              end
            else None
        | EmptyString => None
        end
      else if (Z.of_nat (nat_of_ascii c) <? 32) then None
      else
        match lex_string_body s' with
        | Some (body, rest) => Some (String c body, rest)
        | None => None
        end
  end.

Fixpoint skip (n : nat) (s : string) : string :=
  match n, s with
  | S n', String _ s' => skip n' s'
  | _, _ => s
  end.

(** The tokens read so far, the number the input ends in (it is complete only
    once the scanner is told the input is over), and whether the scan stopped
    at a character it cannot read. *)
Record Scanned : Type := mkScanned {
  toks : list Tok;
  pending : option Tok;
  bad : bool
}.

Definition scanned_stop (is_bad : bool) : Scanned := mkScanned [] None is_bad.

Definition scanned_push (t : Tok) (sc : Scanned) : Scanned :=
  mkScanned (t :: toks sc) (pending sc) (bad sc).

Fixpoint tokenize (fuel : nat) (s : string) : Scanned :=
  match fuel with
  | O => scanned_stop true
  | S fuel' =>
      match s with
      | EmptyString => scanned_stop false
      | String c s' =>
          if is_space c then tokenize fuel' s'
          else if Ascii.eqb c "[" then scanned_push TLBracket (tokenize fuel' s')
          else if Ascii.eqb c "]" then scanned_push TRBracket (tokenize fuel' s')
          else if Ascii.eqb c "{" then scanned_push TLBrace (tokenize fuel' s')
          else if Ascii.eqb c "}" then scanned_push TRBrace (tokenize fuel' s')
          else if Ascii.eqb c "," then scanned_push TComma (tokenize fuel' s')
          else if Ascii.eqb c ":" then scanned_push TColon (tokenize fuel' s')
          else if Ascii.eqb c "n" then
            if String.prefix "ull" s'
            then scanned_push TNull (tokenize fuel' (skip 3 s'))
            else scanned_stop true
          else if Ascii.eqb c "t" then
            if String.prefix "rue" s'
            then scanned_push (TBool true) (tokenize fuel' (skip 3 s'))
            else scanned_stop true
          else if Ascii.eqb c "f" then
            if String.prefix "alse" s'
            then scanned_push (TBool false) (tokenize fuel' (skip 4 s'))
            else scanned_stop true
          else if Ascii.eqb c quote then
            match lex_string_body s' with
            | Some (body, rest) => scanned_push (TStr body) (tokenize fuel' rest)
            | None => scanned_stop true
            end
          else
            let negative := Ascii.eqb c "-" in
            let digits := if negative then s' else s in
            match digits with
            | EmptyString => scanned_stop true
            | String d _ =>
                match digit_of d with
                | None => scanned_stop true
                | Some _ =>
                    let (n, rest) := lex_digits digits 0 in
                    let z := if negative then - n else n in
                    match rest with
                    | EmptyString => mkScanned [] (Some (TInt z)) false
                    | String r _ =>
                        if Ascii.eqb r "." || Ascii.eqb r "e" || Ascii.eqb r "E"
                        then scanned_stop true
                        else scanned_push (TInt z) (tokenize fuel' rest)
                    end
                end
            end
      end
  end.

(** The states of YAJL's parser. *)
Inductive PState : Type :=
| PStart | PComplete
| PArrayStart | PArrayGotVal | PArrayNeedVal
| PMapStart | PMapSep | PMapNeedVal | PMapGotVal | PMapNeedKey.

Definition got_value (st : PState) : option PState :=
  match st with
  | PStart => Some PComplete
  | PArrayStart | PArrayNeedVal => Some PArrayGotVal
  | PMapNeedVal => Some PMapGotVal
  | _ => None
  end.

Definition unallowed : string := "parse error: unallowed token at this point in JSON text".

Definition scalar (ev : Event) (top : PState) (below : list PState)
  : (list Event * list PState) + string :=
  match got_value top with
  | Some top' => inl ([ev], top' :: below)
  | None => inr unallowed
  end.

Definition parse_tok (stk : list PState) (t : Tok)
  : (list Event * list PState) + string :=
  match stk with
  | [] => inr unallowed
  | PComplete :: _ => inr "parse error: trailing garbage"
  | top :: below =>
      match t with
      | TNull => scalar EvNull top below
      | TBool b => scalar (EvBoolean b) top below
      | TInt z => scalar (EvInteger z) top below
      | TStr s =>
          match top with
          | PMapStart | PMapNeedKey => inl ([EvMapKey s], PMapSep :: below)
          | _ => scalar (EvString s) top below
          end
      | TLBracket =>
          match got_value top with
          | Some top' => inl ([EvStartArray], PArrayStart :: top' :: below)
          | None => inr unallowed
          end
      | TLBrace =>
          match got_value top with
          | Some top' => inl ([EvStartMap], PMapStart :: top' :: below)
          | None => inr "parse error: invalid object key (must be a string)"
          end
      | TRBracket =>
          match top with
          | PArrayStart | PArrayGotVal => inl ([EvEndArray], below)
          | _ => inr unallowed
          end
      | TRBrace =>
          match top with
          | PMapStart | PMapGotVal => inl ([EvEndMap], below)
          | _ => inr "parse error: invalid object key (must be a string)"
          end
      | TComma =>
          match top with
          | PArrayGotVal => inl ([], PArrayNeedVal :: below)
          | PMapGotVal => inl ([], PMapNeedKey :: below)
          | _ => inr unallowed
          end
      | TColon =>
          match top with
          | PMapSep => inl ([], PMapNeedVal :: below)
          | _ => inr "parse error: object key and value must be separated by a colon (':')"
          end
      end
  end.

Fixpoint parse_toks (stk : list PState) (ts : list Tok)
  : list Event * (list PState + string) :=
  match ts with
  | [] => ([], inl stk)
  | t :: ts' =>
      match parse_tok stk t with
      | inr msg => ([], inr msg)
      | inl (evs, stk') =>
          let (evs', r) := parse_toks stk' ts' in ((evs ++ evs')%list, r)
      end
  end.

Definition scan (hndl : yajl_handle) (text : string) : yajl_run :=
  let sc := tokenize (S (String.length text)) text in
  let (evs1, r1) := parse_toks [PStart] (toks sc) in
  match r1 with
  | inr msg => mkRun evs1 false [] false msg
  | inl stk =>
      if bad sc then
        mkRun evs1 false [] false "lexical error: invalid char in json text."
      else
        let (evs2, r2) :=
          parse_toks stk (match pending sc with Some t => [t] | None => [] end) in
        match r2 with
        | inr msg => mkRun evs1 true evs2 false msg
        | inl [PComplete] => mkRun evs1 true evs2 true ""
        | inl _ => mkRun evs1 true evs2 false "parse error: premature EOF"
        end
  end.

(** The states of YAJL's writer. *)
Inductive GState : Type :=
| GStart | GMapStart | GMapKey | GMapVal | GArrayStart | GInArray
| GComplete | GError.

Record Gen : Type := mkGen {
  out : string;
  states : list GState;
  options : list (yajl_gen_option * yajl_gen_optval)
}.

Definition gen_alloc : Gen := mkGen "" [GStart] [].

Definition gen_config (g : Gen) (opt : yajl_gen_option) (v : yajl_gen_optval) : Gen :=
  mkGen (out g) (states g) ((opt, v) :: options g).

Definition appended_atom (st : GState) : GState :=
  match st with
  | GStart => GComplete
  | GMapStart | GMapKey => GMapVal
  | GArrayStart => GInArray
  | GMapVal => GMapKey
  | _ => st
  end.

Definition separator (st : GState) : string :=
  match st with
  | GMapKey | GInArray => ","
  | GMapVal => ":"
  | _ => ""
  end.

Definition at_key (st : GState) : bool :=
  match st with GMapKey | GMapStart => true | _ => false end.

Fixpoint escape (s : string) : option string :=
  match s with
  | EmptyString => Some EmptyString
  | String c s' =>
      match escape s' with
      | None => None
      | Some e =>
          if Ascii.eqb c quote || Ascii.eqb c backslash
          then Some (String backslash (String c e))
          else if (Z.of_nat (nat_of_ascii c) <? 32) then None
          else Some (String c e)
      end
  end.

Definition YAJL_MAX_DEPTH : Z := 128.

Definition print_atom (g : Gen) (top : GState) (below : list GState) (text : string)
  : yajl_gen_status * Gen :=
  (yajl_gen_status_ok,
   mkGen (out g ++ separator top ++ text) (appended_atom top :: below) (options g)).

Definition open_container (g : Gen) (top : GState) (below : list GState)
  (text : string) (inner : GState) : yajl_gen_status * Gen :=
  if at_key top then (yajl_gen_keys_must_be_strings, g)
  else if Z.of_nat (List.length (top :: below)) >=? YAJL_MAX_DEPTH
  then (yajl_max_depth_exceeded, g)
  else (yajl_gen_status_ok,
        mkGen (out g ++ separator top ++ text) (inner :: top :: below) (options g)).

Definition close_container (g : Gen) (below : list GState) (text : string)
  : yajl_gen_status * Gen :=
  match below with
  | [] => (yajl_gen_generation_complete, g)
  | parent :: rest =>
      (yajl_gen_status_ok,
       mkGen (out g ++ text) (appended_atom parent :: rest) (options g))
  end.

Definition gen_emit (g : Gen) (c : GenCall) : yajl_gen_status * Gen :=
  match states g with
  | [] => (yajl_gen_in_error_state, g)
  | GError :: _ => (yajl_gen_in_error_state, g)
  | GComplete :: _ => (yajl_gen_generation_complete, g)
  | top :: below =>
      match c with
      | GenNull =>
          if at_key top then (yajl_gen_keys_must_be_strings, g)
          else print_atom g top below "null"
      | GenBool b =>
          if at_key top then (yajl_gen_keys_must_be_strings, g)
          else print_atom g top below (if b then "true" else "false")
      | GenInteger i =>
          if at_key top then (yajl_gen_keys_must_be_strings, g)
          else print_atom g top below (DecimalString.NilZero.string_of_int (Z.to_int i))
      | GenDouble _ =>
          if at_key top then (yajl_gen_keys_must_be_strings, g)
          else (yajl_gen_invalid_number, g)
      | GenString s =>
          match escape s with
          | Some e =>
              print_atom g top below (String quote e ++ String quote EmptyString)
          | None => (yajl_gen_invalid_string, g)
          end
      | GenArrayOpen => open_container g top below "[" GArrayStart
      | GenMapOpen => open_container g top below "{" GMapStart
      | GenArrayClose => close_container g below "]"
      | GenMapClose => close_container g below "}"
      end
  end.

Definition gen_get_buf (g : Gen) : yajl_gen_status * string :=
  (yajl_gen_status_ok, out g).

Definition mini : Yajl := {|
  yajl_scan := scan;
  yajl_gen := Gen;
  yajl_gen_alloc := gen_alloc;
  yajl_gen_config := gen_config;
  yajl_gen_emit := gen_emit;
  yajl_gen_get_buf := gen_get_buf
|}.

End MiniYajl.

(** Sample inputs. *)
Definition dq : string := String MiniYajl.quote EmptyString.

(** The text [{"a":1,"a":2}]. *)
Definition text_dup_key : string :=
  "{" ++ dq ++ "a" ++ dq ++ ":1," ++ dq ++ "a" ++ dq ++ ":2}".

(** The text [{"a":1,"a":null}]. *)
Definition text_null_overwrite : string :=
  "{" ++ dq ++ "a" ++ dq ++ ":1," ++ dq ++ "a" ++ dq ++ ":null}".

(** The text [{"k":null}]. *)
Definition text_null_key : string :=
  "{" ++ dq ++ "k" ++ dq ++ ":null}".

(** The text [[1,[2,3],{"k":4}]]. *)
Definition text_nested : string :=
  "[1,[2,3],{" ++ dq ++ "k" ++ dq ++ ":4}]".

(** The text [[1,null,{"k":null}]] and a value it is generated from. *)
Definition text_with_nulls : string :=
  "[1,null,{" ++ dq ++ "k" ++ dq ++ ":null}]".

Definition value_with_nulls : SpnValue :=
  SpnArray [SpnInt 1; SpnNil; SpnHashMap [(SpnString "k", null_value)]].

Definition value_nested : SpnValue :=
  SpnArray [SpnInt 1; SpnArray [SpnInt 2; SpnInt 3];
            SpnHashMap [(SpnString "k", SpnInt 4)]].

(* ===================================================================== *)
(** ** Calls of the native functions *)
(* ===================================================================== *)

(** The argument vector of [parse(text)] and of [parse(text, config)]. *)
Definition parse_args (text : string) (config : option (list (SpnValue * SpnValue)))
  : list SpnValue :=
  SpnString text :: match config with Some c => [SpnHashMap c] | None => [] end.

(** The argument vector of [generate(v)] and of [generate(v, config)]. *)
Definition generate_args (v : SpnValue) (config : option (list (SpnValue * SpnValue)))
  : list SpnValue :=
  v :: match config with Some c => [SpnHashMap c] | None => [] end.

(** The handle and the state [json_parse] starts the scan with. *)
Definition configured (config : option (list (SpnValue * SpnValue)))
  : option (yajl_handle * ParserState) :=
  match config with
  | Some c => config_parser yajl_alloc state_init (SpnHashMap c)
  | None => Some (yajl_alloc, state_init)
  end.

(** The events of a run that reach the callbacks: those of the completion
    only after a feed that succeeded. *)
Definition dispatched (run : yajl_run) : list Event :=
  (feed_events run ++ if feed_ok run then finish_events run else [])%list.

(** The outcome of [json_parse] once the scanner's events have been built
    into [state]. *)
Definition parse_outcome (run : yajl_run) (state : ParserState) (ctx : SpnContext)
  : Outcome :=
  if feed_ok run && finish_ok run
  then mkOutcome 0 (Some (root state)) ctx (state_free state)
  else mkOutcome (if feed_ok run then -5 else -4) None
         (spn_ctx_runtime_error ctx ("error parsing JSON: " ++ error_text run))
         (root state :: state_free state).

Section GenerateCalls.

Context {Y : Yajl}.

(** The writer [json_generate] starts the walk with. *)
Definition gen_configured (config : option (list (SpnValue * SpnValue)))
  : option yajl_gen :=
  match config with
  | Some c => config_gen yajl_gen_alloc (SpnHashMap c)
  | None => Some yajl_gen_alloc
  end.

(** The outcome of [json_generate] once the walk is over. *)
Definition generate_outcome (walked : GenResult) : Outcome :=
  let '(gen, ctx, error) := walked in
  if error =? 0 then
    if yajl_gen_status_is_ok (fst (yajl_gen_get_buf gen))
    then mkOutcome 0 (Some (SpnString (snd (yajl_gen_get_buf gen)))) ctx []
    else mkOutcome (-3) None
           (spn_ctx_runtime_error ctx "error generating JSON string") []
  else mkOutcome error None ctx [].

End GenerateCalls.

(* ===================================================================== *)
(** ** What the builder keeps, what the emitter takes *)
(* ===================================================================== *)

(** A stack node as the callbacks leave it: an array or a map made of
    serializable values, with a pending key that is nil or a string. *)
Definition node_wf (node : StackNode) : bool :=
  (spn_isarray (value node) || spn_ishashmap (value node))
  && serializable (value node)
  && (spn_isnil (key node) || spn_isstring (key node)).

Definition state_wf (state : ParserState) : bool :=
  serializable (root state) && forallb node_wf (stack state).

(** Every container under construction holds only the nulls the
    [explicit_null] flag of the state makes. *)
Definition frames_keep_nulls (state : ParserState) : bool :=
  forallb (fun node => keeps_nulls (explicit_null state) (value node))
          (stack state).

(** Key and value pairs as they are written in a JSON object, in the order
    they are written, and the map value with these pairs. *)
Definition string_pairs (pairs : list (string * SpnValue))
  : list (SpnValue * SpnValue) :=
  List.map (fun kv => (SpnString (fst kv), snd kv)) pairs.

(** The map the builder makes of written pairs: one [spn_hashmap_set] per
    pair, in the order of the pairs. *)
Definition build_map (en : bool) (pairs : list (string * SpnValue))
  : list (SpnValue * SpnValue) :=
  fold_left (fun acc kv =>
               spn_hashmap_set acc (SpnString (fst kv)) (reparsed en (snd kv)))
            pairs [].

(** The value written last under a key. *)
Definition last_written (k : string) (pairs : list (string * SpnValue))
  : option SpnValue :=
  option_map snd (find (fun kv => String.eqb (fst kv) k) (rev pairs)).

(** The keys in the order of their first occurrence. *)
Definition first_occurrences (keys : list string) : list string :=
  rev (nodup string_dec (rev keys)).

(** A value that holds, at any depth and also as a map key, a function or a
    user-info other than [null_value]. *)
Fixpoint has_opaque (v : SpnValue) : bool :=
  match v with
  | SpnFunc _ => true
  | SpnWeakUserInfo _ | SpnStrongUserInfo _ => negb (spn_value_equal v null_value)
  | SpnArray elems => existsb has_opaque elems
  | SpnHashMap pairs =>
      existsb (fun kv => let '(k, val) := kv in has_opaque k || has_opaque val) pairs
  | _ => false
  end.

Definition is_refusal (s : Step) : bool :=
  match s with Refuse _ => true | Emit _ _ => false end.

Section WriterRuns.

Context {Y : Yajl}.

(** The writer answers every call of the sequence with
    [yajl_gen_status_ok]. *)
Fixpoint accepts_all (calls : list GenCall) (gen : yajl_gen) : bool :=
  match calls with
  | [] => true
  | c :: rest =>
      yajl_gen_status_is_ok (fst (yajl_gen_emit gen c))
      && accepts_all rest (snd (yajl_gen_emit gen c))
  end.

(** The writer after the calls of the sequence. *)
Fixpoint emit_all (calls : list GenCall) (gen : yajl_gen) : yajl_gen :=
  match calls with
  | [] => gen
  | c :: rest => emit_all rest (snd (yajl_gen_emit gen c))
  end.

End WriterRuns.

(* ===================================================================== *)
(** ** Facts about the value model *)
(* ===================================================================== *)

Unset Implicit Arguments.

(** Induction over values that reaches the elements of arrays and both
    components of the pairs of maps. *)
Lemma SpnValue_ind' (P : SpnValue -> Prop) :
  P SpnNil ->
  (forall b, P (SpnBool b)) ->
  (forall i, P (SpnInt i)) ->
  (forall f, P (SpnFloat f)) ->
  (forall s, P (SpnString s)) ->
  (forall elems, Forall P elems -> P (SpnArray elems)) ->
  (forall pairs, Forall (fun kv => P (fst kv) /\ P (snd kv)) pairs ->
                 P (SpnHashMap pairs)) ->
  (forall name, P (SpnFunc name)) ->
  (forall p, P (SpnWeakUserInfo p)) ->
  (forall p, P (SpnStrongUserInfo p)) ->
  forall v, P v.
Proof.
  intros Hnil Hbool Hint Hfloat Hstr Harr Hmap Hfunc Hweak Hstrong.
  fix self 1.
  intros [ | b | i | f | s | elems | pairs | name | p | p ];
    [ exact Hnil | apply Hbool | apply Hint | apply Hfloat | apply Hstr
    | | | apply Hfunc | apply Hweak | apply Hstrong ].
  - apply Harr.
    induction elems as [ | x xs IH ]; constructor; [ apply self | exact IH ].
  - apply Hmap.
    induction pairs as [ | [k x] ps IH ]; constructor;
      [ split; apply self | exact IH ].
Qed.

Lemma string_key_equal (k : SpnValue) (name : string) :
  spn_value_equal k (SpnString name) = true <-> k = SpnString name.
Proof.
  split.
  - destruct k; simpl; try discriminate.
    intros H. apply String.eqb_eq in H. now subst.
  - intros ->. simpl. apply String.eqb_refl.
Qed.

Lemma set_of_value (hm : list (SpnValue * SpnValue)) (k v : SpnValue) :
  spn_isnil v = false -> spn_hashmap_set hm k v = spn_hashmap_put hm k v.
Proof. unfold spn_hashmap_set. now intros ->. Qed.

Lemma isnil_nil (v : SpnValue) : spn_isnil v = true -> v = SpnNil.
Proof. now destruct v. Qed.

Lemma hashmap_get_put_same (hm : list (SpnValue * SpnValue)) (name : string)
  (v : SpnValue) :
  spn_hashmap_get_strkey (spn_hashmap_put hm (SpnString name) v) name = v.
Proof.
  induction hm as [ | [k x] rest IH ]; simpl.
  - now rewrite String.eqb_refl.
  - destruct (spn_value_equal k (SpnString name)) eqn:E; simpl; rewrite E; auto.
Qed.

Lemma hashmap_get_put (hm : list (SpnValue * SpnValue)) (name other : string)
  (v : SpnValue) :
  spn_hashmap_get_strkey (spn_hashmap_put hm (SpnString name) v) other
  = if String.eqb other name then v else spn_hashmap_get_strkey hm other.
Proof.
  destruct (String.eqb other name) eqn:E.
  - apply String.eqb_eq in E. subst. apply hashmap_get_put_same.
  - induction hm as [ | [k x] rest IH ]; simpl.
    + rewrite String.eqb_sym. now rewrite E.
    + destruct (spn_value_equal k (SpnString name)) eqn:Ek; simpl.
      * apply string_key_equal in Ek. subst k. simpl.
        rewrite String.eqb_sym. now rewrite E.
      * destruct (spn_value_equal k (SpnString other)); auto.
Qed.

(** A removed key reads nil; the other keys read what they read before. *)
Lemma hashmap_get_delete (hm : list (SpnValue * SpnValue)) (name other : string) :
  spn_hashmap_get_strkey (spn_hashmap_delete hm (SpnString name)) other
  = if String.eqb other name then SpnNil else spn_hashmap_get_strkey hm other.
Proof.
  unfold spn_hashmap_delete.
  induction hm as [ | [k x] rest IH ]; cbn [filter spn_hashmap_get_strkey fst].
  - now destruct (String.eqb other name).
  - destruct (spn_value_equal k (SpnString name)) eqn:Ek; cbn [negb].
    + rewrite IH. apply string_key_equal in Ek. subst k.
      cbn [spn_value_equal]. rewrite (String.eqb_sym name other).
      now destruct (String.eqb other name).
    + cbn [spn_hashmap_get_strkey].
      destruct (spn_value_equal k (SpnString other)) eqn:Eo; [ | exact IH ].
      apply string_key_equal in Eo. subst k. cbn [spn_value_equal] in Ek.
      now rewrite Ek.
Qed.

Lemma hashmap_get_set (hm : list (SpnValue * SpnValue)) (name other : string)
  (v : SpnValue) :
  spn_hashmap_get_strkey (spn_hashmap_set hm (SpnString name) v) other
  = if String.eqb other name then v else spn_hashmap_get_strkey hm other.
Proof.
  unfold spn_hashmap_set. destruct (spn_isnil v) eqn:Ev.
  - apply isnil_nil in Ev. subst v. apply hashmap_get_delete.
  - apply hashmap_get_put.
Qed.

Lemma hashmap_get_set_same (hm : list (SpnValue * SpnValue)) (name : string)
  (v : SpnValue) :
  spn_hashmap_get_strkey (spn_hashmap_set hm (SpnString name) v) name = v.
Proof. rewrite hashmap_get_set. now rewrite String.eqb_refl. Qed.

Lemma hashmap_put_keys (hm : list (SpnValue * SpnValue)) (k v : SpnValue) :
  List.map fst (spn_hashmap_put hm k v)
  = if existsb (fun k' => spn_value_equal k' k) (List.map fst hm)
    then List.map fst hm
    else (List.map fst hm ++ [k])%list.
Proof.
  induction hm as [ | [k' x] rest IH ]; simpl; auto.
  destruct (spn_value_equal k' k); simpl; auto.
  rewrite IH. now destruct (existsb _ _).
Qed.

Lemma hashmap_delete_keys (hm : list (SpnValue * SpnValue)) (k : SpnValue) :
  List.map fst (spn_hashmap_delete hm k)
  = filter (fun k' => negb (spn_value_equal k' k)) (List.map fst hm).
Proof.
  unfold spn_hashmap_delete.
  induction hm as [ | [k' x] rest IH ]; cbn [filter List.map fst]; auto.
  destruct (spn_value_equal k' k); cbn [negb List.map fst]; now rewrite IH.
Qed.

(** The keys after a write: a nil takes the key out, any other value leaves
    the keys as they are when the key is there and puts a new key last. *)
Lemma hashmap_set_keys (hm : list (SpnValue * SpnValue)) (k v : SpnValue) :
  List.map fst (spn_hashmap_set hm k v)
  = if spn_isnil v
    then filter (fun k' => negb (spn_value_equal k' k)) (List.map fst hm)
    else if existsb (fun k' => spn_value_equal k' k) (List.map fst hm)
         then List.map fst hm
         else (List.map fst hm ++ [k])%list.
Proof.
  unfold spn_hashmap_set. destruct (spn_isnil v).
  - apply hashmap_delete_keys.
  - apply hashmap_put_keys.
Qed.

Lemma hashmap_put_fresh (hm : list (SpnValue * SpnValue)) (k v : SpnValue) :
  existsb (fun k' => spn_value_equal k' k) (List.map fst hm) = false ->
  spn_hashmap_put hm k v = (hm ++ [(k, v)])%list.
Proof.
  induction hm as [ | [k' x] rest IH ]; simpl; auto.
  intros H. apply orb_false_iff in H as [H1 H2].
  rewrite H1. now rewrite IH.
Qed.

Lemma hashmap_delete_fresh (hm : list (SpnValue * SpnValue)) (k : SpnValue) :
  existsb (fun k' => spn_value_equal k' k) (List.map fst hm) = false ->
  spn_hashmap_delete hm k = hm.
Proof.
  unfold spn_hashmap_delete.
  induction hm as [ | [k' x] rest IH ]; cbn [filter List.map fst existsb]; auto.
  intros H. apply orb_false_iff in H as [H1 H2].
  rewrite H1. cbn [negb]. now rewrite IH.
Qed.

(** A write under a key that is not there: a nil leaves the map as it is,
    any other value goes to the end. *)
Lemma hashmap_set_fresh (hm : list (SpnValue * SpnValue)) (k v : SpnValue) :
  existsb (fun k' => spn_value_equal k' k) (List.map fst hm) = false ->
  spn_hashmap_set hm k v
  = (hm ++ filter (fun kv => negb (spn_isnil (snd kv))) [(k, v)])%list.
Proof.
  intros H. unfold spn_hashmap_set. cbn [filter snd].
  destruct (spn_isnil v); cbn [negb].
  - rewrite app_nil_r. now apply hashmap_delete_fresh.
  - now apply hashmap_put_fresh.
Qed.

Lemma hashmap_put_in (hm : list (SpnValue * SpnValue)) (name : string)
  (v : SpnValue) :
  In (SpnString name, v) (spn_hashmap_put hm (SpnString name) v).
Proof.
  induction hm as [ | [k x] rest IH ]; cbn [spn_hashmap_put].
  - now left.
  - destruct (spn_value_equal k (SpnString name)) eqn:E.
    + apply string_key_equal in E. subst k. now left.
    + now right.
Qed.

Lemma existsb_filter_out (keys : list SpnValue) (k : SpnValue) :
  existsb (fun k' => spn_value_equal k' k)
          (filter (fun k' => negb (spn_value_equal k' k)) keys) = false.
Proof.
  induction keys as [ | k' rest IH ]; cbn [filter existsb]; auto.
  destruct (spn_value_equal k' k) eqn:E; cbn [negb existsb]; auto.
  now rewrite E, IH.
Qed.

(* ===================================================================== *)
(** ** The builder *)
(* ===================================================================== *)

(** C3.  [set_value] is the one place where a completed value enters the
    tree.  On an empty stack the value becomes the root.  On an array frame it
    is appended to the array.  On a map frame the pending key has to be a
    string (otherwise the assertion fails), the value is written under the
    pending key with [spn_hashmap_set] and the pending key goes back to nil.
    The key reads the written value afterwards and every other key reads what
    it read before.  A value that is not nil is a pair of the map afterwards,
    and the order of the keys is kept, a new key going to the end.  A nil
    value is no pair of the map: the write takes the key out and leaves the
    other keys in their order.  A frame that holds neither an array nor a map
    fails the last assertion. *)
Theorem set_value_attach :
  forall (r : SpnValue) (en : bool) (v : SpnValue),
    set_value (mkParserState r [] en) v = Some (mkParserState v [] en)
    /\ (forall k array next,
          set_value (mkParserState r (mkStackNode k (SpnArray array) :: next) en) v
          = Some (mkParserState r
                    (mkStackNode k (SpnArray (array ++ [v])) :: next) en))
    /\ (forall k hashmap next,
          set_value (mkParserState r (mkStackNode k (SpnHashMap hashmap) :: next) en) v
          = if spn_isstring k
            then Some (mkParserState r
                         (mkStackNode spn_nilval
                            (SpnHashMap (spn_hashmap_set hashmap k v)) :: next) en)
            else None)
    /\ (forall k other next,
          spn_isarray other = false -> spn_ishashmap other = false ->
          set_value (mkParserState r (mkStackNode k other :: next) en) v = None)
    /\ (forall hashmap pending,
          let hashmap' := spn_hashmap_set hashmap (SpnString pending) v in
          spn_hashmap_get_strkey hashmap' pending = v
          /\ (forall other,
                spn_hashmap_get_strkey hashmap' other
                = if String.eqb other pending then v
                  else spn_hashmap_get_strkey hashmap other)
          /\ (spn_isnil v = false ->
              In (SpnString pending, v) hashmap'
              /\ List.map fst hashmap'
                 = if existsb (fun k' => spn_value_equal k' (SpnString pending))
                              (List.map fst hashmap)
                   then List.map fst hashmap
                   else (List.map fst hashmap ++ [SpnString pending])%list)
          /\ (spn_isnil v = true ->
              existsb (fun k' => spn_value_equal k' (SpnString pending))
                      (List.map fst hashmap') = false
              /\ List.map fst hashmap'
                 = filter (fun k' => negb (spn_value_equal k' (SpnString pending)))
                          (List.map fst hashmap))).
Proof.
  intros r en v.
  split; [ reflexivity | ].
  split; [ reflexivity | ].
  split.
  - intros k hashmap next. unfold set_value; simpl.
    now destruct (spn_isstring k).
  - split.
    { intros k other next Ha Hm. unfold set_value; simpl.
      destruct other; try reflexivity; discriminate. }
    intros hashmap pending hashmap'. subst hashmap'.
    split; [ apply hashmap_get_set_same | ].
    split; [ intros other; apply hashmap_get_set | ].
    split; intros Hv.
    + rewrite hashmap_set_keys, Hv. split; [ | reflexivity ].
      rewrite (set_of_value _ _ _ Hv). apply hashmap_put_in.
    + rewrite hashmap_set_keys, Hv. split; [ | reflexivity ].
      apply existsb_filter_out.
Qed.

(** C3 does not hold for a nil value: with [parse_null] off, the null of
    [{"a":1,"a":null}] reaches [set_value] as nil while the key ["a"] is
    pending, and the map keeps no pair for the key.  The same happens for a
    key that was never written. *)
Lemma set_value_attach_counterexample :
  set_value
    (mkParserState SpnNil
       [mkStackNode (SpnString "a")
          (SpnHashMap [(SpnString "a", SpnInt 1); (SpnString "b", SpnInt 7)])]
       false)
    SpnNil
  = Some (mkParserState SpnNil
            [mkStackNode SpnNil (SpnHashMap [(SpnString "b", SpnInt 7)])]
            false)
  /\ set_value
       (mkParserState SpnNil [mkStackNode (SpnString "a") (SpnHashMap [])] false)
       SpnNil
     = Some (mkParserState SpnNil [mkStackNode SpnNil (SpnHashMap [])] false)
  /\ json_parse (Y:=MiniYajl.mini) (parse_args text_null_overwrite None) []
     = Some (mkOutcome 0 (Some (SpnHashMap [])) [] []).
Proof. repeat split. Qed.

Lemma set_value_attach_witness :
  set_value
    (mkParserState SpnNil
       [mkStackNode (SpnString "a")
          (SpnHashMap [(SpnString "a", SpnInt 1); (SpnString "b", SpnInt 7)])]
       false)
    (SpnInt 2)
  = Some (mkParserState SpnNil
            [mkStackNode SpnNil
               (SpnHashMap [(SpnString "a", SpnInt 2); (SpnString "b", SpnInt 7)])]
            false).
Proof.
  exact (proj1 (proj2 (proj2 (set_value_attach SpnNil false (SpnInt 2))))
           (SpnString "a")
           [(SpnString "a", SpnInt 1); (SpnString "b", SpnInt 7)] []).
Defined.

(** Every callback that returns at all returns 1. *)
Lemma callback_returns_1 (e : Event) (state state' : ParserState) (r : Z) :
  parser_callbacks e state = Some (state', r) -> r = 1.
Proof.
  destruct e; simpl;
    unfold cb_null, cb_boolean, cb_integer, cb_double, cb_string,
      cb_start_map, cb_map_key, cb_end_map, cb_start_array, cb_end_array, obind;
    repeat match goal with
      | |- context [match ?x with _ => _ end] => destruct x; simpl
      end;
    congruence.
Qed.

Lemma deliver_never_cancelled (evs : list Event) :
  forall state state' go_on,
    yajl_deliver evs state = Some (state', go_on) -> go_on = true.
Proof.
  induction evs as [ | e evs IH ]; simpl; intros state state' go_on H.
  - now inversion H.
  - unfold obind in H.
    destruct (parser_callbacks e state) as [[s r] | ] eqn:E; [ | discriminate ].
    apply callback_returns_1 in E. subst r. simpl in H. eauto.
Qed.

Lemma deliver_app (evs1 evs2 : list Event) :
  forall state,
    yajl_deliver (evs1 ++ evs2) state
    = match yajl_deliver evs1 state with
      | Some (s, true) => yajl_deliver evs2 s
      | other => other
      end.
Proof.
  induction evs1 as [ | e evs1 IH ]; simpl; intros state; auto.
  unfold obind. destruct (parser_callbacks e state) as [[s r] | ]; simpl; auto.
  destruct (r =? 0); auto.
Qed.

(** *** The stack follows the grammar of the events *)

Lemma slots_cons (s : Slot) (below : list Slot) (nodes : list StackNode) :
  List.map slot_of_node nodes = List.map Some (s :: below) ->
  exists top next,
    nodes = top :: next /\ slot_of_node top = Some s
    /\ List.map slot_of_node next = List.map Some below.
Proof.
  destruct nodes as [ | top next ]; simpl; intros H; [ discriminate | ].
  inversion H. eauto.
Qed.

Lemma slot_of_node_inv (node : StackNode) (s : Slot) :
  slot_of_node node = Some s ->
  match s with
  | InArray => key node = SpnNil /\ exists a, value node = SpnArray a
  | MapNeedKey => key node = SpnNil /\ exists m, value node = SpnHashMap m
  | MapNeedVal => (exists k, key node = SpnString k)
                  /\ exists m, value node = SpnHashMap m
  end.
Proof.
  unfold slot_of_node. destruct node as [k v]; simpl.
  destruct v; try discriminate; destruct k; try discriminate;
    intros H; inversion H; subst; eauto.
Qed.

(** Attaching a value where the grammar expects one. *)
Lemma set_value_done (open : list Slot) (g' : Grammar) (state : ParserState)
  (v : SpnValue) :
  value_done open = Some g' ->
  List.map slot_of_node (stack state) = List.map Some open ->
  exists state',
    set_value state v = Some state'
    /\ slots_match g' state'
    /\ explicit_null state' = explicit_null state
    /\ (top_key state' = None \/ top_key state' = Some SpnNil).
Proof.
  intros Hdone Hm. destruct state as [r nodes en]. simpl in Hm.
  destruct open as [ | s below ].
  - destruct nodes; [ | discriminate ]. inversion Hdone; subst.
    eexists; repeat split; simpl; auto.
  - apply slots_cons in Hm as (top & next & -> & Hs & Hnext).
    apply slot_of_node_inv in Hs.
    destruct s; simpl in Hdone; inversion Hdone; subst; clear Hdone.
    + destruct Hs as [Hk [a Ha]]. destruct top as [k x]; simpl in *; subst.
      eexists; repeat split; unfold slots_match; simpl; auto.
      now rewrite Hnext.
    + destruct Hs as [[k' Hk] [m Hv]]. destruct top as [k x]; simpl in *; subst.
      eexists; repeat split; unfold slots_match; simpl; auto.
      now rewrite Hnext.
Qed.

(** One accepted event: its callback goes through, returns 1, and leaves a
    stack that matches the grammar again. *)
Lemma callback_accepted (g g' : Grammar) (e : Event) (state : ParserState) :
  lexer_step g e = Some g' ->
  slots_match g state ->
  exists state',
    parser_callbacks e state = Some (state', 1)
    /\ slots_match g' state'
    /\ explicit_null state' = explicit_null state.
Proof.
  destruct g as [open complete]. unfold lexer_step, slots_match. simpl.
  destruct complete; [ discriminate | ].
  intros Hstep Hm.
  assert (Hscalar : forall v,
    value_done open = Some g' ->
    exists state', (s <- set_value state v ;; Some (s, 1)) = Some (state', 1)
      /\ slots_match g' state' /\ explicit_null state' = explicit_null state).
  { intros v Hd. destruct (set_value_done _ _ state v Hd Hm) as (s' & Hs & Hm' & He & _).
    exists s'. rewrite Hs. auto. }
  assert (Hpush : forall c s,
    (spn_isarray c || spn_ishashmap c = true)%bool ->
    slot_of_node (mkStackNode spn_nilval c) = Some s ->
    g' = (s :: open, false) ->
    exists state', (s0 <- state_push state c ;; Some (s0, 1)) = Some (state', 1)
      /\ slots_match g' state' /\ explicit_null state' = explicit_null state).
  { intros c s Hc Hs ->. unfold state_push. rewrite Hc. simpl.
    eexists; split; [ reflexivity | ]. split; [ | reflexivity ].
    unfold slots_match; simpl. now rewrite Hs, Hm. }
  assert (Hpop : forall s below,
    open = s :: below -> s <> MapNeedVal ->
    value_done below = Some g' ->
    exists state', (p <- state_pop state ;; s0 <- set_value (snd p) (fst p) ;; Some (s0, 1))
                   = Some (state', 1)
      /\ slots_match g' state' /\ explicit_null state' = explicit_null state).
  { intros s below -> Hs Hd.
    apply slots_cons in Hm as (top & next & Hst & Hslot & Hnext).
    apply slot_of_node_inv in Hslot.
    assert (Hk : key top = SpnNil) by (destruct s; tauto).
    unfold state_pop. rewrite Hst, Hk. simpl.
    destruct (set_value_done below g'
                (mkParserState (root state) next (explicit_null state))
                (value top) Hd Hnext) as (s' & Hs' & Hm' & He & _).
    exists s'. rewrite Hs'. auto. }
  destruct e; simpl;
    unfold cb_null, cb_boolean, cb_integer, cb_double, cb_string,
      cb_start_map, cb_end_map, cb_start_array, cb_end_array;
    try (apply Hscalar; exact Hstep).
  - (* start map *)
    destruct open as [ | [ | | ] below ]; try discriminate;
      inversion Hstep; subst; eapply Hpush; reflexivity.
  - (* map key *)
    destruct open as [ | [ | | ] below ]; try discriminate.
    inversion Hstep; subst; clear Hstep.
    apply slots_cons in Hm as (top & next & Hst & Hslot & Hnext).
    apply slot_of_node_inv in Hslot as [Hk [m Hv]].
    unfold cb_map_key. rewrite Hst, Hk. simpl.
    eexists; split; [ reflexivity | ]. split; [ | reflexivity ].
    unfold slots_match; simpl.
    unfold slot_of_node at 1; simpl. now rewrite Hv, Hnext.
  - (* end map *)
    destruct open as [ | [ | | ] below ]; try discriminate.
    eapply Hpop; eauto; discriminate.
  - (* start array *)
    destruct open as [ | [ | | ] below ]; try discriminate;
      inversion Hstep; subst; eapply Hpush; reflexivity.
  - (* end array *)
    destruct open as [ | [ | | ] below ]; try discriminate.
    eapply Hpop; eauto; discriminate.
Qed.

(** A whole accepted sequence: no assertion fails, no callback cancels. *)
Lemma deliver_accepted (evs : list Event) :
  forall g g' state,
    lexer_run g evs = Some g' ->
    slots_match g state ->
    exists state',
      yajl_deliver evs state = Some (state', true)
      /\ slots_match g' state'
      /\ explicit_null state' = explicit_null state.
Proof.
  induction evs as [ | e evs IH ]; simpl; intros g g' state Hrun Hm.
  - inversion Hrun; subst. eauto.
  - unfold obind in Hrun.
    destruct (lexer_step g e) as [g1 | ] eqn:Hstep; [ | discriminate ].
    destruct (callback_accepted _ _ e _ Hstep Hm) as (s1 & Hcb & Hm1 & He1).
    destruct (IH _ _ _ Hrun Hm1) as (s2 & Hd & Hm2 & He2).
    exists s2. rewrite Hcb. simpl. repeat split; auto. congruence.
Qed.

Lemma lexer_run_app (evs1 evs2 : list Event) :
  forall g,
    lexer_run g (evs1 ++ evs2)
    = match lexer_run g evs1 with
      | Some g1 => lexer_run g1 evs2
      | None => None
      end.
Proof.
  induction evs1 as [ | e evs1 IH ]; simpl; intros g; auto.
  unfold obind. destruct (lexer_step g e); auto.
Qed.

Lemma start_matches (en : bool) :
  slots_match grammar_start (with_explicit_null state_init en).
Proof. reflexivity. Qed.

Lemma top_key_nil (s : Slot) (below : list Slot) (c : bool) (state : ParserState) :
  slots_match (s :: below, c) state -> s <> MapNeedVal ->
  top_key state = Some SpnNil.
Proof.
  unfold slots_match, top_key. simpl. intros Hm Hs.
  apply slots_cons in Hm as (top & next & -> & Hslot & _).
  apply slot_of_node_inv in Hslot. destruct s; try tauto; now destruct Hslot as [-> _].
Qed.

Lemma top_key_after_value (open : list Slot) (g : Grammar) (state : ParserState) :
  value_done open = Some g -> slots_match g state ->
  top_key state = None \/ top_key state = Some SpnNil.
Proof.
  intros Hd Hm. destruct open as [ | [ | | ] below ]; simpl in Hd;
    inversion Hd; subst; clear Hd.
  - left. unfold slots_match in Hm. unfold top_key.
    destruct (stack state); [ reflexivity | discriminate ].
  - right. eapply top_key_nil; eauto. discriminate.
  - right. eapply top_key_nil; eauto. discriminate.
Qed.

(** C8.  Along every well-nested event sequence (any event [e] of it, after
    the events [pre] and before the events [post]) the callbacks run without
    a failed assertion, and before and after [e] every frame of the stack is
    in the slot the grammar of the events gives it: the pending key of an
    array frame is nil, and the pending key of a map frame is a string
    exactly while the map is between a key event and the completion of the
    value that follows it ([MapNeedVal]), nil otherwise.  In particular the
    pending key of the innermost frame is nil right before an end event is
    processed, a key event finds a nil pending key and leaves its own key
    pending, and after an event that completes a value (a scalar or an end
    event) the frame the value was attached to has a nil pending key again.
    Right before a start event the innermost frame is never a map that waits
    for a key: it is an array, with a nil pending key, or a map whose key is
    still pending, the container that starts being the value of that key; the
    start event leaves the frames below as they are, pending keys included,
    and pushes a frame with a nil pending key. *)
Theorem pending_key_discipline :
  forall (en : bool) (pre : list Event) (e : Event) (post : list Event)
         (g : Grammar),
    lexer_run grammar_start (pre ++ e :: post) = Some g ->
    exists (before after : ParserState) (gpre gnext : Grammar),
      yajl_deliver pre (with_explicit_null state_init en) = Some (before, true)
      /\ parser_callbacks e before = Some (after, 1)
      /\ lexer_run grammar_start pre = Some gpre
      /\ lexer_step gpre e = Some gnext
      /\ List.map slot_of_node (stack before) = List.map Some (fst gpre)
      /\ List.map slot_of_node (stack after) = List.map Some (fst gnext)
      /\ (is_end_event e = true -> top_key before = Some SpnNil)
      /\ (is_start_event e = true -> top_key after = Some SpnNil)
      /\ (forall k, e = EvMapKey k ->
            top_key before = Some SpnNil /\ top_key after = Some (SpnString k))
      /\ (is_start_event e = false -> is_key_event e = false ->
            top_key after = None \/ top_key after = Some SpnNil)
      /\ (is_start_event e = true ->
            match fst gpre with
            | [] => top_key before = None
            | InArray :: _ => top_key before = Some SpnNil
            | MapNeedVal :: _ => exists k, top_key before = Some (SpnString k)
            | MapNeedKey :: _ => False
            end)
      /\ (is_start_event e = true ->
            exists pushed, stack after = pushed :: stack before
                           /\ key pushed = SpnNil).
Proof.
  intros en pre e post g Hrun.
  rewrite lexer_run_app in Hrun.
  destruct (lexer_run grammar_start pre) as [gpre | ] eqn:Hpre; [ | discriminate ].
  simpl in Hrun. unfold obind in Hrun.
  destruct (lexer_step gpre e) as [gnext | ] eqn:Hstep; [ | discriminate ].
  destruct (deliver_accepted pre _ _ _ Hpre (start_matches en))
    as (before & Hdel & Hmb & _).
  destruct (callback_accepted _ _ e _ Hstep Hmb) as (after & Hcb & Hma & _).
  exists before, after, gpre, gnext.
  split; [ exact Hdel | ]. split; [ exact Hcb | ].
  split; [ reflexivity | ]. split; [ exact Hstep | ].
  split; [ exact Hmb | ]. split; [ exact Hma | ].
  destruct gpre as [open complete]. unfold lexer_step in Hstep.
  destruct complete; [ discriminate | ].
  split; [ | split; [ | split; [ | split; [ | split ] ] ] ].
  - intros He. destruct e; try discriminate He;
      destruct open as [ | [ | | ] below ]; try discriminate Hstep;
      eapply top_key_nil; eauto; discriminate.
  - intros He. destruct e; try discriminate He;
      destruct open as [ | [ | | ] below ]; try discriminate Hstep;
      inversion Hstep; subst; eapply top_key_nil; eauto; discriminate.
  - intros k ->.
    destruct open as [ | [ | | ] below ]; try discriminate Hstep.
    split; [ eapply top_key_nil; eauto; discriminate | ].
    simpl in Hcb. unfold cb_map_key in Hcb.
    destruct (stack before) as [ | top next ]; [ discriminate | ].
    destruct (spn_isnil (key top)); simpl in Hcb; [ | discriminate ].
    inversion Hcb; subst. reflexivity.
  - intros Hs Hk. destruct e; try discriminate Hs; try discriminate Hk;
      try (eapply top_key_after_value; eauto; fail);
      destruct open as [ | [ | | ] below ]; try discriminate Hstep;
      eapply top_key_after_value; eauto.
  - intros He. cbn [fst].
    destruct open as [ | [ | | ] below ].
    + unfold slots_match in Hmb. cbn [fst List.map] in Hmb. unfold top_key.
      destruct (stack before); [ reflexivity | discriminate Hmb ].
    + eapply top_key_nil; eauto; discriminate.
    + destruct e; try discriminate He; discriminate Hstep.
    + unfold slots_match in Hmb. cbn [fst] in Hmb.
      apply slots_cons in Hmb as (top & next & Hst & Hslot & _).
      apply slot_of_node_inv in Hslot as [[k Hk] _].
      exists k. unfold top_key. now rewrite Hst, Hk.
  - intros He. destruct e; try discriminate He;
      cbn [parser_callbacks] in Hcb;
      unfold cb_start_array, cb_start_map, state_push in Hcb;
      inversion Hcb; subst; cbn [stack]; eexists; split; reflexivity.
Qed.

(** C8 does not hold right before a start event: in [{"a":[]}] the array
    starts while the key ["a"] of the map is pending, and stays pending until
    the array is complete. *)
Lemma pending_key_counterexample :
  lexer_run grammar_start
    [EvStartMap; EvMapKey "a"; EvStartArray; EvEndArray; EvEndMap]
  = Some ([], true)
  /\ yajl_deliver [EvStartMap; EvMapKey "a"] (with_explicit_null state_init false)
     = Some (mkParserState SpnNil [mkStackNode (SpnString "a") (SpnHashMap [])]
               false, true)
  /\ is_start_event EvStartArray = true
  /\ top_key (mkParserState SpnNil [mkStackNode (SpnString "a") (SpnHashMap [])]
                false)
     = Some (SpnString "a")
  /\ parser_callbacks EvStartArray
       (mkParserState SpnNil [mkStackNode (SpnString "a") (SpnHashMap [])] false)
     = Some (mkParserState SpnNil
               [mkStackNode SpnNil (SpnArray []);
                mkStackNode (SpnString "a") (SpnHashMap [])] false, 1).
Proof. repeat split. Qed.

(** A run of the callbacks from the start of a map to the end of the array
    that is the value of its key. *)
Lemma pending_key_discipline_witness :
  exists before after : ParserState,
    yajl_deliver [EvStartMap; EvMapKey "a"; EvStartArray; EvInteger 1]
                 (with_explicit_null state_init false) = Some (before, true)
    /\ parser_callbacks EvEndArray before = Some (after, 1)
    /\ top_key before = Some SpnNil
    /\ List.map slot_of_node (stack before) = [Some InArray; Some MapNeedVal]
    /\ List.map slot_of_node (stack after) = [Some MapNeedKey]
    /\ top_key after = Some SpnNil.
Proof.
  destruct (pending_key_discipline false
              [EvStartMap; EvMapKey "a"; EvStartArray; EvInteger 1]
              EvEndArray [EvEndMap] ([], true) eq_refl)
    as (before & after & gpre & gnext & Hd & Hcb & Hpre & Hstep & Hb & Ha
        & Hend & _ & _ & _).
  exists before, after.
  simpl in Hpre. inversion Hpre; subst gpre.
  simpl in Hstep. inversion Hstep; subst gnext.
  repeat split; auto.
  destruct (Hb, Ha) as [_ Ha'].
  unfold top_key. destruct (stack after) as [ | top next ]; [ discriminate | ].
  simpl in Ha'. inversion Ha' as [[Hs Hn]].
  apply slot_of_node_inv in Hs. now destruct Hs as [-> _].
Defined.

(* ===================================================================== *)
(** ** The parse driver *)
(* ===================================================================== *)

Section ParseDriver.

Context {Y : Yajl}.

(** [json_parse] on a string and an optional config map: configure, send the
    scanner's events through the callbacks, and report. *)
Lemma json_parse_run (text : string) (config : option (list (SpnValue * SpnValue)))
  (ctx : SpnContext) :
  json_parse (parse_args text config) ctx
  = (c <- configured config ;;
     r <- yajl_deliver (dispatched (yajl_scan (fst c) text)) (snd c) ;;
     Some (parse_outcome (yajl_scan (fst c) text) (fst r) ctx)).
Proof.
  unfold json_parse, parse_args, configured.
  destruct config as [c | ];
    cbn [List.length nth Z.of_nat Pos.of_succ_nat Pos.succ Z.ltb Z.gtb Z.geb
         Z.compare Pos.compare Pos.compare_cont orb andb negb
         spn_isstring spn_ishashmap spn_stringvalue config_parser obind fst snd].
  all: match goal with
       | |- context [yajl_scan ?h ?t] =>
           generalize (yajl_scan h t); intros run
       end.
  all: match goal with
       | |- context [yajl_parse _ ?s] => generalize s; intros st0
       end.
  all: unfold yajl_parse, yajl_complete_parse, dispatched, parse_outcome,
         yajl_get_error, error_message_to_spn_context, scan_status.
  all: rewrite deliver_app.
  all: destruct (yajl_deliver (feed_events run) st0) as [[s1 b1] | ] eqn:E1;
         cbn [obind fst snd]; [ | reflexivity ].
  all: apply deliver_never_cancelled in E1; subst b1; cbn iota.
  all: destruct (feed_ok run); cbn [yajl_status_is_ok obind fst snd];
         [ | reflexivity ].
  all: destruct (yajl_deliver (finish_events run) s1) as [[s2 b2] | ] eqn:E2;
         cbn [obind fst snd]; [ | reflexivity ].
  all: apply deliver_never_cancelled in E2; subst b2; cbn iota.
  all: destruct (finish_ok run); reflexivity.
Qed.

Lemma configured_total (config : option (list (SpnValue * SpnValue))) :
  exists h st0,
    configured config = Some (h, st0)
    /\ slots_match grammar_start st0.
Proof.
  destruct config as [c | ]; simpl; eexists; eexists; split; reflexivity.
Qed.

Lemma clean_run_dispatched (run : yajl_run) (evs : list Event) :
  clean_run run evs -> dispatched run = evs /\ feed_ok run && finish_ok run = true.
Proof.
  intros (He & Hf & Hc). unfold dispatched. rewrite Hf, Hc. auto.
Qed.


(** C10.  Every callback of [parser_callbacks] that returns hands 1 back to
    YAJL, so a sequence of events is never cut short by the builder; on the
    well-nested sequences YAJL reports every callback does return (no
    assertion fails); and the [int] [json_parse] returns for a string (with or
    without a config map) is decided by the scanner alone: 0 when neither the
    feed nor the completion reports an error, -4 when the feed does, -5 when
    only the completion does. *)
Theorem builder_never_fails_the_parse :
  (forall e state state' r, parser_callbacks e state = Some (state', r) -> r = 1)
  /\ (forall evs state state' go_on,
        yajl_deliver evs state = Some (state', go_on) -> go_on = true)
  /\ (forall evs g en,
        lexer_run grammar_start evs = Some g ->
        exists state',
          yajl_deliver evs (with_explicit_null state_init en) = Some (state', true))
  /\ (forall text config ctx o,
        json_parse (parse_args text config) ctx = Some o ->
        exists h st0,
          configured config = Some (h, st0)
          /\ (rv o = 0 <-> feed_ok (yajl_scan h text) = true
                           /\ finish_ok (yajl_scan h text) = true)
          /\ (rv o = -4 <-> feed_ok (yajl_scan h text) = false)
          /\ (rv o = -5 <-> feed_ok (yajl_scan h text) = true
                            /\ finish_ok (yajl_scan h text) = false)).
Proof.
  split; [ exact callback_returns_1 | ].
  split; [ exact deliver_never_cancelled | ].
  split.
  - intros evs g en Hrun.
    destruct (deliver_accepted evs _ _ _ Hrun (start_matches en)) as (s & Hs & _).
    eauto.
  - intros text config ctx o Hp. rewrite json_parse_run in Hp.
    destruct (configured_total config) as (h & st0 & Hc & _).
    exists h, st0. split; [ exact Hc | ].
    rewrite Hc in Hp. cbn [obind fst snd] in Hp.
    destruct (yajl_deliver _ st0) as [[s b] | ]; [ | discriminate ].
    cbn [obind fst] in Hp. inversion Hp; subst o; clear Hp.
    unfold parse_outcome.
    destruct (feed_ok (yajl_scan h text)), (finish_ok (yajl_scan h text));
      simpl; repeat split; intros; try discriminate; try tauto;
      match goal with H : _ /\ _ |- _ => destruct H; discriminate end.
Qed.



End ParseDriver.



Lemma builder_never_fails_the_parse_witness :
  exists state',
    yajl_deliver [EvStartArray; EvNull; EvEndArray]
                 (with_explicit_null state_init true) = Some (state', true).
Proof.
  exact (proj1 (proj2 (proj2 (builder_never_fails_the_parse (Y:=MiniYajl.mini))))
               [EvStartArray; EvNull; EvEndArray] ([], true) true eq_refl).
Defined.

(* ===================================================================== *)
(** ** The emitter *)
(* ===================================================================== *)

Lemma existsb_flat_map {A B : Type} (p : B -> bool) (f : A -> list B) (l : list A) :
  existsb p (flat_map f l) = existsb (fun a => existsb p (f a)) l.
Proof.
  induction l as [ | a l IH ]; simpl; [ reflexivity | ].
  now rewrite existsb_app, IH.
Qed.

Lemma existsb_agree {A : Type} (p q : A -> bool) (l : list A) :
  (forall a, In a l -> p a = q a) -> existsb p l = existsb q l.
Proof.
  induction l as [ | a l IH ]; simpl; intros H; [ reflexivity | ].
  rewrite (H a) by auto. now rewrite IH by auto.
Qed.

(** The walk holds a refusal exactly for the values that hold something
    opaque. *)
Lemma refusal_opaque (v : SpnValue) :
  existsb is_refusal (walk v) = has_opaque v.
Proof.
  induction v as [ | b | i | f | s | elems IH | pairs IH | name | p | p ]
    using SpnValue_ind'; try reflexivity.
  - cbn [walk has_opaque existsb is_refusal orb].
    rewrite existsb_app. cbn [existsb is_refusal orb]. rewrite orb_false_r.
    rewrite existsb_flat_map. apply existsb_agree.
    intros x Hx. rewrite Forall_forall in IH. auto.
  - cbn [walk has_opaque existsb is_refusal orb].
    rewrite existsb_app. cbn [existsb is_refusal orb]. rewrite orb_false_r.
    rewrite existsb_flat_map. apply existsb_agree.
    intros [k x] Hx. rewrite Forall_forall in IH.
    destruct (IH _ Hx) as [Hk Hv]. simpl in Hk, Hv.
    now rewrite existsb_app, Hk, Hv.
  - destruct p; reflexivity.
Qed.

Lemma refusal_messages (v : SpnValue) (msg : string) :
  In (Refuse msg) (walk v) ->
  msg = "found non-serializable value" \/ msg = "found value of unknown type".
Proof.
  induction v as [ | b | i | f | s | elems IH | pairs IH | name | p | p ]
    using SpnValue_ind'; cbn [walk];
    try (intros [H | []]; discriminate H).
  - intros [H | H]; [ discriminate H | ].
    apply in_app_or in H as [H | [H | []]]; [ | discriminate H ].
    apply in_flat_map in H as (x & Hx & Hin). rewrite Forall_forall in IH. eauto.
  - intros [H | H]; [ discriminate H | ].
    apply in_app_or in H as [H | [H | []]]; [ | discriminate H ].
    apply in_flat_map in H as ([k x] & Hx & Hin). rewrite Forall_forall in IH.
    destruct (IH _ Hx) as [Hk Hv]. simpl in Hk, Hv.
    apply in_app_or in Hin as [Hin | Hin]; eauto.
  - intros [H | []]. inversion H. auto.
  - destruct (spn_value_equal (SpnWeakUserInfo p) null_value);
      intros [H | []]; inversion H; auto.
  - destruct (spn_value_equal (SpnStrongUserInfo p) null_value);
      intros [H | []]; inversion H; auto.
Qed.

Lemma gen_status_ok (st : yajl_gen_status) :
  yajl_gen_status_is_ok st = true <-> st = yajl_gen_status_ok.
Proof.
  destruct st; simpl; split; intros H; try reflexivity; discriminate.
Qed.

Section Emitter.

Context {Y : Yajl}.

Lemma run_steps_app (a b : list Step) :
  forall gen ctx,
    run_steps (a ++ b) gen ctx
    = let '(g, c, e) := run_steps a gen ctx in
      if e =? 0 then run_steps b g c else (g, c, -1).
Proof.
  induction a as [ | [call_text c | msg] a IH ]; simpl; intros gen ctx.
  - reflexivity.
  - destruct (yajl_gen_status_is_ok (fst (yajl_gen_emit gen c))); auto.
  - reflexivity.
Qed.

(** The emitter takes the steps of [walk], in order, up to the first that
    fails. *)
Lemma generate_recursive_walk (node : SpnValue) :
  forall gen ctx, generate_recursive gen node ctx = run_steps (walk node) gen ctx.
Proof.
  induction node as [ | b | i | f | s | elems IH | pairs IH | name | p | p ]
    using SpnValue_ind'; intros gen ctx; try reflexivity.
  - (* array *)
    cbn [generate_recursive walk]. unfold yajl_gen_array_open, RETURN_IF_FAIL.
    cbn [run_steps].
    destruct (yajl_gen_status_is_ok (fst (yajl_gen_emit gen GenArrayOpen)));
      [ | reflexivity ].
    generalize (snd (yajl_gen_emit gen GenArrayOpen)). clear gen. intros gen.
    rewrite run_steps_app.
    match goal with
    | |- context [?loop elems gen ctx] =>
        assert (Hloop : forall g c, loop elems g c
                                    = run_steps (flat_map walk elems) g c)
    end.
    { induction IH as [ | x xs Hx _ IHxs ]; intros g c; [ reflexivity | ].
      cbn [flat_map]. rewrite run_steps_app, Hx.
      destruct (run_steps (walk x) g c) as [[g' c'] e].
      destruct (e =? 0); [ apply IHxs | reflexivity ]. }
    rewrite Hloop.
    destruct (run_steps (flat_map walk elems) gen ctx) as [[g' c'] e].
    destruct (e =? 0); reflexivity.
  - (* hash map *)
    cbn [generate_recursive walk]. unfold yajl_gen_map_open, RETURN_IF_FAIL.
    cbn [run_steps].
    destruct (yajl_gen_status_is_ok (fst (yajl_gen_emit gen GenMapOpen)));
      [ | reflexivity ].
    generalize (snd (yajl_gen_emit gen GenMapOpen)). clear gen. intros gen.
    rewrite run_steps_app.
    match goal with
    | |- context [?loop pairs gen ctx] =>
        assert (Hloop : forall g c, loop pairs g c = run_steps (walk_pairs pairs) g c)
    end.
    { unfold walk_pairs.
      induction IH as [ | [k x] ps [Hk Hx] _ IHps ]; intros g c; [ reflexivity | ].
      cbn [flat_map]. simpl fst in Hk. simpl snd in Hx.
      rewrite <- app_assoc, run_steps_app, Hk.
      destruct (run_steps (walk k) g c) as [[g1 c1] e1].
      destruct (e1 =? 0); [ | reflexivity ].
      rewrite run_steps_app, Hx.
      destruct (run_steps (walk x) g1 c1) as [[g2 c2] e2].
      destruct (e2 =? 0); [ apply IHps | reflexivity ]. }
    rewrite Hloop. unfold walk_pairs.
    destruct (run_steps _ gen ctx) as [[g' c'] e].
    destruct (e =? 0); reflexivity.
  - (* weak user-info *)
    cbn [generate_recursive walk].
    destruct (spn_value_equal (SpnWeakUserInfo p) null_value); reflexivity.
Qed.

(** A walk that fails stopped at its first failing step. *)
Lemma run_steps_failure (steps : list Step) :
  forall gen ctx gen' ctx' error,
    run_steps steps gen ctx = (gen', ctx', error) ->
    error <> 0 ->
    exists done failing rest g1,
      steps = (done ++ failing :: rest)%list
      /\ run_steps done gen ctx = (g1, ctx, 0)
      /\ step_fails failing g1 = true
      /\ gen' = step_writer failing g1
      /\ ctx' = spn_ctx_runtime_error ctx (step_message failing)
      /\ error = -1.
Proof.
  induction steps as [ | [call_text c | msg] steps IH ]; simpl;
    intros gen ctx gen' ctx' error Hrun Herr.
  - inversion Hrun; subst. contradiction.
  - destruct (yajl_gen_status_is_ok (fst (yajl_gen_emit gen c))) eqn:Eok.
    + destruct (IH _ _ _ _ _ Hrun Herr)
        as (done & failing & rest & g1 & -> & Hdone & Hfail & Hg & Hc & He).
      exists (Emit call_text c :: done), failing, rest, g1.
      split; [ reflexivity | ].
      split; [ simpl; rewrite Eok; exact Hdone | auto ].
    + inversion Hrun; subst.
      exists [], (Emit call_text c), steps, gen.
      repeat split; simpl; now rewrite ?Eok.
  - inversion Hrun; subst.
    exists [], (Refuse msg), steps, gen'. repeat split.
Qed.

Lemma run_steps_success (steps : list Step) :
  forall gen ctx gen' ctx',
    run_steps steps gen ctx = (gen', ctx', 0) -> ctx' = ctx.
Proof.
  induction steps as [ | [call_text c | msg] steps IH ]; simpl;
    intros gen ctx gen' ctx' Hrun.
  - now inversion Hrun.
  - destruct (yajl_gen_status_is_ok (fst (yajl_gen_emit gen c))); eauto.
    inversion Hrun.
  - inversion Hrun.
Qed.

Lemma json_generate_run (v : SpnValue) (config : option (list (SpnValue * SpnValue)))
  (ctx : SpnContext) :
  json_generate (generate_args v config) ctx
  = (gen <- gen_configured config ;;
     Some (generate_outcome (generate_recursive gen v ctx))).
Proof.
  unfold json_generate, generate_args, gen_configured.
  destruct config as [c | ];
    cbn [List.length nth Z.of_nat Pos.of_succ_nat Pos.succ Z.ltb Z.gtb Z.geb
         Z.compare Pos.compare Pos.compare_cont orb andb negb
         spn_ishashmap config_gen obind fst snd].
  all: match goal with
       | |- context [generate_recursive ?g ?n ?c] =>
           destruct (generate_recursive g n c) as [[g' c'] e]
       end.
  all: unfold generate_outcome, spn_makestring_len.
  all: destruct (e =? 0) eqn:Ee; [ | reflexivity ].
  all: apply Z.eqb_eq in Ee; subst e.
  all: destruct (yajl_gen_status_is_ok (fst (yajl_gen_get_buf g'))); reflexivity.
Qed.

Lemma calls_of_app (a b : list Step) :
  calls_of (a ++ b) = (calls_of a ++ calls_of b)%list.
Proof.
  induction a as [ | [call_text c | msg] a IH ]; simpl; auto. now rewrite IH.
Qed.

Lemma walk_string_keys (pairs : list (SpnValue * SpnValue)) :
  forallb (fun kv => spn_isstring (fst kv)) pairs = true ->
  walk_pairs pairs
  = flat_map (fun kv => Emit "yajl_gen_string(gen, str, length)"
                             (GenString (spn_stringvalue (fst kv)))
                        :: walk (snd kv)) pairs.
Proof.
  unfold walk_pairs.
  induction pairs as [ | [k x] ps IH ]; simpl; [ reflexivity | ].
  intros H. apply andb_prop in H as [Hk Hps].
  rewrite (IH Hps). destruct k; try discriminate. reflexivity.
Qed.

Lemma run_steps_ok (steps : list Step) :
  forall gen ctx gen' ctx',
    run_steps steps gen ctx = (gen', ctx', 0)
    <-> existsb is_refusal steps = false
        /\ accepts_all (calls_of steps) gen = true
        /\ gen' = emit_all (calls_of steps) gen
        /\ ctx' = ctx.
Proof.
  induction steps as [ | [call_text c | msg] steps IH ]; intros gen ctx gen' ctx';
    cbn [run_steps existsb is_refusal calls_of accepts_all emit_all orb].
  - split.
    + intros H. inversion H. auto.
    + intros (_ & _ & -> & ->). reflexivity.
  - destruct (yajl_gen_status_is_ok (fst (yajl_gen_emit gen c))); cbn [andb].
    + apply IH.
    + split; [ intros H; inversion H | intros (_ & H & _); discriminate H ].
  - split; [ intros H; inversion H | intros (H & _); discriminate H ].
Qed.

Lemma gen_configured_total (config : option (list (SpnValue * SpnValue))) :
  exists g0, gen_configured config = Some g0.
Proof.
  destruct config; simpl; eauto.
Qed.

(** A walk whose steps before [failing] are accepted stops at [failing]. *)
Lemma run_steps_first_failure (done rest : list Step) (failing : Step) :
  forall gen ctx,
    existsb is_refusal done = false ->
    accepts_all (calls_of done) gen = true ->
    step_fails failing (emit_all (calls_of done) gen) = true ->
    run_steps (done ++ failing :: rest) gen ctx
    = (step_writer failing (emit_all (calls_of done) gen),
       spn_ctx_runtime_error ctx (step_message failing), -1).
Proof.
  intros gen ctx Hr Ha Hf. rewrite run_steps_app.
  assert (E : run_steps done gen ctx = (emit_all (calls_of done) gen, ctx, 0))
    by (apply run_steps_ok; auto).
  rewrite E. cbn [Z.eqb].
  destruct failing as [call_text c | msg]; cbn [run_steps step_writer step_message].
  - cbn [step_fails] in Hf. apply negb_true_iff in Hf. now rewrite Hf.
  - reflexivity.
Qed.

(** C5.  The walk of [generate_recursive] stops at its first failing step (a
    writer call not answered with [yajl_gen_status_ok], or a value that is
    refused).  A walk that returns an error took the steps of the full walk
    only up to that step: the steps before it were all accepted, the writer
    is left as that step left it (no call follows), the one message of that
    step is all that was added to the error context, and the result is -1.
    The other way round, when the steps before a failing step are accepted,
    the walk returns just that; and a value that holds something opaque, or a
    writer that refuses one of the calls, always makes the walk return -1
    with one message.  [json_generate] hands an error of the walk on as its
    own: the code -1, the error context of the walk, and no text.  After a
    walk that succeeded it returns the text only when the writer hands its
    buffer over, otherwise -3 with one message and no text.  [json_generate]
    always returns, and whenever it returns a non-zero code it has written
    nothing through [ret] and reported exactly one message; an output string
    comes only with code 0 and an untouched error context. *)
Theorem generate_aborts_at_first_failure :
  (forall gen node ctx gen' ctx' error,
     generate_recursive gen node ctx = (gen', ctx', error) ->
     error <> 0 ->
     exists done failing rest g1,
       walk node = (done ++ failing :: rest)%list
       /\ run_steps done gen ctx = (g1, ctx, 0)
       /\ step_fails failing g1 = true
       /\ gen' = step_writer failing g1
       /\ ctx' = spn_ctx_runtime_error ctx (step_message failing)
       /\ error = -1)
  /\ (forall gen node ctx done failing rest,
        walk node = (done ++ failing :: rest)%list ->
        existsb is_refusal done = false ->
        accepts_all (calls_of done) gen = true ->
        step_fails failing (emit_all (calls_of done) gen) = true ->
        generate_recursive gen node ctx
        = (step_writer failing (emit_all (calls_of done) gen),
           spn_ctx_runtime_error ctx (step_message failing), -1))
  /\ (forall gen node ctx,
        has_opaque node = true \/ accepts_all (calls_of (walk node)) gen = false ->
        exists gen' msg,
          generate_recursive gen node ctx
          = (gen', spn_ctx_runtime_error ctx msg, -1))
  /\ (forall v config ctx g0 gen' ctx' error,
        gen_configured config = Some g0 ->
        generate_recursive g0 v ctx = (gen', ctx', error) ->
        error <> 0 ->
        json_generate (generate_args v config) ctx
        = Some (mkOutcome (-1) None ctx' []))
  /\ (forall v config ctx g0 gen' ctx',
        gen_configured config = Some g0 ->
        generate_recursive g0 v ctx = (gen', ctx', 0) ->
        json_generate (generate_args v config) ctx
        = Some (if yajl_gen_status_is_ok (fst (yajl_gen_get_buf gen'))
                then mkOutcome 0 (Some (SpnString (snd (yajl_gen_get_buf gen'))))
                       ctx []
                else mkOutcome (-3) None
                       (spn_ctx_runtime_error ctx "error generating JSON string")
                       []))
  /\ (forall argv ctx,
        exists o,
          json_generate argv ctx = Some o
          /\ (rv o <> 0 ->
              ret o = None
              /\ exists msg, ctx_after o = spn_ctx_runtime_error ctx msg)
          /\ (rv o = 0 ->
              ctx_after o = ctx /\ exists text, ret o = Some (SpnString text))).
Proof.
  split; [ | split; [ | split; [ | split; [ | split ] ] ] ].
  - intros gen node ctx gen' ctx' error Hgen Herr.
    rewrite generate_recursive_walk in Hgen.
    exact (run_steps_failure _ _ _ _ _ _ Hgen Herr).
  - intros gen node ctx done failing rest Hw Hr Ha Hf.
    rewrite generate_recursive_walk, Hw.
    now apply run_steps_first_failure.
  - intros gen node ctx Hbad.
    destruct (generate_recursive gen node ctx) as [[g' c'] e] eqn:Ewalk.
    rewrite generate_recursive_walk in Ewalk.
    assert (He : e <> 0).
    { intros ->. apply run_steps_ok in Ewalk as (Hr & Ha & _).
      rewrite refusal_opaque in Hr. destruct Hbad; congruence. }
    destruct (run_steps_failure _ _ _ _ _ _ Ewalk He)
      as (done & failing & rest & g1 & _ & _ & _ & _ & -> & ->).
    eauto.
  - intros v config ctx g0 gen' ctx' error Hc Ewalk He.
    rewrite json_generate_run, Hc. cbn [obind]. rewrite Ewalk.
    rewrite generate_recursive_walk in Ewalk.
    destruct (run_steps_failure _ _ _ _ _ _ Ewalk He)
      as (done & failing & rest & g1 & _ & _ & _ & _ & _ & ->).
    reflexivity.
  - intros v config ctx g0 gen' ctx' Hc Ewalk.
    rewrite json_generate_run, Hc. cbn [obind]. rewrite Ewalk.
    rewrite generate_recursive_walk in Ewalk.
    apply run_steps_success in Ewalk. subst ctx'.
    unfold generate_outcome. cbn [Z.eqb].
    now destruct (yajl_gen_status_is_ok (fst (yajl_gen_get_buf gen'))).
  - intros argv ctx. unfold json_generate.
    destruct ((Z.of_nat (List.length argv) <? 1) || (Z.of_nat (List.length argv) >? 2))%bool.
    { eexists; split; [ reflexivity | ]. simpl.
      split; [ intros _; split; eauto | intros H; discriminate H ]. }
    destruct ((Z.of_nat (List.length argv) >=? 2)
              && negb (spn_ishashmap (nth 1 argv spn_nilval)))%bool eqn:Ecfg.
    { eexists; split; [ reflexivity | ]. simpl.
      split; [ intros _; split; eauto | intros H; discriminate H ]. }
    assert (Hgen : exists gen,
              (if Z.of_nat (List.length argv) >=? 2
               then config_gen yajl_gen_alloc (nth 1 argv spn_nilval)
               else Some yajl_gen_alloc) = Some gen).
    { destruct (Z.of_nat (List.length argv) >=? 2); [ | eauto ].
      simpl in Ecfg. destruct (nth 1 argv spn_nilval); try discriminate Ecfg.
      simpl. eauto. }
    destruct Hgen as [gen ->]. cbn [obind].
    destruct (generate_recursive gen (nth 0 argv spn_nilval) ctx)
      as [[g' c'] e] eqn:Ewalk.
    destruct (e =? 0) eqn:Ee.
    + apply Z.eqb_eq in Ee. subst e.
      rewrite generate_recursive_walk in Ewalk.
      apply run_steps_success in Ewalk. subst c'.
      destruct (yajl_gen_status_is_ok (fst (yajl_gen_get_buf g'))).
      * eexists; split; [ reflexivity | ]. simpl.
        split; [ intros H; now elim H | intros _; split; eauto ].
      * eexists; split; [ reflexivity | ]. simpl.
        split; [ intros _; split; eauto | intros H; discriminate H ].
    + apply Z.eqb_neq in Ee.
      rewrite generate_recursive_walk in Ewalk.
      destruct (run_steps_failure _ _ _ _ _ _ Ewalk Ee)
        as (done & failing & rest & g1 & _ & _ & _ & _ & Hc & _).
      eexists; split; [ reflexivity | ]. simpl.
      split; [ intros _; split; eauto | intros H; contradiction ].
Qed.

Lemma calls_of_pairs (pairs : list (SpnValue * SpnValue)) :
  calls_of (flat_map (fun kv => Emit "yajl_gen_string(gen, str, length)"
                                     (GenString (spn_stringvalue (fst kv)))
                                :: walk (snd kv)) pairs)
  = flat_map (fun kv => GenString (spn_stringvalue (fst kv))
                        :: calls_of (walk (snd kv))) pairs.
Proof.
  induction pairs as [ | [k x] ps IH ]; [ reflexivity | ].
  cbn [flat_map calls_of app fst snd]. rewrite calls_of_app. now rewrite IH.
Qed.

Lemma walk_map (pairs : list (SpnValue * SpnValue)) :
  forallb (fun kv => spn_isstring (fst kv)) pairs = true ->
  walk (SpnHashMap pairs)
  = (Emit "yajl_gen_map_open(gen)" GenMapOpen
     :: flat_map (fun kv => Emit "yajl_gen_string(gen, str, length)"
                                 (GenString (spn_stringvalue (fst kv)))
                            :: walk (snd kv)) pairs
     ++ [Emit "yajl_gen_map_close(gen)" GenMapClose])%list.
Proof.
  intros Hkeys. cbn [walk]. fold (walk_pairs pairs).
  now rewrite (walk_string_keys _ Hkeys).
Qed.

Lemma calls_of_map (pairs : list (SpnValue * SpnValue)) :
  forallb (fun kv => spn_isstring (fst kv)) pairs = true ->
  calls_of (walk (SpnHashMap pairs))
  = (GenMapOpen
     :: flat_map (fun kv => GenString (spn_stringvalue (fst kv))
                            :: calls_of (walk (snd kv))) pairs
     ++ [GenMapClose])%list.
Proof.
  intros Hkeys. rewrite (walk_map _ Hkeys). cbn [calls_of]. f_equal.
  rewrite calls_of_app. f_equal. apply calls_of_pairs.
Qed.

(** C7.  For a map keyed by strings the emitter opens the map, then takes the
    pairs in the order the map iterates them, emitting for each pair its key
    as a string and then the steps of its value, then closes the map (the
    walk stopping at the first step that fails).  The order it iterates is
    the one [spn_hashmap_set] maintains.  A value that is not nil, written
    under a new key, is serialized last, after the pairs that were there, and
    written under a key that is there it leaves every key in its place; a nil
    takes its key out and leaves the other keys in their order. *)
Theorem map_serialized_in_order :
  forall pairs,
    forallb (fun kv => spn_isstring (fst kv)) pairs = true ->
    (forall gen ctx,
       generate_recursive gen (SpnHashMap pairs) ctx
       = run_steps
           (Emit "yajl_gen_map_open(gen)" GenMapOpen
            :: flat_map (fun kv => Emit "yajl_gen_string(gen, str, length)"
                                        (GenString (spn_stringvalue (fst kv)))
                                   :: walk (snd kv)) pairs
            ++ [Emit "yajl_gen_map_close(gen)" GenMapClose])%list gen ctx)
    /\ calls_of (walk (SpnHashMap pairs))
       = (GenMapOpen
          :: flat_map (fun kv => GenString (spn_stringvalue (fst kv))
                                 :: calls_of (walk (snd kv))) pairs
          ++ [GenMapClose])%list
    /\ (forall k v,
          spn_isnil v = false ->
          existsb (fun k' => spn_value_equal k' (SpnString k)) (List.map fst pairs)
          = false ->
          calls_of (walk (SpnHashMap (spn_hashmap_set pairs (SpnString k) v)))
          = (GenMapOpen
             :: flat_map (fun kv => GenString (spn_stringvalue (fst kv))
                                    :: calls_of (walk (snd kv))) pairs
             ++ (GenString k :: calls_of (walk v)) ++ [GenMapClose])%list)
    /\ (forall k v,
          List.map fst (spn_hashmap_set pairs (SpnString k) v)
          = if spn_isnil v
            then filter (fun k' => negb (spn_value_equal k' (SpnString k)))
                        (List.map fst pairs)
            else if existsb (fun k' => spn_value_equal k' (SpnString k))
                            (List.map fst pairs)
                 then List.map fst pairs
                 else (List.map fst pairs ++ [SpnString k])%list).
Proof.
  intros pairs Hkeys.
  split; [ | split; [ | split ] ].
  - intros gen ctx. now rewrite generate_recursive_walk, (walk_map _ Hkeys).
  - now apply calls_of_map.
  - intros k v Hv Hfresh.
    rewrite (set_of_value _ _ _ Hv), (hashmap_put_fresh _ _ _ Hfresh).
    rewrite calls_of_map.
    + rewrite flat_map_app. cbn [flat_map fst snd spn_stringvalue].
      now rewrite app_nil_r, <- app_assoc.
    + rewrite forallb_app, Hkeys. reflexivity.
  - intros k v. apply hashmap_set_keys.
Qed.

End Emitter.

(* ===================================================================== *)
(** ** Options *)
(* ===================================================================== *)

Lemma hashmap_get_set_other (hm : list (SpnValue * SpnValue)) (k v : SpnValue)
  (name : string) :
  spn_value_equal k (SpnString name) = false ->
  spn_hashmap_get_strkey (spn_hashmap_set hm k v) name
  = spn_hashmap_get_strkey hm name.
Proof.
  intros Hk.
  assert (Hclash : forall k', spn_value_equal k' k = true ->
                              spn_value_equal k' (SpnString name) = false).
  { intros k' E. destruct (spn_value_equal k' (SpnString name)) eqn:En;
      [ | reflexivity ].
    apply string_key_equal in En. subst k'.
    destruct k; simpl in E; try discriminate E.
    simpl in Hk. rewrite String.eqb_sym in Hk. congruence. }
  unfold spn_hashmap_set, spn_hashmap_delete. destruct (spn_isnil v).
  - induction hm as [ | [k' x] rest IH ]; cbn [filter fst]; [ reflexivity | ].
    destruct (spn_value_equal k' k) eqn:E; cbn [negb spn_hashmap_get_strkey].
    + now rewrite (Hclash _ E).
    + now rewrite IH.
  - induction hm as [ | [k' x] rest IH ]; simpl.
    + now rewrite Hk.
    + destruct (spn_value_equal k' k) eqn:E; simpl.
      * now rewrite (Hclash _ E).
      * now rewrite IH.
Qed.

Section Options.

Context {Y : Yajl}.

(** C9.  Each option setter looks one name up in the config map and acts only
    on a value of the type it expects: a value of another type (or no value)
    leaves the handle, the flag or the writer as it was.  Hence a key the
    translators do not look up changes nothing, whatever is stored under it;
    [config_parser] and [config_gen] never fail on a map; and a call whose
    options are all of the wrong type gives what the call without a config
    map gives. *)
Theorem options_silently_ignored :
  (forall parser opt config name,
     spn_isbool (spn_hashmap_get_strkey config name) = false ->
     parser_set_bool_option parser opt config name = parser)
  /\ (forall flag config name,
        spn_isbool (spn_hashmap_get_strkey config name) = false ->
        state_set_bool_option flag config name = flag)
  /\ (forall gen opt config name,
        spn_isbool (spn_hashmap_get_strkey config name) = false ->
        gen_set_bool_option gen opt config name = gen)
  /\ (forall gen opt config name,
        spn_isstring (spn_hashmap_get_strkey config name) = false ->
        gen_set_string_option gen opt config name = gen)
  /\ (forall config k v parser state,
        spn_value_equal k (SpnString "comment") = false ->
        spn_value_equal k (SpnString "parse_null") = false ->
        config_parser parser state (SpnHashMap (spn_hashmap_set config k v))
        = config_parser parser state (SpnHashMap config))
  /\ (forall config k v gen,
        spn_value_equal k (SpnString "beautify") = false ->
        spn_value_equal k (SpnString "indent") = false ->
        spn_value_equal k (SpnString "escape_slash") = false ->
        config_gen gen (SpnHashMap (spn_hashmap_set config k v))
        = config_gen gen (SpnHashMap config))
  /\ (forall text config ctx,
        spn_isbool (spn_hashmap_get_strkey config "comment") = false ->
        spn_isbool (spn_hashmap_get_strkey config "parse_null") = false ->
        json_parse (parse_args text (Some config)) ctx
        = json_parse (parse_args text None) ctx)
  /\ (forall v config ctx,
        spn_isbool (spn_hashmap_get_strkey config "beautify") = false ->
        spn_isstring (spn_hashmap_get_strkey config "indent") = false ->
        spn_isbool (spn_hashmap_get_strkey config "escape_slash") = false ->
        json_generate (generate_args v (Some config)) ctx
        = json_generate (generate_args v None) ctx).
Proof.
  assert (Hpb : forall parser opt config name,
            spn_isbool (spn_hashmap_get_strkey config name) = false ->
            parser_set_bool_option parser opt config name = parser).
  { intros parser opt config name H. unfold parser_set_bool_option.
    destruct (spn_hashmap_get_strkey config name); try reflexivity; discriminate. }
  assert (Hsb : forall flag config name,
            spn_isbool (spn_hashmap_get_strkey config name) = false ->
            state_set_bool_option flag config name = flag).
  { intros flag config name H. unfold state_set_bool_option.
    destruct (spn_hashmap_get_strkey config name); try reflexivity; discriminate. }
  assert (Hgb : forall gen opt config name,
            spn_isbool (spn_hashmap_get_strkey config name) = false ->
            gen_set_bool_option gen opt config name = gen).
  { intros gen opt config name H. unfold gen_set_bool_option.
    destruct (spn_hashmap_get_strkey config name); try reflexivity; discriminate. }
  assert (Hgs : forall gen opt config name,
            spn_isstring (spn_hashmap_get_strkey config name) = false ->
            gen_set_string_option gen opt config name = gen).
  { intros gen opt config name H. unfold gen_set_string_option.
    destruct (spn_hashmap_get_strkey config name); try reflexivity; discriminate. }
  repeat match goal with |- _ /\ _ => split end; auto.
  - intros config k v parser state Hc Hn.
    unfold config_parser, parser_set_bool_option, state_set_bool_option.
    now rewrite !hashmap_get_set_other by assumption.
  - intros config k v gen Hb Hi He.
    unfold config_gen, gen_set_bool_option, gen_set_string_option.
    now rewrite !hashmap_get_set_other by assumption.
  - intros text config ctx Hc Hn.
    rewrite !json_parse_run. unfold configured, config_parser.
    rewrite Hpb, Hsb by assumption. reflexivity.
  - intros v config ctx Hb Hi He.
    rewrite !json_generate_run. unfold gen_configured, config_gen.
    rewrite (Hgb _ _ _ _ Hb), (Hgs _ _ _ _ Hi), (Hgb _ _ _ _ He). reflexivity.
Qed.

(** C2.  Let the scanner read the text "null" as the single event [null] and
    the writer render a single [yajl_gen_null] as the text "null".  Then
    [json_parse] of "null" returns [null_value] under [parse_null: true] and
    nil under [parse_null: false], the two are told apart by
    [spn_value_equal] (either way round), and [json_generate] of either makes
    the one writer call [yajl_gen_null] and returns the text "null". *)
Theorem explicit_null_distinction :
  forall ctx g1,
    clean_run (yajl_scan yajl_alloc "null") [EvNull] ->
    yajl_gen_emit yajl_gen_alloc GenNull = (yajl_gen_status_ok, g1) ->
    yajl_gen_get_buf g1 = (yajl_gen_status_ok, "null") ->
    json_parse (parse_args "null" (Some [(SpnString "parse_null", SpnBool true)])) ctx
    = Some (mkOutcome 0 (Some null_value) ctx [])
    /\ json_parse (parse_args "null" (Some [(SpnString "parse_null", SpnBool false)])) ctx
       = Some (mkOutcome 0 (Some spn_nilval) ctx [])
    /\ spn_value_equal null_value spn_nilval = false
    /\ spn_value_equal spn_nilval null_value = false
    /\ walk null_value = [Emit "yajl_gen_null(gen)" GenNull]
    /\ walk spn_nilval = [Emit "yajl_gen_null(gen)" GenNull]
    /\ json_generate (generate_args null_value None) ctx
       = Some (mkOutcome 0 (Some (SpnString "null")) ctx [])
    /\ json_generate (generate_args spn_nilval None) ctx
       = Some (mkOutcome 0 (Some (SpnString "null")) ctx []).
Proof.
  intros ctx g1 Hclean Hemit Hbuf.
  apply clean_run_dispatched in Hclean as [Hev Hok].
  assert (Hparse : forall pn,
            json_parse (parse_args "null" (Some [(SpnString "parse_null", SpnBool pn)])) ctx
            = Some (mkOutcome 0
                      (Some (if pn then null_value else spn_nilval)) ctx [])).
  { intros pn. rewrite json_parse_run.
    change (configured (Some [(SpnString "parse_null", SpnBool pn)]))
      with (Some (yajl_alloc, with_explicit_null state_init pn)).
    cbn [obind fst snd]. rewrite Hev. unfold parse_outcome. rewrite Hok.
    destruct pn; reflexivity. }
  assert (Hgen : forall v,
            walk v = [Emit "yajl_gen_null(gen)" GenNull] ->
            json_generate (generate_args v None) ctx
            = Some (mkOutcome 0 (Some (SpnString "null")) ctx [])).
  { intros v Hw. rewrite json_generate_run. cbn [gen_configured obind].
    rewrite generate_recursive_walk, Hw. cbn [run_steps].
    rewrite Hemit. cbn [fst snd yajl_gen_status_is_ok generate_outcome].
    rewrite Hbuf. reflexivity. }
  split; [ exact (Hparse true) | ].
  split; [ exact (Hparse false) | ].
  repeat split; apply Hgen; reflexivity.
Qed.

End Options.

Lemma options_silently_ignored_witness :
  json_parse (Y:=MiniYajl.mini)
    (parse_args "[true]"
       (Some [(SpnString "parse_null", SpnString "yes");
              (SpnString "comment", SpnInt 1);
              (SpnString "bogus", SpnBool true)])) []
  = json_parse (Y:=MiniYajl.mini) (parse_args "[true]" None) [].
Proof.
  exact (proj1 (proj2 (proj2 (proj2 (proj2 (proj2 (proj2
           (options_silently_ignored (Y:=MiniYajl.mini))))))))
           "[true]"
           [(SpnString "parse_null", SpnString "yes");
            (SpnString "comment", SpnInt 1);
            (SpnString "bogus", SpnBool true)] [] eq_refl eq_refl).
Defined.

Lemma explicit_null_distinction_witness :
  json_parse (Y:=MiniYajl.mini)
    (parse_args "null" (Some [(SpnString "parse_null", SpnBool true)])) []
  = Some (mkOutcome 0 (Some null_value) [] [])
  /\ json_parse (Y:=MiniYajl.mini)
       (parse_args "null" (Some [(SpnString "parse_null", SpnBool false)])) []
     = Some (mkOutcome 0 (Some SpnNil) [] [])
  /\ json_generate (Y:=MiniYajl.mini) (generate_args null_value None) []
     = Some (mkOutcome 0 (Some (SpnString "null")) [] [])
  /\ json_generate (Y:=MiniYajl.mini) (generate_args SpnNil None) []
     = Some (mkOutcome 0 (Some (SpnString "null")) [] []).
Proof.
  destruct (explicit_null_distinction (Y:=MiniYajl.mini) []
              (snd (yajl_gen_emit (Yajl:=MiniYajl.mini) yajl_gen_alloc GenNull))
              (conj eq_refl (conj eq_refl eq_refl)) eq_refl eq_refl)
    as (H1 & H2 & _ & _ & _ & _ & H3 & H4).
  repeat split; assumption.
Defined.

Lemma generate_aborts_at_first_failure_witness :
  exists done failing rest g1,
    walk (SpnArray [SpnInt 1; SpnFunc "f"; SpnInt 2])
    = (done ++ failing :: rest)%list
    /\ run_steps (Y:=MiniYajl.mini) done yajl_gen_alloc [] = (g1, [], 0)
    /\ step_fails (Y:=MiniYajl.mini) failing g1 = true
    /\ MiniYajl.mkGen "[1" [MiniYajl.GInArray; MiniYajl.GStart] []
       = step_writer (Y:=MiniYajl.mini) failing g1
    /\ ["found value of unknown type"]
       = spn_ctx_runtime_error [] (step_message failing)
    /\ -1 = -1.
Proof.
  exact (proj1 (generate_aborts_at_first_failure (Y:=MiniYajl.mini))
           yajl_gen_alloc (SpnArray [SpnInt 1; SpnFunc "f"; SpnInt 2]) []
           (MiniYajl.mkGen "[1" [MiniYajl.GInArray; MiniYajl.GStart] [])
           ["found value of unknown type"] (-1) eq_refl
           ltac:(discriminate)).
Defined.

Lemma map_serialized_in_order_witness :
  calls_of (walk (SpnHashMap [(SpnString "k", SpnInt 4); (SpnString "a", null_value)]))
  = [GenMapOpen; GenString "k"; GenInteger 4; GenString "a"; GenNull; GenMapClose].
Proof.
  exact (proj1 (proj2 (map_serialized_in_order (Y:=MiniYajl.mini)
           [(SpnString "k", SpnInt 4); (SpnString "a", null_value)] eq_refl))).
Defined.

(* ===================================================================== *)
(** ** Generate, then parse *)
(* ===================================================================== *)

Lemma serializable_array (elems : list SpnValue) :
  serializable (SpnArray elems) = true -> Forall (fun x => serializable x = true) elems.
Proof.
  simpl. intros H. apply Forall_forall. now apply forallb_forall.
Qed.

Lemma serializable_map (pairs : list (SpnValue * SpnValue)) :
  serializable (SpnHashMap pairs) = true ->
  Forall (fun kv => (exists s, fst kv = SpnString s) /\ serializable (snd kv) = true)
         pairs
  /\ distinct_keys (List.map fst pairs) = true.
Proof.
  simpl. intros H. apply andb_prop in H as [Hall Hd]. split; [ | exact Hd ].
  apply Forall_forall. intros [k x] Hin.
  rewrite forallb_forall in Hall. specialize (Hall _ Hin). simpl in Hall.
  apply andb_prop in Hall as [Hk Hx]. split; [ | exact Hx ].
  destruct k; try discriminate Hk. simpl. eauto.
Qed.

Lemma serializable_userinfo (v : SpnValue) :
  spn_valtype v = SPN_TTAG_USERINFO -> serializable v = true -> v = null_value.
Proof.
  destruct v; try discriminate; simpl; intros _ H; try discriminate H.
  destruct p; try discriminate H. reflexivity.
Qed.

(** The scanner's view of the calls of a walk is the event sequence of the
    value. *)
Lemma read_back_value (v : SpnValue) :
  serializable v = true ->
  forall open rest,
    match open with MapNeedKey :: _ => False | _ => True end ->
    read_back open (calls_of (walk v) ++ rest)
    = (value_events v ++ read_back (after_value open) rest)%list.
Proof.
  induction v as [ | b | i | f | s | elems IH | pairs IH | name | p | p ]
    using SpnValue_ind'; intros Hser open rest Hopen;
    try reflexivity; try discriminate Hser.
  - (* string *)
    simpl. destruct open as [ | [ | | ] below ]; try reflexivity. contradiction.
  - (* array *)
    apply serializable_array in Hser.
    cbn [walk calls_of value_events app read_back].
    rewrite calls_of_app, <- !app_assoc. cbn [calls_of app]. f_equal.
    assert (Hin : forall tail,
              read_back (InArray :: open) (calls_of (flat_map walk elems) ++ tail)
              = (flat_map value_events elems ++ read_back (InArray :: open) tail)%list).
    { induction elems as [ | x xs IHxs ]; intros tail; [ reflexivity | ].
      inversion IH; subst. inversion Hser; subst.
      cbn [flat_map]. rewrite calls_of_app, <- !app_assoc.
      rewrite H1 by (auto; exact I). cbn [after_value]. f_equal. now apply IHxs. }
    rewrite Hin. reflexivity.
  - (* hash map *)
    apply serializable_map in Hser as [Hser _].
    cbn [walk calls_of value_events app read_back].
    rewrite calls_of_app, <- !app_assoc. cbn [calls_of app]. f_equal.
    assert (Hin : forall tail,
              read_back (MapNeedKey :: open)
                (calls_of (flat_map (fun kv => let '(k, val) := kv in
                                               walk k ++ walk val)%list pairs) ++ tail)
              = (flat_map (fun kv => let '(k, val) := kv in
                                     EvMapKey (spn_stringvalue k) :: value_events val)
                          pairs
                 ++ read_back (MapNeedKey :: open) tail)%list).
    { induction pairs as [ | [k x] ps IHps ]; intros tail; [ reflexivity | ].
      inversion IH as [ | ? ? [_ Hx] IHrest ]; subst.
      inversion Hser as [ | ? ? [[s Hk] Hsx] Hsrest ]; subst.
      simpl in Hk, Hsx, Hx. subst k.
      cbn [flat_map walk calls_of app spn_stringvalue].
      rewrite calls_of_app, <- !app_assoc. cbn [read_back app]. f_equal.
      rewrite Hx by (auto; exact I). cbn [after_value]. f_equal. now apply IHps. }
    rewrite Hin. reflexivity.
  - (* weak user-info *)
    rewrite (serializable_userinfo (SpnWeakUserInfo p) eq_refl Hser).
    reflexivity.
Qed.

Lemma deliver_scalar (e : Event) (v : SpnValue) (rest : list Event)
  (state : ParserState) :
  parser_callbacks e state = (s <- set_value state v ;; Some (s, 1)) ->
  yajl_deliver (e :: rest) state
  = match set_value state v with
    | Some state' => yajl_deliver rest state'
    | None => None
    end.
Proof.
  intros H. cbn [yajl_deliver]. rewrite H. unfold obind.
  destruct (set_value state v); reflexivity.
Qed.

Lemma deliver_end (e : Event) (v r : SpnValue) (rest : list Event)
  (nodes : list StackNode) (en : bool) :
  is_end_event e = true ->
  yajl_deliver (e :: rest) (mkParserState r (mkStackNode SpnNil v :: nodes) en)
  = match set_value (mkParserState r nodes en) v with
    | Some state' => yajl_deliver rest state'
    | None => None
    end.
Proof.
  intros He. destruct e; try discriminate He;
    cbn [yajl_deliver parser_callbacks];
    unfold cb_end_array, cb_end_map, state_pop; cbn; unfold obind;
    destruct (set_value _ v); reflexivity.
Qed.

Lemma existsb_key_app (k : SpnValue) (a b : list SpnValue) :
  existsb (fun k' => spn_value_equal k' k) (a ++ b)
  = existsb (fun k' => spn_value_equal k' k) a
    || existsb (fun k' => spn_value_equal k' k) b.
Proof. apply existsb_app. Qed.

(** Dropping pairs of a map leaves its keys distinct. *)
Lemma existsb_key_filter (q : SpnValue -> bool) (p : SpnValue * SpnValue -> bool)
  (hm : list (SpnValue * SpnValue)) :
  existsb q (List.map fst hm) = false ->
  existsb q (List.map fst (filter p hm)) = false.
Proof.
  induction hm as [ | [k x] rest IH ]; cbn [filter List.map fst existsb]; auto.
  intros H. apply orb_false_iff in H as [H1 H2].
  destruct (p (k, x)); cbn [List.map fst existsb]; auto.
  now rewrite H1, IH.
Qed.

Lemma distinct_keys_filter (p : SpnValue * SpnValue -> bool)
  (hm : list (SpnValue * SpnValue)) :
  distinct_keys (List.map fst hm) = true ->
  distinct_keys (List.map fst (filter p hm)) = true.
Proof.
  induction hm as [ | [k x] rest IH ]; cbn [filter List.map fst distinct_keys]; auto.
  intros H. apply andb_prop in H as [H1 H2].
  destruct (p (k, x)); cbn [List.map fst distinct_keys]; auto.
  apply negb_true_iff in H1.
  now rewrite (existsb_key_filter _ p _ H1), IH.
Qed.

Lemma reparsed_keys (pn : bool) (pairs : list (SpnValue * SpnValue)) :
  List.map fst (List.map (fun kv => let '(k, val) := kv in (k, reparsed pn val)) pairs)
  = List.map fst pairs.
Proof.
  rewrite List.map_map. apply List.map_ext. now intros [k x].
Qed.

(** Delivering the events of a value attaches the value as [reparsed] gives
    it and goes on. *)
Lemma deliver_value (v : SpnValue) :
  serializable v = true ->
  forall rest state,
    yajl_deliver (value_events v ++ rest) state
    = match set_value state (reparsed (explicit_null state) v) with
      | Some state' => yajl_deliver rest state'
      | None => None
      end.
Proof.
  induction v as [ | b | i | f | s | elems IH | pairs IH | name | p | p ]
    using SpnValue_ind'; intros Hser rest state;
    try discriminate Hser;
    try (apply deliver_scalar; reflexivity).
  - (* array *)
    apply serializable_array in Hser.
    destruct state as [r nodes en].
    cbn [value_events app yajl_deliver parser_callbacks reparsed explicit_null].
    unfold cb_start_array, state_push. cbn.
    rewrite <- app_assoc.
    assert (Hin : forall acc tail,
              yajl_deliver (flat_map value_events elems ++ tail)
                (mkParserState r (mkStackNode SpnNil (SpnArray acc) :: nodes) en)
              = yajl_deliver tail
                  (mkParserState r
                     (mkStackNode SpnNil
                        (SpnArray (acc ++ List.map (reparsed en) elems)) :: nodes)
                     en)).
    { induction elems as [ | x xs IHxs ]; intros acc tail.
      - cbn. now rewrite app_nil_r.
      - inversion IH; subst. inversion Hser; subst.
        cbn [flat_map List.map]. rewrite <- app_assoc, H1 by assumption.
        cbn. unfold spn_array_push. rewrite IHxs by assumption.
        now rewrite <- app_assoc. }
    unfold spn_nilval, spn_makearray. rewrite Hin.
    cbn [app List.map]. now rewrite deliver_end.
  - (* hash map *)
    apply serializable_map in Hser as [Hser Hdistinct].
    destruct state as [r nodes en].
    cbn [value_events app yajl_deliver parser_callbacks reparsed explicit_null].
    unfold cb_start_map, state_push. cbn.
    rewrite <- app_assoc.
    assert (Hin : forall acc tail,
              (forall k, In k (List.map fst pairs) ->
                 existsb (fun k' => spn_value_equal k' k) (List.map fst acc) = false) ->
              yajl_deliver
                (flat_map (fun kv => let '(k, val) := kv in
                                     EvMapKey (spn_stringvalue k) :: value_events val)
                          pairs ++ tail)
                (mkParserState r (mkStackNode SpnNil (SpnHashMap acc) :: nodes) en)
              = yajl_deliver tail
                  (mkParserState r
                     (mkStackNode SpnNil
                        (SpnHashMap
                           (acc ++ filter (fun kv => negb (spn_isnil (snd kv)))
                                     (List.map (fun kv => let '(k, val) := kv in
                                                          (k, reparsed en val))
                                               pairs))) :: nodes)
                     en)).
    { induction pairs as [ | [k x] ps IHps ]; intros acc tail Hfresh.
      - cbn. now rewrite app_nil_r.
      - inversion IH as [ | ? ? [_ Hx] IHrest ]; subst.
        inversion Hser as [ | ? ? [[s Hk] Hsx] Hsrest ]; subst.
        simpl in Hk, Hsx, Hx. subst k.
        cbn [List.map fst distinct_keys] in Hdistinct.
        apply andb_prop in Hdistinct as [Hnew Hdrest].
        apply negb_true_iff in Hnew.
        cbn [flat_map List.map spn_stringvalue].
        cbn [app yajl_deliver parser_callbacks]. unfold cb_map_key. cbn.
        rewrite <- app_assoc, Hx by assumption.
        cbn -[spn_hashmap_set filter].
        rewrite hashmap_set_fresh by (apply Hfresh; cbn; auto).
        rewrite IHps; auto.
        + rewrite <- app_assoc. unfold spn_makestring_len. cbn [filter snd].
          now destruct (spn_isnil (reparsed en x)).
        + intros k Hin. rewrite List.map_app, existsb_key_app.
          rewrite Hfresh by (cbn; auto).
          rewrite orb_false_l. apply existsb_key_filter.
          cbn [List.map fst existsb]. rewrite orb_false_r.
          rewrite Forall_forall in Hsrest.
          apply in_map_iff in Hin as ([k0 x0] & <- & Hin0).
          destruct (Hsrest _ Hin0) as [[s0 Hs0] _]. simpl in Hs0. subst k0.
          cbn. rewrite String.eqb_sym.
          rewrite <- not_true_iff_false. intros Heq.
          rewrite <- not_true_iff_false in Hnew. apply Hnew.
          apply existsb_exists. exists (SpnString s0). split.
          * apply in_map_iff. exists (SpnString s0, x0). auto.
          * exact Heq. }
    unfold spn_nilval, spn_makehashmap.
    rewrite Hin by (intros k _; reflexivity).
    cbn [app List.map]. now rewrite deliver_end.
  - (* weak user-info *)
    rewrite (serializable_userinfo (SpnWeakUserInfo p) eq_refl Hser).
    apply deliver_scalar. simpl. unfold cb_null.
    destruct (explicit_null state); reflexivity.
Qed.

(** What comes back has only nulls and pairs that come back again. *)
Lemma reparsed_survives (pn : bool) (v : SpnValue) :
  survives pn (reparsed pn v) = true.
Proof.
  induction v as [ | b | i | f | s | elems IH | pairs IH | name | p | p ]
    using SpnValue_ind'; try reflexivity.
  - destruct pn; reflexivity.
  - cbn [reparsed survives]. apply forallb_forall. intros y Hy.
    apply in_map_iff in Hy as (x & <- & Hx). rewrite Forall_forall in IH. auto.
  - cbn [reparsed survives]. apply forallb_forall. intros [k y] Hy.
    apply filter_In in Hy as [Hy Hnil]. cbn [snd] in Hnil. rewrite Hnil.
    apply in_map_iff in Hy as ([k0 x] & E & Hx). inversion E; subst.
    rewrite Forall_forall in IH. exact (proj2 (IH _ Hx)).
  - destruct p; [ destruct pn | ]; reflexivity.
Qed.

(** [reparsed] leaves a value as it is exactly when [survives] holds of
    it. *)
Lemma reparsed_fixed (pn : bool) (v : SpnValue) :
  reparsed pn v = v <-> survives pn v = true.
Proof.
  split.
  - intros H. rewrite <- H. apply reparsed_survives.
  - induction v as [ | b | i | f | s | elems IH | pairs IH | name | p | p ]
      using SpnValue_ind'; intros Hk; try reflexivity.
    + destruct pn; [ discriminate Hk | reflexivity ].
    + cbn [reparsed]. f_equal. cbn [survives] in Hk.
      rewrite forallb_forall in Hk. rewrite Forall_forall in IH.
      rewrite <- (List.map_id elems) at 2. apply List.map_ext_in. auto.
    + cbn [reparsed]. f_equal. cbn [survives] in Hk.
      rewrite forallb_forall in Hk. rewrite Forall_forall in IH.
      assert (E : List.map (fun kv => let '(k, val) := kv in (k, reparsed pn val))
                           pairs = pairs).
      { rewrite <- (List.map_id pairs) at 2. apply List.map_ext_in.
        intros [k x] Hin. f_equal.
        specialize (Hk _ Hin). cbn in Hk. apply andb_prop in Hk as [_ Hk].
        exact (proj2 (IH _ Hin) Hk). }
      rewrite E. apply forallb_filter_id. apply forallb_forall.
      intros [k x] Hin. specialize (Hk _ Hin). cbn in Hk.
      now apply andb_prop in Hk as [Hk _].
    + destruct p; [ destruct pn; [ reflexivity | discriminate Hk ] | reflexivity ].
Qed.

Lemma reparsed_idempotent (pn : bool) (v : SpnValue) :
  reparsed pn (reparsed pn v) = reparsed pn v.
Proof. apply reparsed_fixed, reparsed_survives. Qed.

Lemma reparsed_serializable (pn : bool) (v : SpnValue) :
  serializable v = true -> serializable (reparsed pn v) = true.
Proof.
  induction v as [ | b | i | f | s | elems IH | pairs IH | name | p | p ]
    using SpnValue_ind'; intros Hser; try assumption.
  - destruct pn; reflexivity.
  - apply serializable_array in Hser. cbn [reparsed serializable].
    apply forallb_forall. intros y Hy. apply in_map_iff in Hy as (x & <- & Hx).
    rewrite Forall_forall in IH, Hser. auto.
  - cbn [reparsed serializable].
    destruct (serializable_map _ Hser) as [Hall Hd].
    apply andb_true_intro. split.
    + apply forallb_forall. intros y Hy. apply filter_In in Hy as [Hy _].
      apply in_map_iff in Hy as ([k x] & <- & Hx).
      rewrite Forall_forall in IH, Hall.
      destruct (Hall _ Hx) as [[s Hk] Hsx]. simpl in Hk, Hsx. subst k.
      simpl. exact (proj2 (IH _ Hx) Hsx).
    + apply distinct_keys_filter. now rewrite reparsed_keys.
  - rewrite (serializable_userinfo (SpnWeakUserInfo p) eq_refl Hser).
    destruct pn; reflexivity.
Qed.

(** With [parse_null] on no pair is dropped, and the value that comes back
    is generated with the same calls. *)
Lemma reparsed_calls (v : SpnValue) :
  serializable v = true ->
  calls_of (walk (reparsed true v)) = calls_of (walk v).
Proof.
  induction v as [ | b | i | f | s | elems IH | pairs IH | name | p | p ]
    using SpnValue_ind'; intros Hser; try reflexivity.
  - apply serializable_array in Hser. cbn [reparsed walk calls_of].
    f_equal. rewrite !calls_of_app. f_equal.
    induction elems as [ | x xs IHxs ]; [ reflexivity | ].
    inversion IH; subst. inversion Hser; subst.
    cbn [List.map flat_map]. rewrite !calls_of_app. f_equal; auto.
  - apply serializable_map in Hser as [Hser _]. cbn [reparsed walk calls_of].
    f_equal. rewrite !calls_of_app. f_equal.
    induction pairs as [ | [k x] ps IHps ]; [ reflexivity | ].
    inversion IH as [ | ? ? [_ Hx] IHrest ]; subst.
    inversion Hser as [ | ? ? [_ Hsx] Hsrest ]; subst. simpl in Hx, Hsx.
    cbn [List.map filter snd].
    assert (Hnil : spn_isnil (reparsed true x) = false).
    { pose proof (reparsed_survives true x) as Hs.
      destruct (reparsed true x); try reflexivity. discriminate Hs. }
    rewrite Hnil. cbn [negb flat_map]. rewrite !calls_of_app.
    rewrite (Hx Hsx), (IHps IHrest Hsrest). reflexivity.
  - rewrite (serializable_userinfo (SpnWeakUserInfo p) eq_refl Hser).
    reflexivity.
Qed.

Lemma keeps_nulls_fixed (pn : bool) (v : SpnValue) :
  keeps_nulls pn v = true -> null_collapse pn v = v.
Proof.
  induction v as [ | b | i | f | s | elems IH | pairs IH | name | p | p ]
    using SpnValue_ind'; intros Hk; try reflexivity.
  - destruct pn; [ discriminate Hk | reflexivity ].
  - cbn [null_collapse]. f_equal. cbn [keeps_nulls] in Hk.
    rewrite forallb_forall in Hk. rewrite Forall_forall in IH.
    rewrite <- (List.map_id elems) at 2. apply List.map_ext_in. auto.
  - cbn [null_collapse]. f_equal. cbn [keeps_nulls] in Hk.
    rewrite forallb_forall in Hk. rewrite Forall_forall in IH.
    rewrite <- (List.map_id pairs) at 2. apply List.map_ext_in.
    intros [k x] Hin. f_equal. exact (proj2 (IH _ Hin) (Hk _ Hin)).
  - destruct p; [ destruct pn; [ reflexivity | discriminate Hk ] | reflexivity ].
Qed.

Lemma serializable_no_opaque (v : SpnValue) :
  serializable v = true -> has_opaque v = false.
Proof.
  induction v as [ | b | i | f | s | elems IH | pairs IH | name | p | p ]
    using SpnValue_ind'; intros Hser; try reflexivity; try discriminate Hser.
  - apply serializable_array in Hser. cbn [has_opaque].
    rewrite <- not_true_iff_false. intros H.
    apply existsb_exists in H as (x & Hin & Hx).
    rewrite Forall_forall in IH, Hser. rewrite IH in Hx; auto. discriminate.
  - apply serializable_map in Hser as [Hser _]. cbn [has_opaque].
    rewrite <- not_true_iff_false. intros H.
    apply existsb_exists in H as ([k x] & Hin & Hx).
    rewrite Forall_forall in IH, Hser.
    destruct (Hser _ Hin) as [[s Hk] Hsx]. simpl in Hk, Hsx. subst k.
    destruct (IH _ Hin) as [_ IHx]. simpl in IHx.
    rewrite (IHx Hsx) in Hx. discriminate.
  - simpl in Hser |- *. now rewrite Hser.
Qed.

(** The recorder keeps the calls of the steps it is taken through. *)
Lemma recorder_run (steps : list Step) :
  forall gen ctx,
    existsb is_refusal steps = false ->
    run_steps (Y:=recorder) steps gen ctx = ((gen ++ calls_of steps)%list, ctx, 0).
Proof.
  induction steps as [ | [call_text c | msg] steps IH ]; intros gen ctx Hr;
    cbn [run_steps calls_of].
  - now rewrite app_nil_r.
  - cbn [yajl_gen_emit recorder fst snd yajl_gen_status_is_ok].
    rewrite IH by exact Hr. now rewrite <- app_assoc.
  - discriminate Hr.
Qed.

(** The calls every writer is given for a value that holds nothing opaque,
    as long as it accepts them. *)
Lemma emitted_calls_walk (v : SpnValue) :
  has_opaque v = false -> emitted_calls v = calls_of (walk v).
Proof.
  intros Ho. unfold emitted_calls.
  rewrite generate_recursive_walk, recorder_run; [ reflexivity | ].
  now rewrite refusal_opaque.
Qed.

Section RoundTrip.

Context {Y : Yajl}.

(** What [json_generate] has done when it returns a text. *)
Lemma json_generate_text (v : SpnValue) (ctx : SpnContext) (text : string) :
  json_generate (generate_args v None) ctx
  = Some (mkOutcome 0 (Some (SpnString text)) ctx []) ->
  has_opaque v = false
  /\ accepts_all (calls_of (walk v)) yajl_gen_alloc = true
  /\ generate_recursive yajl_gen_alloc v ctx
     = (emit_all (calls_of (walk v)) yajl_gen_alloc, ctx, 0)
  /\ yajl_gen_get_buf (emit_all (calls_of (walk v)) yajl_gen_alloc)
     = (yajl_gen_status_ok, text).
Proof.
  rewrite json_generate_run. cbn [gen_configured obind].
  destruct (generate_recursive yajl_gen_alloc v ctx) as [[g' c'] e] eqn:Ewalk.
  unfold generate_outcome.
  destruct (e =? 0) eqn:Ee; [ | intros H; inversion H ].
  apply Z.eqb_eq in Ee. subst e.
  rewrite generate_recursive_walk in Ewalk.
  apply run_steps_ok in Ewalk as (Hr & Ha & -> & ->).
  rewrite refusal_opaque in Hr.
  destruct (yajl_gen_get_buf (emit_all (calls_of (walk v)) yajl_gen_alloc))
    as [st buf] eqn:Eb.
  cbn [fst snd]. destruct (yajl_gen_status_is_ok st) eqn:Est;
    [ | intros H; inversion H ].
  apply gen_status_ok in Est. subst st. intros H. inversion H. auto.
Qed.

(** C1 (round trip, up to the nulls).  Let [v] be made of serializable
    variants only (its maps keyed by distinct strings), let [json_generate]
    return the text [text] for it, and let the scanner read back what the
    writer wrote: when the writer has accepted the calls
    [generate_recursive] makes for [v] and hands [text] over, the scanner
    reports for [text] the events of these calls and no error.  Then
    [json_parse] of [text] returns [v] with its nulls as the parser makes
    them: under [parse_null: false] (also the default) every [null_value] of
    [v] has become nil, every nil is still nil, and a key of a map whose
    value is nil is not in the map; under [parse_null: true] every nil has
    become [null_value].  The result is [v] itself exactly when [v] has none
    of the nulls that are replaced and no key that is dropped.  It is a fixed
    point: it is serializable, and it comes back as it is. *)
Theorem roundtrip_modulo_null :
  forall (pn : bool) v text ctx,
    serializable v = true ->
    json_generate (generate_args v None) ctx
    = Some (mkOutcome 0 (Some (SpnString text)) ctx []) ->
    (accepts_all (emitted_calls v) yajl_gen_alloc = true ->
     yajl_gen_get_buf (emit_all (emitted_calls v) yajl_gen_alloc)
     = (yajl_gen_status_ok, text) ->
     clean_run (yajl_scan yajl_alloc text) (read_back [] (emitted_calls v))) ->
    json_parse (parse_args text (Some [(SpnString "parse_null", SpnBool pn)])) ctx
    = Some (mkOutcome 0 (Some (reparsed pn v)) ctx [])
    /\ json_parse (parse_args text None) ctx
       = Some (mkOutcome 0 (Some (reparsed false v)) ctx [])
    /\ (reparsed pn v = v <-> survives pn v = true)
    /\ reparsed pn (reparsed pn v) = reparsed pn v
    /\ serializable (reparsed pn v) = true
    /\ emitted_calls (reparsed true v) = emitted_calls v.
Proof.
  intros pn v text ctx Hser Hgen Hscan.
  apply json_generate_text in Hgen as (Ho & Ha & _ & Hbuf).
  pose proof (emitted_calls_walk v Ho) as Ecalls.
  rewrite Ecalls in Hscan. specialize (Hscan Ha Hbuf).
  apply clean_run_dispatched in Hscan as [Hev Hok].
  rewrite <- (app_nil_r (calls_of (walk v))) in Hev.
  rewrite (read_back_value v Hser [] [] I) in Hev. cbn [read_back] in Hev.
  assert (Hparse : forall en,
            (r <- yajl_deliver (dispatched (yajl_scan yajl_alloc text))
                   (with_explicit_null state_init en) ;;
             Some (parse_outcome (yajl_scan yajl_alloc text) (fst r) ctx))
            = Some (mkOutcome 0 (Some (reparsed en v)) ctx [])).
  { intros en. rewrite Hev, (deliver_value v Hser). cbn.
    unfold parse_outcome. rewrite Hok. reflexivity. }
  split; [ | split ].
  - rewrite json_parse_run. exact (Hparse pn).
  - rewrite json_parse_run. exact (Hparse false).
  - split; [ apply reparsed_fixed | ].
    split; [ apply reparsed_idempotent | ].
    split; [ now apply reparsed_serializable | ].
    rewrite Ecalls, emitted_calls_walk.
    + now apply reparsed_calls.
    + apply serializable_no_opaque. now apply reparsed_serializable.
Qed.

End RoundTrip.

Lemma roundtrip_modulo_null_witness :
  json_parse (Y:=MiniYajl.mini)
    (parse_args text_with_nulls (Some [(SpnString "parse_null", SpnBool true)])) []
  = Some (mkOutcome 0
            (Some (SpnArray [SpnInt 1; null_value;
                             SpnHashMap [(SpnString "k", null_value)]])) [] []).
Proof.
  exact (proj1 (roundtrip_modulo_null (Y:=MiniYajl.mini) true value_with_nulls
                  text_with_nulls [] eq_refl eq_refl
                  (fun _ _ => conj eq_refl (conj eq_refl eq_refl)))).
Defined.

(** C1 does not hold with plain equality, because of the nulls:
    [null_value] is generated as "null" and parsed, with [parse_null] off, to
    nil, which is not equal to it; the nil inside an array is generated as
    "null" and parsed, with [parse_null] on, to [null_value]; and the key of
    a map whose value is [null_value] is, with [parse_null] off, not in the
    map that is parsed. *)
Lemma roundtrip_counterexample :
  serializable null_value = true
  /\ json_generate (Y:=MiniYajl.mini) (generate_args null_value None) []
     = Some (mkOutcome 0 (Some (SpnString "null")) [] [])
  /\ json_parse (Y:=MiniYajl.mini)
       (parse_args "null" (Some [(SpnString "parse_null", SpnBool false)])) []
     = Some (mkOutcome 0 (Some SpnNil) [] [])
  /\ spn_value_equal SpnNil null_value = false
  /\ serializable (SpnArray [SpnNil]) = true
  /\ json_generate (Y:=MiniYajl.mini) (generate_args (SpnArray [SpnNil]) None) []
     = Some (mkOutcome 0 (Some (SpnString "[null]")) [] [])
  /\ json_parse (Y:=MiniYajl.mini)
       (parse_args "[null]" (Some [(SpnString "parse_null", SpnBool true)])) []
     = Some (mkOutcome 0 (Some (SpnArray [null_value])) [] [])
  /\ spn_value_equal (SpnArray [null_value]) (SpnArray [SpnNil]) = false
  /\ serializable (SpnHashMap [(SpnString "k", null_value)]) = true
  /\ json_generate (Y:=MiniYajl.mini)
       (generate_args (SpnHashMap [(SpnString "k", null_value)]) None) []
     = Some (mkOutcome 0 (Some (SpnString text_null_key)) [] [])
  /\ json_parse (Y:=MiniYajl.mini) (parse_args text_null_key None) []
     = Some (mkOutcome 0 (Some (SpnHashMap [])) [] [])
  /\ spn_value_equal (SpnHashMap []) (SpnHashMap [(SpnString "k", null_value)])
     = false.
Proof.
  repeat split.
Qed.

(* ===================================================================== *)
(** ** Sample runs *)
(* ===================================================================== *)

(** A key written twice keeps its place and its last value. *)
Example parse_duplicate_key :
  json_parse (Y:=MiniYajl.mini) (parse_args text_dup_key None) []
  = Some (mkOutcome 0 (Some (SpnHashMap [(SpnString "a", SpnInt 2)])) [] []).
Proof. reflexivity. Qed.

Example parse_nested :
  json_parse (Y:=MiniYajl.mini) (parse_args text_nested None) []
  = Some (mkOutcome 0 (Some value_nested) [] []).
Proof. reflexivity. Qed.

Example generate_nested :
  json_generate (Y:=MiniYajl.mini) (generate_args value_nested None) []
  = Some (mkOutcome 0 (Some (SpnString text_nested)) [] []).
Proof. reflexivity. Qed.

(** A map keyed by a number is refused by the writer at the key. *)
Example generate_number_key :
  json_generate (Y:=MiniYajl.mini)
    (generate_args (SpnHashMap [(SpnInt 1, SpnInt 2)]) None) []
  = Some (mkOutcome (-1) None
            ["YAJL error: yajl_gen_integer(gen, spn_intvalue(&node))"] []).
Proof. reflexivity. Qed.

(* ===================================================================== *)
(** ** More on the parse driver *)
(* ===================================================================== *)

Lemma argc_too_many {A : Type} (a b c : A) (rest : list A) :
  (Z.of_nat (List.length (a :: b :: c :: rest)) >? 2) = true.
Proof.
  apply Z.gtb_lt. cbn [List.length]. lia.
Qed.

Lemma value_done_complete (open open' : list Slot) :
  value_done open = Some (open', true) -> open' = [].
Proof.
  destruct open as [ | [ | | ] below ]; simpl; intros H; inversion H; reflexivity.
Qed.

Lemma lexer_step_complete (g : Grammar) (e : Event) (open' : list Slot) :
  lexer_step g e = Some (open', true) -> open' = [].
Proof.
  destruct g as [open complete]. unfold lexer_step.
  destruct complete; [ discriminate | ].
  destruct e; try apply value_done_complete;
    destruct open as [ | [ | | ] below ]; try discriminate;
    try apply value_done_complete; intros H; inversion H.
Qed.

Lemma lexer_run_complete (evs : list Event) :
  forall g open',
    lexer_run g evs = Some (open', true) ->
    (snd g = true -> fst g = []) ->
    open' = [].
Proof.
  induction evs as [ | e evs IH ]; simpl; intros g open' Hrun Hg.
  - inversion Hrun; subst. now apply Hg.
  - unfold obind in Hrun.
    destruct (lexer_step g e) as [[open1 c1] | ] eqn:Hstep; [ | discriminate ].
    apply (IH _ _ Hrun). simpl. intros ->.
    exact (lexer_step_complete _ _ _ Hstep).
Qed.

Section ParseArguments.

Context {Y : Yajl}.

(** X1.  [json_parse] checks its arguments in a fixed order before it touches
    YAJL: a call with no argument or with more than two returns -1; else a
    first argument that is not a string returns -2 (whatever the second is);
    else a second argument that is not a map returns -3.  Each of these calls
    reports its one message, writes no value and releases nothing.  Any other
    argument vector is a text with or without a config map. *)
Theorem json_parse_argument_errors :
  forall argv ctx,
    ((List.length argv < 1 \/ 2 < List.length argv)%nat ->
     json_parse argv ctx
     = Some (mkOutcome (-1) None
               (spn_ctx_runtime_error ctx "expecting 1 or 2 arguments") []))
    /\ ((1 <= List.length argv <= 2)%nat ->
        spn_isstring (nth 0 argv spn_nilval) = false ->
        json_parse argv ctx
        = Some (mkOutcome (-2) None
                  (spn_ctx_runtime_error ctx "1st argument must be a string") []))
    /\ (List.length argv = 2%nat ->
        spn_isstring (nth 0 argv spn_nilval) = true ->
        spn_ishashmap (nth 1 argv spn_nilval) = false ->
        json_parse argv ctx
        = Some (mkOutcome (-3) None
                  (spn_ctx_runtime_error ctx "2nd argument must be a config object")
                  []))
    /\ ((1 <= List.length argv <= 2)%nat ->
        spn_isstring (nth 0 argv spn_nilval) = true ->
        (List.length argv = 2%nat -> spn_ishashmap (nth 1 argv spn_nilval) = true) ->
        exists text config, argv = parse_args text config).
Proof.
  intros argv ctx.
  destruct argv as [ | a [ | b [ | c rest ] ] ].
  - split; [ reflexivity | ].
    split; [ cbn [List.length]; lia | ].
    split; [ discriminate | cbn [List.length]; lia ].
  - split; [ cbn [List.length]; lia | ].
    split; [ | split; [ discriminate | ] ].
    + intros _ Ha. unfold json_parse. cbn in Ha |- *. now rewrite Ha.
    + intros _ Ha _. destruct a; try discriminate Ha. exists s, None. reflexivity.
  - split; [ cbn [List.length]; lia | ].
    split; [ | split ].
    + intros _ Ha. unfold json_parse. cbn in Ha |- *. now rewrite Ha.
    + intros _ Ha Hb. unfold json_parse. cbn in Ha, Hb |- *. now rewrite Ha, Hb.
    + intros _ Ha Hb. specialize (Hb eq_refl).
      destruct a; try discriminate Ha. destruct b; try discriminate Hb.
      exists s, (Some pairs). reflexivity.
  - split.
    + intros _. unfold json_parse. rewrite argc_too_many, orb_true_r. reflexivity.
    + split; [ cbn [List.length]; lia | ].
      split; [ discriminate | cbn [List.length]; lia ].
Qed.

(** X3.  When the scanner reports a complete, well-nested document and no
    error, the callbacks leave the stack empty: [json_parse] returns 0 and
    the root, leaves the error context alone, and [state_free] has nothing to
    release. *)
Theorem parse_success_leaves_stack_empty :
  forall text config ctx h st0 open,
    configured config = Some (h, st0) ->
    feed_ok (yajl_scan h text) && finish_ok (yajl_scan h text) = true ->
    lexer_run grammar_start (dispatched (yajl_scan h text)) = Some (open, true) ->
    exists state,
      yajl_deliver (dispatched (yajl_scan h text)) st0 = Some (state, true)
      /\ open = []
      /\ stack state = []
      /\ json_parse (parse_args text config) ctx
         = Some (mkOutcome 0 (Some (root state)) ctx []).
Proof.
  intros text config ctx h st0 open Hc Hok Hrun.
  assert (Hm : slots_match grammar_start st0).
  { destruct (configured_total config) as (h' & st0' & Hc' & Hm).
    rewrite Hc in Hc'. inversion Hc'; subst. exact Hm. }
  destruct (deliver_accepted _ _ _ _ Hrun Hm) as (state & Hd & Hms & _).
  assert (Hopen : open = []) by (eapply lexer_run_complete; eauto; discriminate).
  subst open. exists state.
  assert (Hstack : stack state = []).
  { unfold slots_match in Hms. simpl in Hms.
    destruct (stack state); [ reflexivity | discriminate ]. }
  split; [ exact Hd | ]. split; [ reflexivity | ]. split; [ exact Hstack | ].
  rewrite json_parse_run, Hc. cbn [obind fst snd]. rewrite Hd.
  cbn [obind fst]. unfold parse_outcome, state_free. now rewrite Hok, Hstack.
Qed.

End ParseArguments.



(** *** What no event changes *)

Lemma set_value_keeps (state state' : ParserState) (v : SpnValue) :
  set_value state v = Some state' ->
  explicit_null state' = explicit_null state
  /\ (root state' = root state \/ stack state' = []).
Proof.
  unfold set_value. destruct (stack state) as [ | top next ].
  - intros H. inversion H. auto.
  - destruct (value top); try discriminate.
    + intros H. inversion H. auto.
    + unfold obind. destruct (assert _); [ | discriminate ].
      intros H. inversion H. auto.
Qed.

(** Every callback is a push, the storing of a key, or a [set_value] on the
    state itself or on the state a pop leaves. *)
Lemma callback_keeps (e : Event) (state state' : ParserState) (r : Z) :
  parser_callbacks e state = Some (state', r) ->
  explicit_null state' = explicit_null state
  /\ (root state' = root state \/ stack state' = []).
Proof.
  assert (Hset : forall v,
            (s <- set_value state v ;; Some (s, 1)) = Some (state', r) ->
            explicit_null state' = explicit_null state
            /\ (root state' = root state \/ stack state' = [])).
  { intros v H. unfold obind in H.
    destruct (set_value state v) as [s | ] eqn:E; [ | discriminate ].
    inversion H; subst. exact (set_value_keeps _ _ _ E). }
  assert (Hpush : forall c,
            (s <- state_push state c ;; Some (s, 1)) = Some (state', r) ->
            explicit_null state' = explicit_null state
            /\ (root state' = root state \/ stack state' = [])).
  { intros c H. unfold state_push, obind in H.
    destruct (assert _); [ | discriminate ]. inversion H. auto. }
  assert (Hpop :
            (p <- state_pop state ;; s <- set_value (snd p) (fst p) ;; Some (s, 1))
            = Some (state', r) ->
            explicit_null state' = explicit_null state
            /\ (root state' = root state \/ stack state' = [])).
  { unfold state_pop, obind. destruct (stack state) as [ | top next ];
      [ discriminate | ].
    destruct (assert _); [ | discriminate ]. cbn [fst snd].
    destruct (set_value _ (value top)) as [s | ] eqn:E; [ | discriminate ].
    intros H. inversion H; subst. exact (set_value_keeps _ _ _ E). }
  destruct e; simpl;
    unfold cb_null, cb_boolean, cb_integer, cb_double, cb_string,
      cb_start_map, cb_end_map, cb_start_array, cb_end_array;
    try apply Hset; try apply Hpush; try apply Hpop.
  unfold cb_map_key, obind. destruct (stack state) as [ | top next ];
    [ discriminate | ].
  destruct (assert _); [ | discriminate ]. intros H. inversion H. auto.
Qed.

Lemma callback_explicit_null (e : Event) (state state' : ParserState) (r : Z) :
  parser_callbacks e state = Some (state', r) ->
  explicit_null state' = explicit_null state.
Proof. intros H. exact (proj1 (callback_keeps _ _ _ _ H)). Qed.

(** X5.  No callback writes [explicit_null]: whatever events arrive, in
    whatever order, the flag set from the "parse_null" option before the scan
    is the one every later null event is built with. *)
Theorem explicit_null_never_changes :
  forall evs state state' go_on,
    yajl_deliver evs state = Some (state', go_on) ->
    explicit_null state' = explicit_null state
    /\ cb_null state'
       = (s <- set_value state'
                 (if explicit_null state then null_value else spn_nilval) ;;
          Some (s, 1)).
Proof.
  assert (H : forall evs state state' go_on,
            yajl_deliver evs state = Some (state', go_on) ->
            explicit_null state' = explicit_null state).
  { induction evs as [ | e evs IH ]; simpl; intros state state' go_on Hd.
    - now inversion Hd.
    - unfold obind in Hd.
      destruct (parser_callbacks e state) as [[s r] | ] eqn:E; [ | discriminate ].
      apply callback_explicit_null in E. simpl in Hd.
      destruct (r =? 0).
      + inversion Hd; subst. exact E.
      + rewrite <- E. eauto. }
  intros evs state state' go_on Hd. split; [ eauto | ].
  unfold cb_null. now rewrite (H _ _ _ _ Hd).
Qed.

Lemma explicit_null_never_changes_witness :
  exists state',
    yajl_deliver [EvStartMap; EvMapKey "k"; EvStartArray; EvNull]
                 (with_explicit_null state_init true) = Some (state', true)
    /\ explicit_null state' = true.
Proof.
  eexists. split; [ reflexivity | ].
  exact (proj1 (explicit_null_never_changes
                  [EvStartMap; EvMapKey "k"; EvStartArray; EvNull]
                  (with_explicit_null state_init true) _ true eq_refl)).
Defined.

Lemma callback_root (e : Event) (state state' : ParserState) (r : Z) :
  parser_callbacks e state = Some (state', r) ->
  root state' = root state \/ stack state' = [].
Proof. intros H. exact (proj2 (callback_keeps _ _ _ _ H)). Qed.

Lemma lexer_step_open (g : Grammar) (e : Event) (open' : list Slot) :
  lexer_step g e = Some (open', false) -> open' <> [].
Proof.
  destruct g as [open complete]. unfold lexer_step.
  destruct complete; [ discriminate | ].
  destruct e; destruct open as [ | [ | | ] below ]; simpl;
    try discriminate; intros H; inversion H; try discriminate;
    destruct below as [ | [ | | ] below' ]; simpl in *; inversion H; discriminate.
Qed.

Lemma lexer_run_from_complete (evs : list Event) (open open' : list Slot) :
  lexer_run (open, true) evs = Some (open', false) -> False.
Proof.
  destruct evs; simpl; intros H; inversion H.
Qed.

(** X6.  The root is written only by a value that completes on an empty
    stack: after any well-nested sequence of events that has not yet
    completed the top-level value, the callbacks have run and the root is
    still nil (so the root a failed parse of an unfinished document releases
    is nil). *)
Theorem root_unset_until_complete :
  forall en evs open,
    lexer_run grammar_start evs = Some (open, false) ->
    exists state,
      yajl_deliver evs (with_explicit_null state_init en) = Some (state, true)
      /\ root state = SpnNil.
Proof.
  intros en evs open Hrun.
  assert (H : forall evs g state,
            lexer_run g evs = Some (open, false) ->
            slots_match g state -> root state = SpnNil ->
            exists state',
              yajl_deliver evs state = Some (state', true)
              /\ root state' = SpnNil).
  { clear. induction evs as [ | e evs IH ]; simpl; intros g state Hrun Hm Hroot.
    - eauto.
    - unfold obind in Hrun.
      destruct (lexer_step g e) as [[o1 c1] | ] eqn:Hstep; [ | discriminate ].
      destruct c1; [ now apply lexer_run_from_complete in Hrun | ].
      destruct (callback_accepted _ _ e _ Hstep Hm) as (s1 & Hcb & Hm1 & _).
      assert (Hroot1 : root s1 = SpnNil).
      { destruct (callback_root _ _ _ _ Hcb) as [Hr | Hs]; [ congruence | ].
        apply lexer_step_open in Hstep. unfold slots_match in Hm1.
        rewrite Hs in Hm1. simpl in Hm1. destruct o1; [ contradiction | discriminate ]. }
      destruct (IH _ _ Hrun Hm1 Hroot1) as (s2 & Hd & Hr2).
      exists s2. rewrite Hcb. simpl. auto. }
  exact (H evs grammar_start _ Hrun (start_matches en) eq_refl).
Qed.

Lemma root_unset_until_complete_witness :
  exists state,
    yajl_deliver [EvStartArray; EvInteger 1; EvStartMap; EvMapKey "k"; EvNull]
                 (with_explicit_null state_init false) = Some (state, true)
    /\ root state = SpnNil.
Proof.
  exact (root_unset_until_complete false
           [EvStartArray; EvInteger 1; EvStartMap; EvMapKey "k"; EvNull]
           [MapNeedKey; InArray] eq_refl).
Defined.

(** *** What every reachable state is made of *)

Lemma string_equal_sym (s : string) (x : SpnValue) :
  spn_value_equal (SpnString s) x = spn_value_equal x (SpnString s).
Proof.
  destruct x; try reflexivity. simpl. apply String.eqb_sym.
Qed.

Lemma distinct_keys_snoc (keys : list SpnValue) (s : string) :
  distinct_keys keys = true ->
  existsb (fun k' => spn_value_equal k' (SpnString s)) keys = false ->
  distinct_keys (keys ++ [SpnString s]) = true.
Proof.
  induction keys as [ | k rest IH ]; simpl; intros Hd He; [ reflexivity | ].
  apply andb_prop in Hd as [Hk Hrest].
  apply orb_false_iff in He as [Hks Hes].
  rewrite IH by assumption. rewrite andb_true_r.
  rewrite existsb_app. cbn [existsb]. rewrite orb_false_r.
  apply negb_true_iff in Hk. rewrite Hk. cbn [orb].
  rewrite string_equal_sym. now rewrite Hks.
Qed.

Lemma hashmap_set_serializable (hm : list (SpnValue * SpnValue)) (s : string)
  (v : SpnValue) :
  serializable (SpnHashMap hm) = true ->
  serializable v = true ->
  serializable (SpnHashMap (spn_hashmap_set hm (SpnString s) v)) = true.
Proof.
  cbn [serializable]. intros Hm Hv.
  apply andb_prop in Hm as [Hall Hd].
  unfold spn_hashmap_set. destruct (spn_isnil v) eqn:Enil.
  - unfold spn_hashmap_delete. apply andb_true_intro. split.
    + apply forallb_forall. intros kv Hin. apply filter_In in Hin as [Hin _].
      rewrite forallb_forall in Hall. auto.
    + now apply distinct_keys_filter.
  - apply andb_true_intro. split.
    + clear Hd. induction hm as [ | [k x] rest IH ]; simpl.
      * now rewrite Hv.
      * simpl in Hall. apply andb_prop in Hall as [Hkx Hrest].
        apply andb_prop in Hkx as [Hk Hx].
        destruct (spn_value_equal k (SpnString s)); simpl.
        -- now rewrite Hk, Hv, Hrest.
        -- now rewrite Hk, Hx, IH.
    + rewrite hashmap_put_keys.
      destruct (existsb _ (List.map fst hm)) eqn:E; [ exact Hd | ].
      now apply distinct_keys_snoc.
Qed.

Lemma set_value_wf (state state' : ParserState) (v : SpnValue) :
  state_wf state = true -> serializable v = true ->
  set_value state v = Some state' ->
  state_wf state' = true.
Proof.
  unfold state_wf, set_value. intros Hwf Hv.
  apply andb_prop in Hwf as [Hroot Hst].
  destruct (stack state) as [ | top next ].
  - intros H. inversion H. simpl. now rewrite Hv.
  - simpl in Hst. apply andb_prop in Hst as [Htop Hnext].
    unfold node_wf in Htop.
    apply andb_prop in Htop as [Htop Hkey]. apply andb_prop in Htop as [_ Hval].
    destruct (value top) eqn:Eval; try discriminate.
    + intros H. inversion H. simpl. rewrite Hroot, Hnext.
      unfold node_wf. simpl. rewrite Hkey.
      unfold spn_array_push. rewrite forallb_app. simpl in Hval |- *.
      now rewrite Hval, Hv.
    + unfold obind, assert. destruct (key top) eqn:Ekey; try discriminate.
      simpl. intros H. inversion H. simpl. rewrite Hroot, Hnext.
      unfold node_wf. cbn [value key spn_isarray spn_ishashmap spn_isnil orb andb].
      now rewrite (hashmap_set_serializable _ _ _ Hval Hv).
Qed.

Lemma callback_wf (e : Event) (state state' : ParserState) (r : Z) :
  state_wf state = true ->
  parser_callbacks e state = Some (state', r) ->
  state_wf state' = true.
Proof.
  intros Hwf.
  assert (Hset : forall v,
            serializable v = true ->
            (s <- set_value state v ;; Some (s, 1)) = Some (state', r) ->
            state_wf state' = true).
  { intros v Hv H. unfold obind in H.
    destruct (set_value state v) as [s | ] eqn:E; [ | discriminate ].
    inversion H; subst. exact (set_value_wf _ _ _ Hwf Hv E). }
  assert (Hpush : forall c,
            serializable c = true ->
            (s <- state_push state c ;; Some (s, 1)) = Some (state', r) ->
            state_wf state' = true).
  { intros c Hc H. unfold state_push, obind, assert in H.
    destruct (spn_isarray c || spn_ishashmap c)%bool eqn:Ec; [ | discriminate ].
    inversion H. unfold state_wf in Hwf |- *. simpl.
    unfold node_wf at 1. simpl. now rewrite Ec, Hc. }
  assert (Hpop :
            (p <- state_pop state ;; s <- set_value (snd p) (fst p) ;; Some (s, 1))
            = Some (state', r) ->
            state_wf state' = true).
  { unfold state_pop, obind. destruct (stack state) as [ | top next ] eqn:Est;
      [ discriminate | ].
    destruct (assert _); [ | discriminate ]. cbn [fst snd].
    destruct (set_value _ (value top)) as [s | ] eqn:E; [ | discriminate ].
    intros H. inversion H; subst.
    unfold state_wf in Hwf. rewrite Est in Hwf. simpl in Hwf.
    apply andb_prop in Hwf as [Hroot Hst]. apply andb_prop in Hst as [Htop Hnext].
    unfold node_wf in Htop.
    apply andb_prop in Htop as [Htop _]. apply andb_prop in Htop as [_ Hval].
    refine (set_value_wf _ _ _ _ Hval E).
    unfold state_wf. simpl. now rewrite Hroot, Hnext. }
  destruct e; simpl;
    unfold cb_null, cb_boolean, cb_integer, cb_double, cb_string,
      cb_start_map, cb_end_map, cb_start_array, cb_end_array;
    try (apply Hset; reflexivity); try (apply Hpush; reflexivity);
    try apply Hpop.
  - apply Hset. destruct (explicit_null state); reflexivity.
  - unfold cb_map_key, obind. destruct (stack state) as [ | top next ] eqn:Est;
      [ discriminate | ].
    destruct (assert _); [ | discriminate ]. intros H. inversion H.
    unfold state_wf in Hwf |- *. rewrite Est in Hwf. simpl in Hwf |- *.
    apply andb_prop in Hwf as [Hroot Hst]. apply andb_prop in Hst as [Htop Hnext].
    rewrite Hroot, Hnext. unfold node_wf in Htop |- *. simpl.
    apply andb_prop in Htop as [Htop _]. now rewrite Htop.
Qed.

Lemma deliver_wf (evs : list Event) :
  forall state state' go_on,
    state_wf state = true ->
    yajl_deliver evs state = Some (state', go_on) ->
    state_wf state' = true.
Proof.
  induction evs as [ | e evs IH ]; simpl; intros state state' go_on Hwf Hd.
  - inversion Hd; subst. exact Hwf.
  - unfold obind in Hd.
    destruct (parser_callbacks e state) as [[s r] | ] eqn:E; [ | discriminate ].
    pose proof (callback_wf _ _ _ _ Hwf E) as Hs. simpl in Hd.
    destruct (r =? 0); [ inversion Hd; subst; exact Hs | eauto ].
Qed.


(** X8.  Whatever events the callbacks have been through from a fresh state
    (well nested or not), every frame of the stack holds an array or a map
    and its pending key is nil or a string.  So the last assertion of
    [set_value] ("cannot add value to non-collection object") never fails,
    and [set_value] fails in exactly one situation: a value arrives while the
    innermost frame is a map without a pending key. *)
Theorem only_pending_key_can_fail :
  forall en evs state go_on,
    yajl_deliver evs (with_explicit_null state_init en) = Some (state, go_on) ->
    Forall (fun node =>
              (spn_isarray (value node) || spn_ishashmap (value node) = true)%bool
              /\ (spn_isnil (key node) || spn_isstring (key node) = true)%bool)
           (stack state)
    /\ forall v,
         set_value state v = None
         <-> exists top next,
               stack state = top :: next
               /\ spn_ishashmap (value top) = true
               /\ key top = SpnNil.
Proof.
  intros en evs state go_on Hd.
  assert (Hwf : state_wf state = true) by (eapply deliver_wf; eauto; reflexivity).
  unfold state_wf in Hwf. apply andb_prop in Hwf as [_ Hst].
  rewrite forallb_forall in Hst.
  split.
  - apply Forall_forall. intros node Hin. specialize (Hst _ Hin).
    unfold node_wf in Hst. apply andb_prop in Hst as [H1 H2].
    apply andb_prop in H1 as [H1 _]. auto.
  - intros v. unfold set_value.
    destruct (stack state) as [ | top next ].
    + split; [ discriminate | intros (t & n & H & _); discriminate ].
    + specialize (Hst top (or_introl eq_refl)). unfold node_wf in Hst.
      apply andb_prop in Hst as [H1 Hkey]. apply andb_prop in H1 as [Hcoll _].
      destruct (value top) eqn:Eval; try discriminate Hcoll.
      * split; [ discriminate | ].
        intros (t & n & H & Hm & _). inversion H; subst.
        rewrite Eval in Hm. discriminate.
      * destruct (key top) eqn:Ekey; try discriminate Hkey.
        -- split; [ | reflexivity ]. intros _. exists top, next.
           rewrite Eval. auto.
        -- split; [ discriminate | ].
           intros (t & n & H & _ & Hk). inversion H; subst. congruence.
Qed.

Lemma only_pending_key_can_fail_witness :
  set_value
    (mkParserState SpnNil [mkStackNode SpnNil (SpnHashMap [])] false) (SpnInt 1)
  = None.
Proof.
  apply (proj2 (only_pending_key_can_fail false [EvStartMap] _ true eq_refl)).
  eexists. eexists. repeat split.
Defined.

Lemma json_parse_value_args {Y : Yajl} (argv : list SpnValue) (ctx : SpnContext)
  (o : Outcome) (v : SpnValue) :
  json_parse argv ctx = Some o -> ret o = Some v ->
  exists text config, argv = parse_args text config.
Proof.
  destruct argv as [ | a [ | b [ | c rest ] ] ]; unfold json_parse.
  - cbn. intros H; inversion H; subst; discriminate.
  - destruct a; cbn [List.length Z.of_nat Pos.of_succ_nat Z.ltb Z.gtb Z.compare
                       Pos.compare Pos.compare_cont orb nth spn_isstring negb];
      try (intros H; inversion H; subst; discriminate).
    intros _ _. exists s, None. reflexivity.
  - destruct a; cbn [List.length Z.of_nat Pos.of_succ_nat Pos.succ Z.ltb Z.gtb
                       Z.geb Z.compare Pos.compare Pos.compare_cont orb andb nth
                       spn_isstring negb];
      try (intros H; inversion H; subst; discriminate).
    destruct b; cbn [spn_ishashmap negb];
      try (intros H; inversion H; subst; discriminate).
    intros _ _. exists s, (Some pairs). reflexivity.
  - rewrite argc_too_many, orb_true_r. intros H; inversion H; subst; discriminate.
Qed.

Section ParseResult.

Context {Y : Yajl}.

(** X7.  Whatever [json_parse] is called with and whatever the scanner
    reports, a value it returns is made of serializable variants only, every
    map in it keyed by distinct strings; it holds no function and no foreign
    user-info, so the emitter never refuses it. *)
Theorem parse_result_serializable :
  forall argv ctx o v,
    json_parse argv ctx = Some o ->
    ret o = Some v ->
    serializable v = true /\ has_opaque v = false.
Proof.
  intros argv ctx o v Hp Hret.
  assert (Hser : serializable v = true).
  { destruct (json_parse_value_args _ _ _ _ Hp Hret) as (text & config & ->).
    rewrite json_parse_run in Hp.
    destruct (configured_total config) as (h & st0 & Hc & _).
    rewrite Hc in Hp. cbn [obind fst snd] in Hp.
    assert (Hwf0 : state_wf st0 = true).
    { destruct config; simpl in Hc; inversion Hc; reflexivity. }
    destruct (yajl_deliver _ st0) as [[s b] | ] eqn:Hd; [ | discriminate ].
    cbn [obind fst] in Hp. inversion Hp; subst o; clear Hp.
    pose proof (deliver_wf _ _ _ _ Hwf0 Hd) as Hwf.
    unfold parse_outcome in Hret.
    destruct (feed_ok _ && finish_ok _)%bool; simpl in Hret; [ | discriminate ].
    inversion Hret; subst. unfold state_wf in Hwf.
    now apply andb_prop in Hwf as [Hroot _]. }
  split; [ exact Hser | now apply serializable_no_opaque ].
Qed.

End ParseResult.

Lemma parse_result_serializable_witness :
  serializable (SpnHashMap [(SpnString "a", SpnInt 2)]) = true
  /\ has_opaque (SpnHashMap [(SpnString "a", SpnInt 2)]) = false.
Proof.
  exact (parse_result_serializable (Y:=MiniYajl.mini)
           (parse_args text_dup_key None) [] _ _ eq_refl eq_refl).
Defined.

(** *** A key written more than once *)

Lemma build_map_snoc (en : bool) (pairs : list (string * SpnValue))
  (s : string) (x : SpnValue) :
  build_map en (pairs ++ [(s, x)])
  = spn_hashmap_set (build_map en pairs) (SpnString s) (reparsed en x).
Proof.
  unfold build_map. now rewrite fold_left_app.
Qed.

Lemma last_written_snoc (k s : string) (x : SpnValue)
  (pairs : list (string * SpnValue)) :
  last_written k (pairs ++ [(s, x)])
  = if String.eqb s k then Some x else last_written k pairs.
Proof.
  unfold last_written. rewrite rev_app_distr. cbn [rev app find fst].
  now destruct (String.eqb s k).
Qed.

Lemma build_map_get (en : bool) (pairs : list (string * SpnValue)) (k : string) :
  spn_hashmap_get_strkey (build_map en pairs) k
  = match last_written k pairs with
    | Some x => reparsed en x
    | None => SpnNil
    end.
Proof.
  induction pairs as [ | [s x] pairs IH ] using rev_ind; [ reflexivity | ].
  rewrite build_map_snoc, hashmap_get_set, last_written_snoc.
  rewrite (String.eqb_sym s k).
  destruct (String.eqb k s); [ reflexivity | exact IH ].
Qed.

Lemma existsb_string_key (s : string) (keys : list string) :
  existsb (fun k' => spn_value_equal k' (SpnString s)) (List.map SpnString keys) = true
  <-> In s keys.
Proof.
  rewrite existsb_exists. split.
  - intros (k & Hin & Hk). apply in_map_iff in Hin as (s' & <- & Hin).
    simpl in Hk. apply String.eqb_eq in Hk. now subst.
  - intros Hin. exists (SpnString s). split; [ now apply in_map | ].
    simpl. apply String.eqb_refl.
Qed.

Lemma hashmap_set_distinct (hm : list (SpnValue * SpnValue)) (s : string)
  (v : SpnValue) :
  distinct_keys (List.map fst hm) = true ->
  distinct_keys (List.map fst (spn_hashmap_set hm (SpnString s) v)) = true.
Proof.
  intros Hd. unfold spn_hashmap_set. destruct (spn_isnil v).
  - now apply distinct_keys_filter.
  - rewrite hashmap_put_keys.
    destruct (existsb _ (List.map fst hm)) eqn:E; [ exact Hd | ].
    now apply distinct_keys_snoc.
Qed.

(** The keys of a map after a write. *)
Lemma hashmap_set_in (hm : list (SpnValue * SpnValue)) (s k : string)
  (v : SpnValue) :
  In (SpnString k) (List.map fst (spn_hashmap_set hm (SpnString s) v))
  <-> (k = s /\ spn_isnil v = false)
      \/ (k <> s /\ In (SpnString k) (List.map fst hm)).
Proof.
  rewrite hashmap_set_keys. destruct (spn_isnil v).
  - rewrite filter_In. cbn [spn_value_equal]. rewrite negb_true_iff. split.
    + intros [Hin Hne]. right. split; [ | exact Hin ].
      intros ->. now rewrite String.eqb_refl in Hne.
    + intros [[_ H] | [Hne Hin]]; [ discriminate H | ].
      split; [ exact Hin | ]. now apply String.eqb_neq.
  - destruct (existsb _ (List.map fst hm)) eqn:E.
    + split.
      * intros Hin. destruct (string_dec k s); auto.
      * intros [[-> _] | [_ Hin]]; [ | exact Hin ].
        apply existsb_exists in E as (k' & Hin & Hk).
        apply string_key_equal in Hk. now subst k'.
    + rewrite in_app_iff. split.
      * intros [Hin | [H | []]].
        -- right. split; [ | exact Hin ]. intros ->.
           rewrite <- not_true_iff_false in E. apply E.
           apply existsb_exists. exists (SpnString s). split; [ exact Hin | ].
           simpl. apply String.eqb_refl.
        -- inversion H. auto.
      * intros [[-> _] | [_ Hin]]; [ right; now left | now left ].
Qed.

Lemma build_map_distinct (en : bool) (pairs : list (string * SpnValue)) :
  distinct_keys (List.map fst (build_map en pairs)) = true.
Proof.
  induction pairs as [ | [s x] pairs IH ] using rev_ind; [ reflexivity | ].
  rewrite build_map_snoc. now apply hashmap_set_distinct.
Qed.

Lemma build_map_in (en : bool) (pairs : list (string * SpnValue)) (k : string) :
  In (SpnString k) (List.map fst (build_map en pairs))
  <-> exists x, last_written k pairs = Some x /\ spn_isnil (reparsed en x) = false.
Proof.
  induction pairs as [ | [s x] pairs IH ] using rev_ind.
  - split; [ intros [] | intros (x & H & _); discriminate H ].
  - rewrite build_map_snoc, hashmap_set_in, last_written_snoc.
    destruct (String.eqb s k) eqn:E.
    + apply String.eqb_eq in E. subst s. split.
      * intros [[_ H] | [Hne _]]; [ eauto | now elim Hne ].
      * intros (x0 & H & Hnil). inversion H; subst. auto.
    + apply String.eqb_neq in E. rewrite <- IH. split.
      * intros [[-> _] | [_ H]]; [ now elim E | exact H ].
      * intros H. right. split; [ congruence | exact H ].
Qed.

Lemma build_map_keys (en : bool) (pairs : list (string * SpnValue)) :
  Forall (fun kv => spn_isnil (reparsed en (snd kv)) = false) pairs ->
  List.map fst (build_map en pairs)
  = List.map SpnString (first_occurrences (List.map fst pairs)).
Proof.
  induction pairs as [ | [s x] pairs IH ] using rev_ind; [ reflexivity | ].
  intros Hall. apply Forall_app in Hall as [Hall Hx].
  inversion Hx as [ | ? ? Hnil _ ]; subst. cbn [snd] in Hnil.
  rewrite build_map_snoc, hashmap_set_keys, Hnil, (IH Hall).
  unfold first_occurrences. rewrite List.map_app, rev_app_distr.
  cbn [List.map fst rev app nodup].
  destruct (in_dec string_dec s (rev (List.map fst pairs))) as [Hin | Hout].
  - assert (E : existsb (fun k' => spn_value_equal k' (SpnString s))
                  (List.map SpnString (rev (nodup string_dec (rev (List.map fst pairs)))))
                = true).
    { apply existsb_string_key. apply -> in_rev. now apply nodup_In. }
    now rewrite E.
  - assert (E : existsb (fun k' => spn_value_equal k' (SpnString s))
                  (List.map SpnString (rev (nodup string_dec (rev (List.map fst pairs)))))
                = false).
    { rewrite <- not_true_iff_false. intros H. apply existsb_string_key in H.
      apply in_rev in H. apply nodup_In in H. contradiction. }
    rewrite E. cbn [rev]. now rewrite List.map_app.
Qed.

Lemma deliver_pairs (en : bool) (pairs : list (string * SpnValue)) :
  Forall (fun kv => serializable (snd kv) = true) pairs ->
  forall acc tail r nodes,
    yajl_deliver
      (flat_map (fun kv => let '(k, val) := kv in
                           EvMapKey (spn_stringvalue k) :: value_events val)
                (string_pairs pairs) ++ tail)
      (mkParserState r (mkStackNode SpnNil (SpnHashMap acc) :: nodes) en)
    = yajl_deliver tail
        (mkParserState r
           (mkStackNode SpnNil
              (SpnHashMap
                 (fold_left (fun acc kv =>
                               spn_hashmap_set acc (SpnString (fst kv))
                                 (reparsed en (snd kv))) pairs acc)) :: nodes)
           en).
Proof.
  induction 1 as [ | [s x] pairs Hx _ IH ]; intros acc tail r nodes.
  - reflexivity.
  - simpl in Hx. cbn [string_pairs List.map flat_map fst snd spn_stringvalue].
    cbn [app yajl_deliver parser_callbacks]. unfold cb_map_key. cbn.
    rewrite <- app_assoc, (deliver_value x Hx). cbn -[spn_hashmap_set].
    apply IH.
Qed.

(** X4.  When the pairs of one JSON object arrive (keys possibly repeated,
    values of any serializable shape), the builder makes one map of them.
    Every key reads the value written for it last.  No key appears twice.  A
    key is in the map exactly when the value written for it last is not a
    nil, which a null is with [parse_null] off: such a null takes the key
    out, also when an earlier value was written for it.  When no written
    value is such a nil, the keys are in the order of their first
    occurrence. *)
Theorem duplicate_keys_last_write_wins :
  forall en pairs,
    Forall (fun kv => serializable (snd kv) = true) pairs ->
    yajl_deliver (value_events (SpnHashMap (string_pairs pairs)))
                 (with_explicit_null state_init en)
    = Some (mkParserState (SpnHashMap (build_map en pairs)) [] en, true)
    /\ (forall k,
          spn_hashmap_get_strkey (build_map en pairs) k
          = match last_written k pairs with
            | Some x => reparsed en x
            | None => SpnNil
            end)
    /\ distinct_keys (List.map fst (build_map en pairs)) = true
    /\ (forall k,
          In (SpnString k) (List.map fst (build_map en pairs))
          <-> exists x, last_written k pairs = Some x
                        /\ spn_isnil (reparsed en x) = false)
    /\ (Forall (fun kv => spn_isnil (reparsed en (snd kv)) = false) pairs ->
        List.map fst (build_map en pairs)
        = List.map SpnString (first_occurrences (List.map fst pairs)))
    /\ NoDup (first_occurrences (List.map fst pairs)).
Proof.
  intros en pairs Hser. split; [ | split; [ | split; [ | split; [ | split ] ] ] ].
  - cbn [value_events yajl_deliver parser_callbacks].
    unfold cb_start_map, state_push, with_explicit_null, state_init,
      spn_makehashmap, spn_nilval. cbn.
    rewrite (deliver_pairs en pairs Hser). now rewrite deliver_end.
  - intros k. apply build_map_get.
  - apply build_map_distinct.
  - intros k. apply build_map_in.
  - apply build_map_keys.
  - unfold first_occurrences. apply NoDup_rev. apply NoDup_nodup.
Qed.

Lemma duplicate_keys_last_write_wins_witness :
  yajl_deliver
    [EvStartMap; EvMapKey "a"; EvInteger 1; EvMapKey "b"; EvNull;
     EvMapKey "a"; EvInteger 2; EvEndMap]
    (with_explicit_null state_init true)
  = Some (mkParserState
            (SpnHashMap [(SpnString "a", SpnInt 2); (SpnString "b", null_value)])
            [] true, true).
Proof.
  refine (proj1 (duplicate_keys_last_write_wins true
                   [("a", SpnInt 1); ("b", SpnNil); ("a", SpnInt 2)] _)).
  repeat constructor.
Defined.

(* ===================================================================== *)
(** ** More on the emitter *)
(* ===================================================================== *)

Section EmitterRuns.

Context {Y : Yajl}.

(** X9.  [generate_recursive] returns 0 exactly when the value holds nothing
    opaque and the writer accepts every call of the walk; the writer is then
    left as those calls, made in the order of the walk, leave it, and the
    error context is untouched.  [json_generate] returns a text exactly when,
    in addition, the writer hands its buffer over: the text is that buffer. *)
Theorem generate_success :
  (forall gen v ctx gen' ctx',
     generate_recursive gen v ctx = (gen', ctx', 0)
     <-> has_opaque v = false
         /\ accepts_all (calls_of (walk v)) gen = true
         /\ gen' = emit_all (calls_of (walk v)) gen
         /\ ctx' = ctx)
  /\ (forall v config ctx text g0,
        gen_configured config = Some g0 ->
        json_generate (generate_args v config) ctx
        = Some (mkOutcome 0 (Some (SpnString text)) ctx [])
        <-> has_opaque v = false
            /\ accepts_all (calls_of (walk v)) g0 = true
            /\ yajl_gen_get_buf (emit_all (calls_of (walk v)) g0)
               = (yajl_gen_status_ok, text)).
Proof.
  assert (Hwalk : forall gen v ctx gen' ctx',
            generate_recursive gen v ctx = (gen', ctx', 0)
            <-> has_opaque v = false
                /\ accepts_all (calls_of (walk v)) gen = true
                /\ gen' = emit_all (calls_of (walk v)) gen
                /\ ctx' = ctx).
  { intros gen v ctx gen' ctx'.
    rewrite generate_recursive_walk, run_steps_ok, refusal_opaque. reflexivity. }
  split; [ exact Hwalk | ].
  intros v config ctx text g0 Hc. rewrite json_generate_run, Hc. cbn [obind].
  destruct (generate_recursive g0 v ctx) as [[g' c'] e] eqn:Ewalk.
  unfold generate_outcome. split.
  - destruct (e =? 0) eqn:Ee; [ | intros H; inversion H ].
    apply Z.eqb_eq in Ee. subst e. apply Hwalk in Ewalk as (Ho & Ha & -> & ->).
    destruct (yajl_gen_get_buf (emit_all (calls_of (walk v)) g0)) as [st buf] eqn:Eb.
    cbn [fst snd]. destruct (yajl_gen_status_is_ok st) eqn:Est;
      [ | intros H; inversion H ].
    apply gen_status_ok in Est. subst st. intros H. inversion H. auto.
  - intros (Ho & Ha & Hb).
    assert (E : generate_recursive g0 v ctx
                = (emit_all (calls_of (walk v)) g0, ctx, 0))
      by (apply Hwalk; auto).
    rewrite E in Ewalk. inversion Ewalk; subst. cbn. now rewrite Hb.
Qed.

(** X10.  A value that holds, at any depth, a function or a user-info other
    than [null_value] is never serialized, whatever the writer and the
    options: [json_generate] returns -1, writes no text and reports one
    message.  The message is one of the two refusals, "found non-serializable
    value" (user-info) or "found value of unknown type" (function), unless the
    writer itself failed on an earlier call. *)
Theorem opaque_value_never_serialized :
  forall v config ctx,
    has_opaque v = true ->
    exists o msg,
      json_generate (generate_args v config) ctx = Some o
      /\ rv o = -1
      /\ ret o = None
      /\ ctx_after o = spn_ctx_runtime_error ctx msg
      /\ (msg = "found non-serializable value"
          \/ msg = "found value of unknown type"
          \/ exists call_text, msg = "YAJL error: " ++ call_text)
      /\ ((forall g c, yajl_gen_status_is_ok (fst (yajl_gen_emit g c)) = true) ->
          msg = "found non-serializable value"
          \/ msg = "found value of unknown type").
Proof.
  intros v config ctx Hop.
  destruct (gen_configured_total config) as [g0 Hc].
  rewrite json_generate_run, Hc. cbn [obind].
  destruct (generate_recursive g0 v ctx) as [[g' c'] e] eqn:Ewalk.
  assert (He : e <> 0).
  { intros ->. rewrite generate_recursive_walk in Ewalk.
    apply run_steps_ok in Ewalk as (Hr & _). rewrite refusal_opaque in Hr.
    congruence. }
  rewrite generate_recursive_walk in Ewalk.
  destruct (run_steps_failure _ _ _ _ _ _ Ewalk He)
    as (done & failing & rest & g1 & Hw & _ & Hfail & _ & -> & ->).
  exists (mkOutcome (-1) None (spn_ctx_runtime_error ctx (step_message failing)) []),
         (step_message failing).
  split; [ reflexivity | ]. do 3 (split; [ reflexivity | ]).
  assert (Hin : In failing (walk v)) by (rewrite Hw; apply in_elt).
  destruct failing as [call_text c | msg]; cbn [step_message].
  - split; [ eauto | ]. intros Hall. simpl in Hfail. rewrite Hall in Hfail.
    discriminate.
  - pose proof (refusal_messages _ _ Hin) as Hm. split; [ tauto | auto ].
Qed.

(** X2.  [json_generate] checks its arguments before it allocates a writer: a
    call with no argument or with more than two returns -1, a second argument
    that is not a map returns -2, each with its one message and no text.  The
    first argument is not checked at all: a value of any type goes on to the
    walk. *)
Theorem json_generate_argument_errors :
  forall argv ctx,
    ((List.length argv < 1 \/ 2 < List.length argv)%nat ->
     json_generate argv ctx
     = Some (mkOutcome (-1) None
               (spn_ctx_runtime_error ctx "expecting 1 or 2 arguments") []))
    /\ (List.length argv = 2%nat ->
        spn_ishashmap (nth 1 argv spn_nilval) = false ->
        json_generate argv ctx
        = Some (mkOutcome (-2) None
                  (spn_ctx_runtime_error ctx "2nd argument must be a config object")
                  []))
    /\ ((1 <= List.length argv <= 2)%nat ->
        (List.length argv = 2%nat -> spn_ishashmap (nth 1 argv spn_nilval) = true) ->
        exists v config,
          argv = generate_args v config
          /\ json_generate argv ctx
             = (gen <- gen_configured config ;;
                Some (generate_outcome (generate_recursive gen v ctx)))).
Proof.
  intros argv ctx.
  destruct argv as [ | a [ | b [ | c rest ] ] ].
  - split; [ reflexivity | ].
    split; [ discriminate | cbn [List.length]; lia ].
  - split; [ cbn [List.length]; lia | ].
    split; [ discriminate | ].
    intros _ _. exists a, None. split; [ reflexivity | ].
    exact (json_generate_run a None ctx).
  - split; [ cbn [List.length]; lia | ].
    split.
    + intros _ Hb. unfold json_generate. cbn in Hb |- *. now rewrite Hb.
    + intros _ Hb. specialize (Hb eq_refl). destruct b; try discriminate Hb.
      exists a, (Some pairs). split; [ reflexivity | ].
      exact (json_generate_run a (Some pairs) ctx).
  - split.
    + intros _. unfold json_generate. rewrite argc_too_many, orb_true_r. reflexivity.
    + split; [ discriminate | cbn [List.length]; lia ].
Qed.

End EmitterRuns.

(** *** The calls of a walk form one document *)

Lemma lexer_run_value (v : SpnValue) :
  serializable v = true ->
  forall open rest,
    lexer_run (open, false) (value_events v ++ rest)
    = (g' <- value_done open ;; lexer_run g' rest).
Proof.
  induction v as [ | b | i | f | s | elems IH | pairs IH | name | p | p ]
    using SpnValue_ind'; intros Hser open rest;
    try reflexivity; try discriminate Hser.
  - (* array *)
    apply serializable_array in Hser.
    assert (Hin : forall tail,
              lexer_run (InArray :: open, false)
                        (flat_map value_events elems ++ tail)
              = lexer_run (InArray :: open, false) tail).
    { induction elems as [ | x xs IHxs ]; intros tail; [ reflexivity | ].
      inversion IH; subst. inversion Hser; subst.
      cbn [flat_map]. rewrite <- app_assoc, H1 by assumption.
      cbn [value_done obind]. now apply IHxs. }
    cbn [value_events app lexer_run lexer_step]. rewrite <- app_assoc.
    destruct open as [ | [ | | ] below ]; cbn [obind]; try reflexivity;
      rewrite Hin; reflexivity.
  - (* hash map *)
    apply serializable_map in Hser as [Hser _].
    assert (Hin : forall tail,
              lexer_run (MapNeedKey :: open, false)
                (flat_map (fun kv => let '(k, val) := kv in
                                     EvMapKey (spn_stringvalue k) :: value_events val)
                          pairs ++ tail)
              = lexer_run (MapNeedKey :: open, false) tail).
    { induction pairs as [ | [k x] ps IHps ]; intros tail; [ reflexivity | ].
      inversion IH as [ | ? ? [_ Hx] IHrest ]; subst.
      inversion Hser as [ | ? ? [_ Hsx] Hsrest ]; subst. simpl in Hx, Hsx.
      cbn [flat_map app lexer_run lexer_step obind].
      rewrite <- app_assoc, Hx by assumption.
      cbn [value_done obind]. now apply IHps. }
    cbn [value_events app lexer_run lexer_step]. rewrite <- app_assoc.
    destruct open as [ | [ | | ] below ]; cbn [obind]; try reflexivity;
      rewrite Hin; reflexivity.
  - (* weak user-info *)
    rewrite (serializable_userinfo (SpnWeakUserInfo p) eq_refl Hser).
    reflexivity.
Qed.

(** X11.  For a value of serializable variants with maps keyed by strings,
    [generate_recursive] gives every writer that accepts them the same calls,
    in the same order, and returns 0 with the error context untouched.  These
    calls, read as events (a string in key position as a key), are exactly
    one complete, well-nested document: every container that is opened is
    closed in turn, keys and values alternate inside maps, and nothing
    follows the top-level value. *)
Theorem emitted_calls_well_nested :
  forall v,
    serializable v = true ->
    (forall (Y : Yajl) (gen : yajl_gen) ctx,
       accepts_all (emitted_calls v) gen = true ->
       generate_recursive gen v ctx = (emit_all (emitted_calls v) gen, ctx, 0))
    /\ read_back [] (emitted_calls v) = value_events v
    /\ lexer_run grammar_start (read_back [] (emitted_calls v)) = Some ([], true).
Proof.
  intros v Hser.
  pose proof (serializable_no_opaque v Hser) as Ho.
  rewrite (emitted_calls_walk v Ho).
  assert (E : read_back [] (calls_of (walk v)) = value_events v).
  { rewrite <- (app_nil_r (calls_of (walk v))).
    rewrite (read_back_value v Hser [] [] I). cbn [read_back]. apply app_nil_r. }
  split; [ | split; [ exact E | ] ].
  - intros Y gen ctx Ha. rewrite generate_recursive_walk.
    apply run_steps_ok. rewrite refusal_opaque. auto.
  - rewrite E, <- (app_nil_r (value_events v)).
    unfold grammar_start. now rewrite (lexer_run_value v Hser).
Qed.

Lemma emitted_calls_well_nested_witness :
  lexer_run grammar_start (read_back [] (emitted_calls value_with_nulls))
  = Some ([], true).
Proof.
  exact (proj2 (proj2 (emitted_calls_well_nested value_with_nulls eq_refl))).
Defined.

Lemma generate_success_witness :
  json_generate (Y:=MiniYajl.mini) (generate_args value_nested None) []
  = Some (mkOutcome 0 (Some (SpnString text_nested)) [] []).
Proof.
  apply (proj2 (generate_success (Y:=MiniYajl.mini)) value_nested None []
           text_nested yajl_gen_alloc eq_refl).
  repeat split.
Defined.

Lemma opaque_value_never_serialized_witness :
  exists o msg,
    json_generate (Y:=MiniYajl.mini)
      (generate_args (SpnArray [SpnInt 1; SpnStrongUserInfo (AddrOther 7)]) None) []
    = Some o
    /\ rv o = -1
    /\ ret o = None
    /\ ctx_after o = spn_ctx_runtime_error [] msg.
Proof.
  destruct (opaque_value_never_serialized (Y:=MiniYajl.mini)
              (SpnArray [SpnInt 1; SpnStrongUserInfo (AddrOther 7)]) None []
              eq_refl) as (o & msg & H1 & H2 & H3 & H4 & _).
  exists o, msg. auto.
Defined.

Lemma json_generate_argument_errors_witness :
  json_generate (Y:=MiniYajl.mini) [SpnInt 1; SpnString "beautify"] []
  = Some (mkOutcome (-2) None ["2nd argument must be a config object"] []).
Proof.
  exact (proj1 (proj2 (json_generate_argument_errors (Y:=MiniYajl.mini)
                         [SpnInt 1; SpnString "beautify"] []))
               eq_refl eq_refl).
Defined.

Lemma json_parse_argument_errors_witness :
  json_parse (Y:=MiniYajl.mini) [SpnInt 1; SpnInt 2] []
  = Some (mkOutcome (-2) None ["1st argument must be a string"] []).
Proof.
  refine (proj1 (proj2 (json_parse_argument_errors (Y:=MiniYajl.mini)
                          [SpnInt 1; SpnInt 2] [])) _ eq_refl).
  cbn [List.length]. lia.
Defined.

Lemma parse_success_leaves_stack_empty_witness :
  json_parse (Y:=MiniYajl.mini) (parse_args text_nested None) []
  = Some (mkOutcome 0 (Some value_nested) [] []).
Proof.
  destruct (parse_success_leaves_stack_empty (Y:=MiniYajl.mini) text_nested None []
              yajl_alloc state_init [] eq_refl eq_refl eq_refl)
    as (state & Hd & _ & _ & Hp).
  vm_compute in Hd. inversion Hd; subst state. exact Hp.
Defined.

(** *** The nulls of a parsed value *)

Lemma hashmap_set_keeps_nulls (en : bool) (hm : list (SpnValue * SpnValue))
  (k v : SpnValue) :
  keeps_nulls en (SpnHashMap hm) = true ->
  keeps_nulls en v = true ->
  keeps_nulls en (SpnHashMap (spn_hashmap_set hm k v)) = true.
Proof.
  cbn [keeps_nulls]. intros Hm Hv.
  unfold spn_hashmap_set. destruct (spn_isnil v).
  - unfold spn_hashmap_delete. apply forallb_forall. intros kv Hin.
    apply filter_In in Hin as [Hin _]. rewrite forallb_forall in Hm. auto.
  - induction hm as [ | [k' x] rest IH ]; simpl.
    + now rewrite Hv.
    + simpl in Hm. apply andb_prop in Hm as [Hx Hrest].
      destruct (spn_value_equal k' k); simpl.
      * now rewrite Hv, Hrest.
      * now rewrite Hx, IH.
Qed.

Lemma set_value_nulls (state state' : ParserState) (v : SpnValue) :
  frames_keep_nulls state = true ->
  keeps_nulls (explicit_null state) v = true ->
  set_value state v = Some state' ->
  frames_keep_nulls state' = true
  /\ (stack state' = [] -> root state' = v).
Proof.
  unfold frames_keep_nulls, set_value. intros Hf Hv.
  destruct (stack state) as [ | top next ].
  - intros H. inversion H. auto.
  - simpl in Hf. apply andb_prop in Hf as [Htop Hnext].
    destruct (value top) eqn:Eval; try discriminate.
    + intros H. inversion H. simpl. split; [ | discriminate ].
      rewrite Hnext, andb_true_r. unfold spn_array_push.
      rewrite forallb_app. simpl in Htop |- *. now rewrite Htop, Hv.
    + unfold obind. destruct (assert _); [ | discriminate ].
      intros H. inversion H. simpl. split; [ | discriminate ].
      rewrite Hnext, andb_true_r.
      now apply hashmap_set_keeps_nulls.
Qed.

Lemma callback_nulls (e : Event) (state state' : ParserState) (r : Z) :
  frames_keep_nulls state = true ->
  parser_callbacks e state = Some (state', r) ->
  frames_keep_nulls state' = true
  /\ (stack state' = [] -> keeps_nulls (explicit_null state) (root state') = true).
Proof.
  intros Hf.
  assert (Hset : forall v,
            keeps_nulls (explicit_null state) v = true ->
            (s <- set_value state v ;; Some (s, 1)) = Some (state', r) ->
            frames_keep_nulls state' = true
            /\ (stack state' = [] ->
                keeps_nulls (explicit_null state) (root state') = true)).
  { intros v Hv H. unfold obind in H.
    destruct (set_value state v) as [s | ] eqn:E; [ | discriminate ].
    inversion H; subst.
    destruct (set_value_nulls _ _ _ Hf Hv E) as [H1 H2].
    split; [ exact H1 | ]. intros Hs. now rewrite (H2 Hs). }
  assert (Hpush : forall c,
            keeps_nulls (explicit_null state) c = true ->
            (s <- state_push state c ;; Some (s, 1)) = Some (state', r) ->
            frames_keep_nulls state' = true
            /\ (stack state' = [] ->
                keeps_nulls (explicit_null state) (root state') = true)).
  { intros c Hc H. unfold state_push, obind in H.
    destruct (assert _); [ | discriminate ]. inversion H.
    unfold frames_keep_nulls in Hf |- *. simpl.
    split; [ now rewrite Hc, Hf | discriminate ]. }
  assert (Hpop :
            (p <- state_pop state ;; s <- set_value (snd p) (fst p) ;; Some (s, 1))
            = Some (state', r) ->
            frames_keep_nulls state' = true
            /\ (stack state' = [] ->
                keeps_nulls (explicit_null state) (root state') = true)).
  { unfold state_pop, obind. destruct (stack state) as [ | top next ] eqn:Est;
      [ discriminate | ].
    destruct (assert _); [ | discriminate ]. cbn [fst snd].
    destruct (set_value _ (value top)) as [s | ] eqn:E; [ | discriminate ].
    intros H. inversion H; subst.
    unfold frames_keep_nulls in Hf. rewrite Est in Hf. simpl in Hf.
    apply andb_prop in Hf as [Htop Hnext].
    destruct (set_value_nulls
                (mkParserState (root state) next (explicit_null state))
                state' (value top) Hnext Htop E) as [H1 H2].
    split; [ exact H1 | ]. intros Hs. now rewrite (H2 Hs). }
  destruct e; simpl;
    unfold cb_null, cb_boolean, cb_integer, cb_double, cb_string,
      cb_start_map, cb_end_map, cb_start_array, cb_end_array;
    try (apply Hset; reflexivity); try (apply Hpush; reflexivity);
    try apply Hpop.
  - apply Hset. destruct (explicit_null state); reflexivity.
  - unfold cb_map_key, obind. destruct (stack state) as [ | top next ] eqn:Est;
      [ discriminate | ].
    destruct (assert _); [ | discriminate ]. intros H. inversion H.
    unfold frames_keep_nulls in Hf |- *. rewrite Est in Hf. simpl in Hf |- *.
    split; [ exact Hf | discriminate ].
Qed.

Lemma deliver_nulls (evs : list Event) :
  forall g open state,
    lexer_run g evs = Some (open, true) ->
    slots_match g state ->
    frames_keep_nulls state = true ->
    (snd g = true -> keeps_nulls (explicit_null state) (root state) = true) ->
    exists state',
      yajl_deliver evs state = Some (state', true)
      /\ keeps_nulls (explicit_null state) (root state') = true.
Proof.
  induction evs as [ | e evs IH ]; simpl; intros g open state Hrun Hm Hf Hroot.
  - inversion Hrun; subst. eauto.
  - unfold obind in Hrun.
    destruct (lexer_step g e) as [[o1 c1] | ] eqn:Hstep; [ | discriminate ].
    destruct (callback_accepted _ _ e _ Hstep Hm) as (s1 & Hcb & Hm1 & He1).
    destruct (callback_nulls _ _ _ _ Hf Hcb) as [Hf1 Hr1].
    destruct (IH _ _ s1 Hrun Hm1 Hf1) as (s2 & Hd & Hk).
    + simpl. intros ->. rewrite He1. apply Hr1.
      apply lexer_step_complete in Hstep. subst o1.
      unfold slots_match in Hm1. simpl in Hm1.
      destruct (stack s1); [ reflexivity | discriminate ].
    + exists s2. rewrite Hcb. simpl. split; [ exact Hd | congruence ].
Qed.

Section ParsedNulls.

Context {Y : Yajl}.

(** X13.  The value [json_parse] returns for a complete document holds only
    the nulls its [explicit_null] flag makes: with "parse_null" on there is
    no nil anywhere in it (not in arrays, not under map keys), with
    "parse_null" off (or absent) there is no [null_value] anywhere in it. *)
Theorem parsed_nulls_follow_option :
  forall text config ctx h st0 open,
    configured config = Some (h, st0) ->
    feed_ok (yajl_scan h text) && finish_ok (yajl_scan h text) = true ->
    lexer_run grammar_start (dispatched (yajl_scan h text)) = Some (open, true) ->
    exists v,
      json_parse (parse_args text config) ctx = Some (mkOutcome 0 (Some v) ctx [])
      /\ keeps_nulls (explicit_null st0) v = true
      /\ null_collapse (explicit_null st0) v = v.
Proof.
  intros text config ctx h st0 open Hc Hok Hrun.
  destruct (configured_total config) as (h' & st0' & Hc' & Hm).
  rewrite Hc in Hc'. inversion Hc'; subst h' st0'; clear Hc'.
  assert (Hf : frames_keep_nulls st0 = true)
    by (destruct config; simpl in Hc; inversion Hc; reflexivity).
  destruct (deliver_nulls _ _ _ _ Hrun Hm Hf) as (state & Hd & Hk);
    [ discriminate | ].
  destruct (deliver_accepted _ _ _ _ Hrun Hm) as (state2 & Hd2 & Hms & _).
  rewrite Hd in Hd2. inversion Hd2; subst state2; clear Hd2.
  assert (Hstack : stack state = []).
  { pose proof (lexer_run_complete _ _ _ Hrun) as Ho.
    rewrite Ho in Hms by discriminate.
    unfold slots_match in Hms. simpl in Hms.
    destruct (stack state); [ reflexivity | discriminate ]. }
  exists (root state). split; [ | split ].
  - rewrite json_parse_run, Hc. cbn [obind fst snd]. rewrite Hd.
    cbn [obind fst]. unfold parse_outcome, state_free. now rewrite Hok, Hstack.
  - exact Hk.
  - now apply keeps_nulls_fixed.
Qed.

End ParsedNulls.

Lemma parsed_nulls_follow_option_witness :
  keeps_nulls true
    (SpnArray [SpnInt 1; null_value; SpnHashMap [(SpnString "k", null_value)]])
  = true.
Proof.
  destruct (parsed_nulls_follow_option (Y:=MiniYajl.mini) text_with_nulls
              (Some [(SpnString "parse_null", SpnBool true)]) []
              yajl_alloc (with_explicit_null state_init true) []
              eq_refl eq_refl eq_refl) as (v & Hp & Hk & _).
  vm_compute in Hp. inversion Hp; subst v. exact Hk.
Defined.
